(** * Custom smart pointers: UniquePtr, SharedPtr, WeakPtr

    A shallow embedding of the three handle classes and of the control
    block they share.  Every C++ object that matters is given an identity:

    - a control block is a key of [heap] ([new] picks the key [next],
      [delete block_] removes the key);
    - a [SharedPtr] object is a key of [shared], a [WeakPtr] object a key of
      [weak]; a handle stores its two fields [ptr_] and [block_];
    - the [weak_this] member of a payload deriving from
      [EnableSharedFromThis] is the weak handle [WeakThis b], where [b] is
      the block that owns the payload; it is destroyed by the payload's
      destructor, that is inside [DeletePointer];
    - the temporary [WeakPtr] built by [ptr->weak_this = *this] is [Temp].

    Methods are written in a state-and-error monad: a computation returns,
    throws [BadWeakPtr], or has no defined behaviour ([UB]: a null or
    dangling block is dereferenced, a dead object is used, an [int] counter
    overflows).

    Scope: the code is single-threaded, and so is the model.  A payload
    holds no handle other than its [weak_this] member.  Raw memory (the
    storage inside [ControlBlockHolder], the addresses [new] returns) is
    not modelled: blocks and handles are identified by keys. *)

From Stdlib Require Import ZArith Lia.
From stdpp Require Import gmap list fin_maps.

Local Open Scope Z_scope.

(** ** Data *)

Definition addr := Z.
Definition nullptr : addr := 0.

Definition INT_MAX : Z := 2147483647.
Definition INT_MIN : Z := -2147483648.

(** [size_t] on the LP64 targets the repository is built for. *)
Definition to_size_t (z : Z) : Z := z mod 2 ^ 64.

Inductive BlockKind := Pointer | Holder.

(** [ControlBlockBase] (src/unnamed/part_001, included as sw_fwd.h) with
    the data of its two subclasses:
    [payload] is [ControlBlockPointer::ptr_] or the address of
    [ControlBlockHolder::storage_]; [shares_this] says that a payload object
    exists and that its type derives from [IEnableSharedFromThis]. *)
Record ControlBlockBase := {
  strong_counter : Z;
  weak_counter : Z;
  kind : BlockKind;
  payload : addr;
  shares_this : bool
}.

(** The two fields every [SharedPtr<T>] and [WeakPtr<T>] has. *)
Record Handle := { ptr_ : addr; block_ : option nat }.

Definition empty_handle : Handle := {| ptr_ := nullptr; block_ := None |}.

Inductive WeakId :=
| User (n : nat)
| WeakThis (b : nat)
| Temp.

Global Instance WeakId_eq_dec : EqDecision WeakId.
Proof. solve_decision. Defined.

Global Instance WeakId_countable : Countable WeakId.
Proof.
  refine (inj_countable'
    (λ w, match w with User n => inl n | WeakThis b => inr (inl b) | Temp => inr (inr ()) end)
    (λ x, match x with inl n => User n | inr (inl b) => WeakThis b | inr (inr _) => Temp end) _).
  by intros [].
Defined.

Inductive event :=
| EvDeletePointer (b : nat)   (* block_->DeletePointer() *)
| EvDeleteBlock (b : nat).    (* delete block_ *)

Global Instance event_eq_dec : EqDecision event.
Proof. solve_decision. Defined.

Record State := {
  heap : gmap nat ControlBlockBase;
  shared : gmap nat Handle;
  weak : gmap WeakId Handle;
  trace : list event;
  next : nat
}.

Definition init : State :=
  {| heap := ∅; shared := ∅; weak := ∅; trace := []; next := 0%nat |}.

Definition set_heap (f : gmap nat ControlBlockBase → gmap nat ControlBlockBase) (s : State) : State :=
  {| heap := f (heap s); shared := shared s; weak := weak s; trace := trace s; next := next s |}.
Definition set_shared (f : gmap nat Handle → gmap nat Handle) (s : State) : State :=
  {| heap := heap s; shared := f (shared s); weak := weak s; trace := trace s; next := next s |}.
Definition set_weak (f : gmap WeakId Handle → gmap WeakId Handle) (s : State) : State :=
  {| heap := heap s; shared := shared s; weak := f (weak s); trace := trace s; next := next s |}.
Definition emit (e : event) (s : State) : State :=
  {| heap := heap s; shared := shared s; weak := weak s; trace := trace s ++ [e]; next := next s |}.

(** ** The monad *)

Inductive Result (A : Type) :=
| Ok (a : A) (s : State)
| Throw (s : State)          (* BadWeakPtr, with the state at the throw *)
| UB.
Arguments Ok {A} a s.
Arguments Throw {A} s.
Arguments UB {A}.

Definition M (A : Type) : Type := State → Result A.

Global Instance M_ret : MRet M := λ A a s, Ok a s.
Global Instance M_bind : MBind M := λ A B f c s,
  match c s with
  | Ok a s' => f a s'
  | Throw s' => Throw s'
  | UB => UB
  end.

Definition throw {A} : M A := λ s, Throw s.
Definition undefined {A} : M A := λ _, UB.
Definition modify (f : State → State) : M unit := λ s, Ok () (f s).

(** ** ControlBlockBase *)

Definition get_block (b : nat) : M ControlBlockBase := λ s,
  match heap s !! b with Some blk => Ok blk s | None => UB end.

Definition put_block (b : nat) (blk : ControlBlockBase) : M unit :=
  modify (set_heap <[b := blk]>).

Definition GetStrongCounter (b : nat) : M Z :=
  blk ← get_block b; mret (strong_counter blk).

Definition GetWeakCounter (b : nat) : M Z :=
  blk ← get_block b; mret (weak_counter blk).

Definition with_strong (z : Z) (blk : ControlBlockBase) : ControlBlockBase :=
  {| strong_counter := z; weak_counter := weak_counter blk; kind := kind blk;
     payload := payload blk; shares_this := shares_this blk |}.
Definition with_weak (z : Z) (blk : ControlBlockBase) : ControlBlockBase :=
  {| strong_counter := strong_counter blk; weak_counter := z; kind := kind blk;
     payload := payload blk; shares_this := shares_this blk |}.

(** [++] and [--] on an [int]: overflow has no defined behaviour. *)
Definition IncrementStrongCounter (b : nat) : M unit :=
  blk ← get_block b;
  if strong_counter blk =? INT_MAX then undefined
  else put_block b (with_strong (strong_counter blk + 1) blk).

Definition DecrementStrongCounter (b : nat) : M unit :=
  blk ← get_block b;
  if strong_counter blk =? INT_MIN then undefined
  else put_block b (with_strong (strong_counter blk - 1) blk).

Definition IncrementWeakCounter (b : nat) : M unit :=
  blk ← get_block b;
  if weak_counter blk =? INT_MAX then undefined
  else put_block b (with_weak (weak_counter blk + 1) blk).

Definition DecrementWeakCounter (b : nat) : M unit :=
  blk ← get_block b;
  if weak_counter blk =? INT_MIN then undefined
  else put_block b (with_weak (weak_counter blk - 1) blk).

(** [delete block_]: both subclass destructors do nothing. *)
Definition delete_block (b : nat) : M unit :=
  _ ← get_block b;
  modify (λ s, emit (EvDeleteBlock b) (set_heap (delete b) s)).

(** Stores of handle objects. *)
Definition wk_get (w : WeakId) : M Handle := λ s,
  match weak s !! w with Some h => Ok h s | None => UB end.
Definition wk_new (w : WeakId) (h : Handle) : M unit := λ s,
  match weak s !! w with
  | None => Ok () (set_weak <[w := h]> s)
  | Some _ => UB
  end.
Definition wk_del (w : WeakId) : M unit :=
  _ ← wk_get w; modify (set_weak (delete w)).
Definition wk_set_ptr (w : WeakId) (p : addr) : M unit :=
  h ← wk_get w; modify (set_weak <[w := {| ptr_ := p; block_ := block_ h |}]>).
Definition wk_set_block (w : WeakId) (b : option nat) : M unit :=
  h ← wk_get w; modify (set_weak <[w := {| ptr_ := ptr_ h; block_ := b |}]>).

Definition sh_get (i : nat) : M Handle := λ s,
  match shared s !! i with Some h => Ok h s | None => UB end.
Definition sh_new (i : nat) (h : Handle) : M unit := λ s,
  match shared s !! i with
  | None => Ok () (set_shared <[i := h]> s)
  | Some _ => UB
  end.
Definition sh_del (i : nat) : M unit :=
  _ ← sh_get i; modify (set_shared (delete i)).
Definition sh_set_ptr (i : nat) (p : addr) : M unit :=
  h ← sh_get i; modify (set_shared <[i := {| ptr_ := p; block_ := block_ h |}]>).
Definition sh_set_block (i : nat) (b : option nat) : M unit :=
  h ← sh_get i; modify (set_shared <[i := {| ptr_ := ptr_ h; block_ := b |}]>).

(** ** src/weak.h *)

Module WeakPtr.

Definition IncrementBlockWeakCounter (this : WeakId) : M unit :=
  h ← wk_get this;
  match block_ h with
  | None => mret ()
  | Some b => IncrementWeakCounter b
  end.

Definition DecrementBlockWeakCounter (this : WeakId) : M unit :=
  h ← wk_get this;
  match block_ h with
  | None => mret ()
  | Some b =>
      sc ← GetStrongCounter b;
      wc ← GetWeakCounter b;
      if (sc =? 0) && (wc <=? 1) then delete_block b
      else DecrementWeakCounter b
  end.

(** [WeakPtr()] *)
Definition default (this : WeakId) : M unit := wk_new this empty_handle.

(** [WeakPtr(const WeakPtr&)] and its converting template *)
Definition copy (this other : WeakId) : M unit :=
  o ← wk_get other;
  wk_new this {| ptr_ := ptr_ o; block_ := block_ o |};;
  IncrementBlockWeakCounter this.

(** [WeakPtr(WeakPtr&&)] *)
Definition move (this other : WeakId) : M unit :=
  o ← wk_get other;
  wk_new this {| ptr_ := ptr_ o; block_ := block_ o |};;
  wk_set_ptr other nullptr;;
  wk_set_block other None.

(** [WeakPtr(const SharedPtr<U>&)] *)
Definition from_shared (this : WeakId) (other : nat) : M unit :=
  o ← sh_get other;
  wk_new this {| ptr_ := ptr_ o; block_ := block_ o |};;
  IncrementBlockWeakCounter this.

(** [std::swap] on one field of two handles. *)
Definition swap_ptr (x y : WeakId) : M unit :=
  hx ← wk_get x; hy ← wk_get y;
  wk_set_ptr x (ptr_ hy);; wk_set_ptr y (ptr_ hx).
Definition swap_block (x y : WeakId) : M unit :=
  hx ← wk_get x; hy ← wk_get y;
  wk_set_block x (block_ hy);; wk_set_block y (block_ hx).

(** [operator=(const WeakPtr&)] *)
Definition assign (this other : WeakId) : M unit :=
  if decide (this = other) then mret ()
  else
    DecrementBlockWeakCounter this;;
    o ← wk_get other;
    wk_set_ptr this (ptr_ o);;
    wk_set_block this (block_ o);;
    IncrementBlockWeakCounter this.

(** [operator=(WeakPtr&&)]: no self-assignment guard. *)
Definition move_assign (this other : WeakId) : M unit :=
  DecrementBlockWeakCounter this;;
  wk_set_ptr this nullptr;;
  wk_set_block this None;;
  swap_ptr this other;;
  swap_block this other.

(** [~WeakPtr()] *)
Definition dtor (this : WeakId) : M unit :=
  DecrementBlockWeakCounter this;;
  wk_del this.

Definition Reset (this : WeakId) : M unit :=
  DecrementBlockWeakCounter this;;
  wk_set_ptr this nullptr;;
  wk_set_block this None.

Definition Swap (this other : WeakId) : M unit :=
  swap_ptr this other;;
  swap_block this other.

Definition UseCount (this : WeakId) : M Z :=
  h ← wk_get this;
  match block_ h with
  | None => mret 0
  | Some b => sc ← GetStrongCounter b; mret (to_size_t sc)
  end.

Definition Expired (this : WeakId) : M bool :=
  h ← wk_get this;
  match block_ h with
  | None => mret true
  | Some b => sc ← GetStrongCounter b; mret (sc =? 0)
  end.

End WeakPtr.

(** ** src/unnamed/part_001, [DeletePointer]

    [ControlBlockPointer] runs [delete ptr_], [ControlBlockHolder] runs the
    destructor in place; either way the payload's destructor runs, and with
    it the destructor of the payload's [weak_this] member. *)
Definition DeletePointer (b : nat) : M unit :=
  blk ← get_block b;
  modify (emit (EvDeletePointer b));;
  if shares_this blk then WeakPtr.dtor (WeakThis b) else mret ().

(** [new ControlBlockPointer<T>(ptr)] and [new ControlBlockHolder<T>(args...)]:
    both constructors leave strong = 1 and weak = 0.  A payload that derives
    from [EnableSharedFromThis] brings its default-constructed [weak_this]. *)
Definition new_block (k : BlockKind) (p : addr) (cap : bool) : M nat := λ s,
  let b := next s in
  let blk := {| strong_counter := 1; weak_counter := 0; kind := k;
                payload := p; shares_this := cap |} in
  let s1 := {| heap := <[b := blk]> (heap s); shared := shared s; weak := weak s;
               trace := trace s; next := S b |} in
  if cap then (wk_new (WeakThis b) empty_handle;; mret b) s1 else Ok b s1.

(** ** src/unnamed/part_000, second header: [SharedPtr] *)

Module SharedPtr.

Definition IncrementBlockStrongCounter (this : nat) : M unit :=
  h ← sh_get this;
  match block_ h with
  | None => mret ()
  | Some b => IncrementStrongCounter b
  end.

Definition DecrementBlockStrongCounter (this : nat) : M unit :=
  h ← sh_get this;
  match block_ h with
  | None => mret ()
  | Some b =>
      sc ← GetStrongCounter b;
      wc ← GetWeakCounter b;
      if (sc =? 1) && (wc =? 0) then
        DeletePointer b;;
        delete_block b
      else
        DecrementStrongCounter b;;
        sc' ← GetStrongCounter b;
        if sc' <=? 0 then DeletePointer b else mret ()
  end.

(** [ptr->weak_this = *this]: the right-hand side is converted to a
    temporary [WeakPtr], which is move-assigned and then destroyed. *)
Definition install_weak_this (b : nat) (this : nat) : M unit :=
  WeakPtr.from_shared Temp this;;
  WeakPtr.move_assign (WeakThis b) Temp;;
  WeakPtr.dtor Temp.

(** [SharedPtr()] and [SharedPtr(std::nullptr_t)] *)
Definition default (this : nat) : M unit := sh_new this empty_handle.

(** [SharedPtr(T* ptr)] and [SharedPtr(U* ptr)]; [cap] is the
    [if constexpr] condition. *)
Definition adopt (this : nat) (p : addr) (cap : bool) : M unit :=
  if cap && (p =? nullptr) then undefined
  else
    b ← new_block Pointer p cap;
    sh_new this {| ptr_ := p; block_ := Some b |};;
    if cap then install_weak_this b this else mret ().

(** [SharedPtr(ControlBlockHolder<U>* block)] applied to
    [new ControlBlockHolder<T>(args...)], that is [MakeShared]; [p] is the
    address of the storage inside the new block. *)
Definition MakeShared (this : nat) (p : addr) (cap : bool) : M unit :=
  b ← new_block Holder p cap;
  sh_new this {| ptr_ := p; block_ := Some b |};;
  if cap then install_weak_this b this else mret ().

(** [SharedPtr(const SharedPtr&)] and its converting template *)
Definition copy (this other : nat) : M unit :=
  o ← sh_get other;
  sh_new this {| ptr_ := ptr_ o; block_ := block_ o |};;
  IncrementBlockStrongCounter this.

(** [SharedPtr(SharedPtr&&)] and its converting template *)
Definition move (this other : nat) : M unit :=
  o ← sh_get other;
  sh_new this {| ptr_ := ptr_ o; block_ := block_ o |};;
  sh_set_block other None;;
  sh_set_ptr other nullptr.

(** Aliasing constructor [SharedPtr(const SharedPtr<U>& other, T* ptr)] *)
Definition alias (this other : nat) (q : addr) : M unit :=
  o ← sh_get other;
  sh_new this {| ptr_ := q; block_ := block_ o |};;
  IncrementBlockStrongCounter this.

(** [explicit SharedPtr(const WeakPtr<T>& other)] *)
Definition promote (this : nat) (other : WeakId) : M unit :=
  o ← wk_get other;
  match block_ o with
  | None => undefined                       (* other.block_->... on nullptr *)
  | Some b =>
      sc ← GetStrongCounter b;
      if sc =? 0 then throw
      else
        sh_new this {| ptr_ := ptr_ o; block_ := Some b |};;
        IncrementStrongCounter b
  end.

Definition swap_ptr (x y : nat) : M unit :=
  hx ← sh_get x; hy ← sh_get y;
  sh_set_ptr x (ptr_ hy);; sh_set_ptr y (ptr_ hx).
Definition swap_block (x y : nat) : M unit :=
  hx ← sh_get x; hy ← sh_get y;
  sh_set_block x (block_ hy);; sh_set_block y (block_ hx).

(** [operator=(const SharedPtr&)] *)
Definition assign (this other : nat) : M unit :=
  if decide (this = other) then mret ()
  else
    DecrementBlockStrongCounter this;;
    o ← sh_get other;
    sh_set_block this (block_ o);;
    IncrementBlockStrongCounter this;;
    o' ← sh_get other;
    sh_set_ptr this (ptr_ o').

(** [operator=(SharedPtr&&)] *)
Definition move_assign (this other : nat) : M unit :=
  if decide (this = other) then mret ()
  else
    DecrementBlockStrongCounter this;;
    sh_set_block this None;;
    sh_set_ptr this nullptr;;
    swap_block this other;;
    swap_ptr this other.

(** [~SharedPtr()] *)
Definition dtor (this : nat) : M unit :=
  DecrementBlockStrongCounter this;;
  sh_del this.

(** [Reset()] *)
Definition Reset (this : nat) : M unit :=
  DecrementBlockStrongCounter this;;
  sh_set_ptr this nullptr;;
  sh_set_block this None.

(** [Reset(T* ptr)] and [Reset(U* ptr)]: a fresh pointer block, and no
    [weak_this] installation. *)
Definition Reset_ptr (this : nat) (p : addr) (cap : bool) : M unit :=
  DecrementBlockStrongCounter this;;
  sh_set_ptr this p;;
  b ← new_block Pointer p (cap && negb (p =? nullptr));
  sh_set_block this (Some b).

Definition Swap (this other : nat) : M unit :=
  swap_ptr this other;;
  swap_block this other.

Definition Get (this : nat) : M addr :=
  h ← sh_get this; mret (ptr_ h).

Definition UseCount (this : nat) : M Z :=
  h ← sh_get this;
  match block_ h with
  | None => mret 0
  | Some b => sc ← GetStrongCounter b; mret (to_size_t sc)
  end.

Definition to_bool (this : nat) : M bool :=
  h ← sh_get this; mret (negb (ptr_ h =? nullptr)).

End SharedPtr.

(** [operator==] on two strong handles *)
Definition operator_eq (left right : nat) : M bool :=
  l ← SharedPtr.Get left; r ← SharedPtr.Get right; mret (l =? r).

(** [WeakPtr::Lock], which needs the promoting constructor; the result is
    built in the caller's object [dst]. *)
Definition Lock (dst : nat) (this : WeakId) : M unit :=
  uc ← WeakPtr.UseCount this;
  if uc =? 0 then SharedPtr.default dst
  else SharedPtr.promote dst this.

(** ** [EnableSharedFromThis], for the payload owned by block [b] *)

Definition SharedFromThis (dst : nat) (b : nat) : M unit :=
  SharedPtr.promote dst (WeakThis b).

Definition WeakFromThis (dst : WeakId) (b : nat) : M unit :=
  WeakPtr.copy dst (WeakThis b).

(** The two constructions that establish ownership of a payload whose type
    derives from [EnableSharedFromThis]. *)
Definition establish (k : BlockKind) (d : nat) (p : addr) : M unit :=
  match k with
  | Pointer => SharedPtr.adopt d p true
  | Holder => SharedPtr.MakeShared d p true
  end.

(** ** Client programs

    One constructor per public operation of the strong/weak subsystem.
    Objects the client declares are [SharedPtr] number [n] and [WeakPtr]
    [User n]; the client may also reach the public member [weak_this] of a
    payload (any [WeakId] where a handle is read or modified), but it only
    constructs and destroys handles of its own. *)

Inductive op :=
| ShDefault (d : nat)
| ShAdopt (d : nat) (p : addr) (cap : bool)
| ShMake (d : nat) (p : addr) (cap : bool)
| ShCopy (d src : nat)
| ShMove (d src : nat)
| ShAlias (d src : nat) (q : addr)
| ShPromote (d : nat) (w : WeakId)
| ShAssign (t o : nat)
| ShMoveAssign (t o : nat)
| ShDtor (t : nat)
| ShReset (t : nat)
| ShResetPtr (t : nat) (p : addr) (cap : bool)
| ShSwap (t o : nat)
| WkDefault (d : nat)
| WkCopy (d : nat) (src : WeakId)
| WkMove (d : nat) (src : WeakId)
| WkDemote (d : nat) (src : nat)
| WkAssign (t o : WeakId)
| WkMoveAssign (t o : WeakId)
| WkDtor (t : nat)
| WkReset (t : WeakId)
| WkSwap (t o : WeakId)
| WkLock (d : nat) (w : WeakId)
| ObjSharedFromThis (d : nat) (b : nat)
| ObjWeakFromThis (d : nat) (b : nat).

(** A method is called on a live object. *)
Definition on_shared (t : nat) (c : M unit) : M unit := _ ← sh_get t; c.
Definition on_weak (t : WeakId) (c : M unit) : M unit := _ ← wk_get t; c.

Definition step (o : op) : M unit :=
  match o with
  | ShDefault d => SharedPtr.default d
  | ShAdopt d p cap => SharedPtr.adopt d p cap
  | ShMake d p cap => SharedPtr.MakeShared d p cap
  | ShCopy d src => SharedPtr.copy d src
  | ShMove d src => SharedPtr.move d src
  | ShAlias d src q => SharedPtr.alias d src q
  | ShPromote d w => SharedPtr.promote d w
  | ShAssign t o => on_shared t (SharedPtr.assign t o)
  | ShMoveAssign t o => on_shared t (SharedPtr.move_assign t o)
  | ShDtor t => SharedPtr.dtor t
  | ShReset t => SharedPtr.Reset t
  | ShResetPtr t p cap => SharedPtr.Reset_ptr t p cap
  | ShSwap t o => SharedPtr.Swap t o
  | WkDefault d => WeakPtr.default (User d)
  | WkCopy d src => WeakPtr.copy (User d) src
  | WkMove d src => WeakPtr.move (User d) src
  | WkDemote d src => WeakPtr.from_shared (User d) src
  | WkAssign t o => on_weak t (WeakPtr.assign t o)
  | WkMoveAssign t o => WeakPtr.move_assign t o
  | WkDtor t => WeakPtr.dtor (User t)
  | WkReset t => WeakPtr.Reset t
  | WkSwap t o => WeakPtr.Swap t o
  | WkLock d w => Lock d w
  | ObjSharedFromThis d b => SharedFromThis d b
  | ObjWeakFromThis d b => WeakFromThis (User d) b
  end.

(** The client catches [BadWeakPtr] and goes on; the run stops at [UB]. *)
Definition after (o : op) (s : State) : option State :=
  match step o s with
  | Ok _ s' => Some s'
  | Throw s' => Some s'
  | UB => None
  end.

Fixpoint run (os : list op) (s : State) : option State :=
  match os with
  | [] => Some s
  | o :: os' =>
      match after o s with
      | Some s' => run os' s'
      | None => None
      end
  end.

(** ** Observations *)

(** Number of handles of a store whose [block_] is [b]. *)
Definition refs `{Countable K} (b : nat) (m : gmap K Handle) : Z :=
  Z.of_nat (size (filter (λ kv : K * Handle, block_ kv.2 = Some b) m)).

(** Number of occurrences of an event. *)
Definition occ (e : event) (l : list event) : Z :=
  Z.of_nat (length (filter (λ x, x = e) l)).

Definition deleted (s : State) (b : nat) : Z := occ (EvDeletePointer b) (trace s).
Definition freed (s : State) (b : nat) : Z := occ (EvDeleteBlock b) (trace s).

(** Counters seen through a possibly dangling block pointer: a freed block
    counts for nothing. *)
Definition strong_of (s : State) (b : nat) : Z :=
  match heap s !! b with Some blk => strong_counter blk | None => 0 end.
Definition weak_of (s : State) (b : nat) : Z :=
  match heap s !! b with Some blk => weak_counter blk | None => 0 end.
Definition cap_of (s : State) (b : nat) : bool :=
  match heap s !! b with Some blk => shares_this blk | None => false end.

Definition points (o : option nat) (b : nat) : Z :=
  if decide (o = Some b) then 1 else 0.
Definition hpoints (oh : option Handle) (b : nat) : Z :=
  match oh with Some h => points (block_ h) b | None => 0 end.

(** ** src/unnamed/part_000, first header: [UniquePtr]

    The exclusive handle has no control block: its state is the pair
    [data_] of the raw pointer and the deletion policy.  A method returns
    the new handle together with what it did, in program order.  The
    primary template and the array specialisation have the same methods. *)

Module UniquePtr.

(** [CompressedPair<T*, Deleter> data_] *)
Record UniquePtr (Deleter : Type) := {
  first : addr;
  second : Deleter
}.
Arguments first {Deleter} _.
Arguments second {Deleter} _.

(** [Store p] is the assignment [data_.GetFirst() = p], and [Call d p] the
    call [GetDeleter()(p)] of the policy [d]. *)
Inductive action (Deleter : Type) :=
| Store (p : addr)
| Call (d : Deleter) (p : addr).
Arguments Store {Deleter} p.
Arguments Call {Deleter} d p.

Definition Get {Deleter} (u : UniquePtr Deleter) : addr := first u.
Definition GetDeleter {Deleter} (u : UniquePtr Deleter) : Deleter := second u.

Definition set_first {Deleter} (p : addr) (u : UniquePtr Deleter) : UniquePtr Deleter :=
  {| first := p; second := second u |}.

(** [T* Release()] *)
Definition Release {Deleter} (u : UniquePtr Deleter)
  : addr * UniquePtr Deleter * list (action Deleter) :=
  let tmp_data := first u in
  (tmp_data, set_first nullptr u, [Store nullptr]).

(** [void Reset(T* ptr = nullptr)] *)
Definition Reset {Deleter} (ptr : addr) (u : UniquePtr Deleter)
  : UniquePtr Deleter * list (action Deleter) :=
  let tmp_ptr := Get u in
  let u1 := set_first ptr u in
  (u1, [Store ptr; Call (GetDeleter u1) tmp_ptr]).

(** [operator=(std::nullptr_t)] *)
Definition assign_nullptr {Deleter} (u : UniquePtr Deleter)
  : UniquePtr Deleter * list (action Deleter) :=
  (set_first nullptr u, [Call (GetDeleter u) (Get u); Store nullptr]).

(** [~UniquePtr()] *)
Definition dtor {Deleter} (u : UniquePtr Deleter) : list (action Deleter) :=
  [Call (GetDeleter u) (Get u)].

(** The calls of the deletion policy among some actions, each with its
    argument and with the pointer the handle holds while the call runs;
    [cur] is the pointer held before the first action. *)
Fixpoint calls {Deleter} (cur : addr) (l : list (action Deleter))
  : list (addr * addr) :=
  match l with
  | [] => []
  | Store p :: l' => calls p l'
  | Call _ r :: l' => (r, cur) :: calls cur l'
  end.

(** [explicit operator bool()] *)
Definition to_bool {Deleter} (u : UniquePtr Deleter) : bool :=
  negb (Get u =? nullptr).

(** [UniquePtr(T* ptr, Deleter deleter)]; [explicit UniquePtr(T* ptr)] is
    the case of a default-constructed policy. *)
Definition make {Deleter} (ptr : addr) (deleter : Deleter) : UniquePtr Deleter :=
  {| first := ptr; second := deleter |}.

(** [UniquePtr(UniquePtr&& other)]: the new handle and what is left of
    [other].  [moved d] is the state a policy [d] is left in when it has
    been moved from. *)
Definition move {Deleter} (moved : Deleter → Deleter) (other : UniquePtr Deleter)
  : UniquePtr Deleter * UniquePtr Deleter :=
  let '(p, other1, _) := Release other in
  ({| first := p; second := GetDeleter other1 |},
   {| first := first other1; second := moved (GetDeleter other1) |}).

(** [operator=(UniquePtr&& other)]: the two handles afterwards, and the
    actions on [this]. *)
Definition move_assign {Deleter} (moved : Deleter → Deleter)
    (this other : UniquePtr Deleter)
  : UniquePtr Deleter * UniquePtr Deleter * list (action Deleter) :=
  if Get this =? Get other then (this, other, [])
  else
    ({| first := first other; second := GetDeleter other |},
     {| first := nullptr; second := moved (GetDeleter other) |},
     [Call (GetDeleter this) (Get this); Store (first other)]).

(** [Swap(UniquePtr& other)], as the array specialisation writes it: the
    two fields are swapped one after the other; the primary template swaps
    the pair [data_] as a whole. *)
Definition Swap {Deleter} (this other : UniquePtr Deleter)
  : UniquePtr Deleter * UniquePtr Deleter :=
  ({| first := first other; second := second other |},
   {| first := first this; second := second this |}).

(** Programs with several exclusive handles: the handle objects the client
    has declared, by name, and the calls of deletion policies so far.  An
    [addr] names an object, so that a pointer that has been passed to a
    policy is not the pointer of a later allocation. *)
Record Sys (Deleter : Type) := {
  objs : gmap nat (UniquePtr Deleter);
  log : list (Deleter * addr)
}.
Arguments objs {Deleter} _.
Arguments log {Deleter} _.

Definition policy_calls {Deleter} (l : list (action Deleter))
  : list (Deleter * addr) :=
  omap (λ a, match a with Call d p => Some (d, p) | Store _ => None end) l.

Inductive uop (Deleter : Type) :=
| UNew (d : nat) (ptr : addr) (deleter : Deleter)
| UMove (d src : nat)
| UMoveAssign (t o : nat)
| UAssignNull (t : nat)
| UDtor (t : nat)
| URelease (t : nat)
| UReset (t : nat) (ptr : addr)
| USwap (t o : nat).
Arguments UNew {Deleter} d ptr deleter.
Arguments UMove {Deleter} d src.
Arguments UMoveAssign {Deleter} t o.
Arguments UAssignNull {Deleter} t.
Arguments UDtor {Deleter} t.
Arguments URelease {Deleter} t.
Arguments UReset {Deleter} t ptr.
Arguments USwap {Deleter} t o.

(** One operation of the client; [None] when it names an object that does
    not exist, or constructs one that does.  With [t = o] the two arguments
    of move assignment and of [Swap] are the same object: the guard of move
    assignment then holds, and both leave the object as it is. *)
Definition ustep {Deleter} (moved : Deleter → Deleter) (o : uop Deleter)
    (σ : Sys Deleter) : option (Sys Deleter) :=
  match o with
  | UNew d ptr deleter =>
      match objs σ !! d with
      | None => Some {| objs := <[d := make ptr deleter]> (objs σ); log := log σ |}
      | Some _ => None
      end
  | UMove d src =>
      match objs σ !! d, objs σ !! src with
      | None, Some other =>
          let '(this, other') := move moved other in
          Some {| objs := <[d := this]> (<[src := other']> (objs σ));
                  log := log σ |}
      | _, _ => None
      end
  | UMoveAssign t o =>
      match objs σ !! t, objs σ !! o with
      | Some this, Some other =>
          let '(this', other', acts) := move_assign moved this other in
          Some {| objs := <[t := this']> (<[o := other']> (objs σ));
                  log := log σ ++ policy_calls acts |}
      | _, _ => None
      end
  | UAssignNull t =>
      match objs σ !! t with
      | Some this =>
          let '(this', acts) := assign_nullptr this in
          Some {| objs := <[t := this']> (objs σ);
                  log := log σ ++ policy_calls acts |}
      | None => None
      end
  | UDtor t =>
      match objs σ !! t with
      | Some this =>
          Some {| objs := delete t (objs σ);
                  log := log σ ++ policy_calls (dtor this) |}
      | None => None
      end
  | URelease t =>
      match objs σ !! t with
      | Some this =>
          let '(_, this', _) := Release this in
          Some {| objs := <[t := this']> (objs σ); log := log σ |}
      | None => None
      end
  | UReset t ptr =>
      match objs σ !! t with
      | Some this =>
          let '(this', acts) := Reset ptr this in
          Some {| objs := <[t := this']> (objs σ);
                  log := log σ ++ policy_calls acts |}
      | None => None
      end
  | USwap t o =>
      match objs σ !! t, objs σ !! o with
      | Some this, Some other =>
          let '(this', other') := Swap this other in
          Some {| objs := <[t := this']> (<[o := other']> (objs σ));
                  log := log σ |}
      | _, _ => None
      end
  end.

(** The pointer the handle named [i] holds; [nullptr] when there is no such
    handle. *)
Definition held {Deleter} (σ : Sys Deleter) (i : nat) : addr :=
  match objs σ !! i with Some u => Get u | None => nullptr end.

Definition owned {Deleter} (σ : Sys Deleter) (p : addr) : bool :=
  bool_decide (Exists (λ kv : nat * UniquePtr Deleter, Get kv.2 = p)
                 (map_to_list (objs σ))).

Definition passed {Deleter} (σ : Sys Deleter) (p : addr) : bool :=
  bool_decide (p ∈ (log σ).*2).

(** What the client owes: a raw pointer it hands to a handle is null, or
    points to an object that no handle owns and that has not been passed to
    a deletion policy. *)
Definition uop_ok {Deleter} (o : uop Deleter) (σ : Sys Deleter) : bool :=
  match o with
  | UNew _ ptr _ | UReset _ ptr =>
      (ptr =? nullptr) || negb (owned σ ptr || passed σ ptr)
  | _ => true
  end.

Fixpoint urun {Deleter} (moved : Deleter → Deleter) (os : list (uop Deleter))
    (σ : Sys Deleter) : option (Sys Deleter) :=
  match os with
  | [] => Some σ
  | o :: os' =>
      if uop_ok o σ then
        match ustep moved o σ with
        | Some σ' => urun moved os' σ'
        | None => None
        end
      else None
  end.

Definition uinit {Deleter} : Sys Deleter := {| objs := ∅; log := [] |}.

(** Exclusive ownership: two handles never hold the same object, no handle
    holds an object that has been passed to a deletion policy, and no
    object has been passed to a deletion policy twice. *)
Record UInv {Deleter} (σ : Sys Deleter) : Prop := {
  u_excl : ∀ i j, held σ i = held σ j → held σ i ≠ nullptr → i = j;
  u_live : ∀ i, held σ i ≠ nullptr → held σ i ∉ (log σ).*2;
  u_once : NoDup (filter (λ p, p ≠ nullptr) (log σ).*2)
}.

End UniquePtr.

(** ** Example programs *)

(** The strong/weak scenario of the specification, up to the first reset. *)
Definition widget_prefix : list op :=
  [ShMake 1 100 false; ShCopy 2 1; WkDemote 0 2; ShReset 1].

(** The whole scenario: the payload goes with the last strong handle, the
    block only with the last weak handle. *)
Definition widget_expired : list op :=
  widget_prefix ++ [ShReset 2; WkLock 5 (User 0)].

Definition state_after (os : list op) : State :=
  from_option id init (run os init).

Definition widget_prefix_state : State :=
  Eval vm_compute in state_after widget_prefix.
Definition widget_last_strong_state : State :=
  Eval vm_compute in state_after (widget_prefix ++ [ShReset 2]).
Definition widget_expired_state : State :=
  Eval vm_compute in state_after widget_expired.
Definition widget_freed_state : State :=
  Eval vm_compute in state_after (widget_expired ++ [WkDtor 0]).

(** A program on exclusive handles whose policies are flags; a policy that
    has been moved from is [false]. *)
Definition unique_example : list (UniquePtr.uop bool) :=
  [UniquePtr.UNew 1 10 true; UniquePtr.UNew 2 20 true; UniquePtr.UMove 3 1;
   UniquePtr.UMoveAssign 2 3; UniquePtr.UReset 1 30; UniquePtr.USwap 1 2;
   UniquePtr.UDtor 1; UniquePtr.URelease 2; UniquePtr.UAssignNull 3].

(** The state a strong handle leaves behind that was constructed on a new
    block in [s] and destroyed as its only owner. *)
Definition after_temporary (s : State) : State :=
  {| heap := heap s; shared := shared s; weak := weak s;
     trace := trace s ++ [EvDeletePointer (next s); EvDeleteBlock (next s)];
     next := S (next s) |}.

(** ** The invariant

    [GInv ps pw ex] is the invariant that holds between client operations,
    relaxed for the states inside an operation: [ps] (resp. [pw]) is the
    block of a strong (resp. weak) handle whose field already names the
    block while the counter does not count it (or no longer does), and [ex]
    is a block whose payload destruction is under way. *)

Record GInv (ps pw ex : option nat) (s : State) : Prop := {
  g_strong : ∀ b, strong_of s b = refs b (shared s) - points ps b;
  g_weak : ∀ b, weak_of s b = refs b (weak s) - points pw b;
  g_range : ∀ b blk, heap s !! b = Some blk →
    0 ≤ strong_counter blk ≤ INT_MAX ∧ 0 ≤ weak_counter blk ≤ INT_MAX ∧
    0 < strong_counter blk + weak_counter blk;
  g_freed : ∀ b, (b < next s)%nat →
    freed s b = match heap s !! b with Some _ => 0 | None => 1 end;
  g_fresh : ∀ b, (next s ≤ b)%nat →
    heap s !! b = None ∧ freed s b = 0 ∧ deleted s b = 0;
  g_deleted : ∀ b, (b < next s)%nat → ex ≠ Some b →
    deleted s b = if 0 <? strong_of s b then 0 else 1;
  g_this : ∀ b, ex ≠ Some b →
    is_Some (weak s !! WeakThis b) ↔ cap_of s b = true ∧ 0 < strong_of s b;
  g_temp : weak s !! Temp = None
}.

Definition Inv : State → Prop := GInv None None None.

(** What one client operation guarantees: the invariant again, no block
    loses more than one strong reference, and blocks are never reused. *)
Definition good (s s' : State) : Prop :=
  Inv s' ∧
  (∀ b, refs b (shared s) - 1 ≤ refs b (shared s')) ∧
  (next s ≤ next s')%nat ∧
  trace s `prefix_of` trace s'.

(** [ok] is a sufficient condition for defined behaviour. *)
Definition outcome (c : M unit) (s : State) (ok : bool) : Prop :=
  match c s with
  | Ok _ s' => good s s'
  | Throw s' => s' = s
  | UB => ok = false
  end.

Definition fresh_sh (d : nat) (s : State) : bool :=
  match shared s !! d with None => true | Some _ => false end.
Definition fresh_wk (d : WeakId) (s : State) : bool :=
  match weak s !! d with None => true | Some _ => false end.
Definition room_strong (o : option nat) (s : State) : bool :=
  match o with None => true | Some b => strong_of s b <? INT_MAX end.
Definition room_weak (o : option nat) (s : State) : bool :=
  match o with None => true | Some b => weak_of s b <? INT_MAX end.
Definition sh_block (i : nat) (s : State) : option (option nat) :=
  block_ <$> shared s !! i.
Definition wk_block (i : WeakId) (s : State) : option (option nat) :=
  block_ <$> weak s !! i.

Definition live_sh (i : nat) (s : State) : bool :=
  match sh_block i s with Some _ => true | None => false end.
Definition live_wk (i : WeakId) (s : State) : bool :=
  match wk_block i s with Some _ => true | None => false end.
Definition live_sh2 (t o : nat) (s : State) : bool :=
  match sh_block t s, sh_block o s with Some _, Some _ => true | _, _ => false end.
Definition live_wk2 (t o : WeakId) (s : State) : bool :=
  match wk_block t s, wk_block o s with Some _, Some _ => true | _, _ => false end.
Definition can_promote (w : WeakId) (s : State) : bool :=
  match wk_block w s with
  | Some (Some b) => strong_of s b <? INT_MAX
  | _ => false
  end.

(** A condition under which an operation has defined behaviour: the
    objects it uses are alive, the object it constructs is new, the pointer
    it dereferences is not null, and the counter it increments is below
    [INT_MAX]. *)
Definition op_ok (o : op) (s : State) : bool :=
  match o with
  | ShDefault d => fresh_sh d s
  | ShAdopt d p cap => fresh_sh d s && negb (cap && (p =? nullptr))
  | ShMake d _ _ => fresh_sh d s
  | ShCopy d src | ShAlias d src _ =>
      fresh_sh d s &&
      match sh_block src s with Some o => room_strong o s | None => false end
  | ShMove d src => fresh_sh d s && live_sh src s
  | ShPromote d w => fresh_sh d s && can_promote w s
  | ShAssign t o =>
      match sh_block t s, sh_block o s with
      | Some _, Some bo => bool_decide (t = o) || room_strong bo s
      | _, _ => false
      end
  | ShMoveAssign t o | ShSwap t o => live_sh2 t o s
  | ShDtor t | ShReset t | ShResetPtr t _ _ => live_sh t s
  | WkDefault d => fresh_wk (User d) s
  | WkCopy d src =>
      fresh_wk (User d) s &&
      match wk_block src s with Some o => room_weak o s | None => false end
  | WkMove d src => fresh_wk (User d) s && live_wk src s
  | WkDemote d src =>
      fresh_wk (User d) s &&
      match sh_block src s with Some o => room_weak o s | None => false end
  | WkAssign t o =>
      match wk_block t s, wk_block o s with
      | Some _, Some bo => bool_decide (t = o) || room_weak bo s
      | _, _ => false
      end
  | WkMoveAssign t o | WkSwap t o => live_wk2 t o s
  | WkDtor t => live_wk (User t) s
  | WkReset t => live_wk t s
  | WkLock d w =>
      fresh_sh d s &&
      match wk_block w s with
      | Some (Some b) => strong_of s b <? INT_MAX
      | Some None => true
      | None => false
      end
  | ObjSharedFromThis d b => fresh_sh d s && can_promote (WeakThis b) s
  | ObjWeakFromThis d b =>
      fresh_wk (User d) s &&
      match wk_block (WeakThis b) s with Some o => room_weak o s | None => false end
  end.

(** ** Frames

    The operations on weak handles, and what they leave alone: the strong
    handles, the allocation of blocks, the payloads and the strong
    counters. *)
Definition weak_op (o : op) : bool :=
  match o with
  | WkDefault _ | WkCopy _ _ | WkMove _ _ | WkDemote _ _ | WkAssign _ _
  | WkMoveAssign _ _ | WkDtor _ | WkReset _ | WkSwap _ _
  | ObjWeakFromThis _ _ => true
  | _ => false
  end.

Definition strong_frame (s s' : State) : Prop :=
  shared s' = shared s ∧ next s' = next s ∧
  ∀ b, deleted s' b = deleted s b ∧ strong_of s' b = strong_of s b.

Definition frames {A} (c : M A) : Prop :=
  ∀ s, match c s with
       | Ok _ s' | Throw s' => strong_frame s s'
       | UB => True
       end.

(** A computation that never throws [BadWeakPtr]. *)
Definition nothrow {A} (c : M A) : Prop := ∀ s s', c s ≠ Throw s'.

(** ** Counting lemmas *)

Section Refs.
Context `{Countable K}.
Implicit Types (m : gmap K Handle) (h : Handle) (b : nat).

Lemma refs_empty b : refs b (∅ : gmap K Handle) = 0.
Proof. unfold refs. by rewrite map_filter_empty, map_size_empty. Qed.

Lemma refs_nonneg b m : 0 ≤ refs b m.
Proof. unfold refs. lia. Qed.

Lemma refs_delete b m i : refs b (delete i m) = refs b m - hpoints (m !! i) b.
Proof.
  unfold refs, hpoints, points. rewrite map_filter_delete, map_size_delete.
  destruct (m !! i) as [h|] eqn:Hi.
  - case_decide as Hb.
    + erewrite (map_lookup_filter_Some_2 _ m i h); [|done..].
      assert (size (filter (λ kv : K * Handle, block_ kv.2 = Some b) m) ≠ 0%nat).
      { intros Hz. apply map_size_empty_inv in Hz.
        assert (Hl : filter (λ kv : K * Handle, block_ kv.2 = Some b) m !! i = Some h)
          by (by apply map_lookup_filter_Some_2).
        rewrite Hz in Hl. by rewrite lookup_empty in Hl. }
      lia.
    + destruct (filter _ m !! i) as [h'|] eqn:Hf; [|simpl; lia].
      apply map_lookup_filter_Some in Hf as [Hm HP]. simpl in HP. congruence.
  - destruct (filter _ m !! i) as [h'|] eqn:Hf; [|simpl; lia].
    apply map_lookup_filter_Some in Hf as [Hm HP]. congruence.
Qed.

Lemma refs_insert_fresh b m i h :
  m !! i = None → refs b (<[i := h]> m) = refs b m + points (block_ h) b.
Proof.
  intros Hi. unfold refs, points. rewrite map_filter_insert. simpl.
  case_decide as Hb.
  - rewrite map_size_insert_None; [lia|].
    apply map_lookup_filter_None. by left.
  - rewrite delete_id by done. lia.
Qed.

Lemma refs_insert b m i h :
  refs b (<[i := h]> m) = refs b m - hpoints (m !! i) b + points (block_ h) b.
Proof.
  rewrite <-insert_delete_eq, refs_insert_fresh by apply lookup_delete_eq.
  by rewrite refs_delete.
Qed.

Lemma refs_ge_1 b m i h : m !! i = Some h → block_ h = Some b → 1 ≤ refs b m.
Proof.
  intros Hi Hb. pose proof (refs_delete b m i) as Hd.
  pose proof (refs_nonneg b (delete i m)).
  rewrite Hi in Hd. simpl in Hd. unfold points in Hd.
  rewrite decide_True in Hd by done. lia.
Qed.

Lemma refs_ge_2 b m i j h h' :
  i ≠ j → m !! i = Some h → block_ h = Some b →
  m !! j = Some h' → block_ h' = Some b → 2 ≤ refs b m.
Proof.
  intros Hne Hi Hb Hj Hb'. pose proof (refs_delete b m i) as Hd.
  assert (1 ≤ refs b (delete i m)).
  { apply (refs_ge_1 b _ j h'); [by rewrite lookup_delete_ne|done]. }
  rewrite Hi in Hd. simpl in Hd. unfold points in Hd.
  rewrite decide_True in Hd by done. lia.
Qed.

Lemma refs_pos_inv b m : 0 < refs b m → ∃ i h, m !! i = Some h ∧ block_ h = Some b.
Proof.
  unfold refs. intros Hpos.
  destruct (map_choose (filter (λ kv : K * Handle, block_ kv.2 = Some b) m))
    as (i & h & Hl).
  { intros Hz. rewrite Hz, map_size_empty in Hpos. lia. }
  apply map_lookup_filter_Some in Hl as [Hm HP]. eauto.
Qed.
End Refs.

Lemma occ_nil e : occ e [] = 0.
Proof. done. Qed.

Lemma occ_snoc e l x : occ e (l ++ [x]) = occ e l + (if decide (x = e) then 1 else 0).
Proof.
  unfold occ. rewrite filter_app, length_app. simpl.
  rewrite filter_cons, filter_nil. case_decide; simpl; lia.
Qed.

Lemma occ_nonneg e l : 0 ≤ occ e l.
Proof. unfold occ. lia. Qed.

(** Unfolding of the observations, and of the monadic code. *)
Ltac obs :=
  unfold strong_of, weak_of, cap_of, freed, deleted, hpoints,
    set_heap, set_shared, set_weak, emit, with_strong, with_weak in *;
  simpl in *; unfold points in *;
  rewrite ?lookup_insert, ?lookup_delete, ?occ_snoc, ?is_Some_alt in *.

Ltac split_obs :=
  repeat (case_decide || case_match); simplify_eq/=; try done; try lia;
  try solve [intuition (simplify_eq/=; try done; try lia; try congruence)].

Ltac munfold :=
  repeat progress (unfold
    GetStrongCounter, GetWeakCounter, IncrementStrongCounter,
    DecrementStrongCounter, IncrementWeakCounter, DecrementWeakCounter,
    delete_block, put_block, get_block,
    wk_get, wk_new, wk_del, wk_set_ptr, wk_set_block,
    sh_get, sh_new, sh_del, sh_set_ptr, sh_set_block,
    throw, undefined, modify, mbind, M_bind, mret, M_ret in * ).

Ltac msimpl :=
  cbn [heap shared weak trace next set_heap set_shared set_weak emit
       strong_counter weak_counter shares_this with_strong with_weak
       ptr_ block_].

Ltac mrun :=
  repeat (msimpl;
    match goal with
    | H : ?x = _ |- context [match ?x with _ => _ end] => rewrite H
    | H : ?x = _ |- context [if ?x then _ else _] => rewrite H
    | |- context [<[?i:=_]> _ !! ?i] => rewrite lookup_insert_eq
    | |- context [delete ?i _ !! ?i] => rewrite lookup_delete_eq
    | |- context [<[?i:=_]> _ !! ?j] => rewrite (lookup_insert_ne _ i j) by done
    | |- context [delete ?i _ !! ?j] => rewrite (lookup_delete_ne _ i j) by done
    end); msimpl.

Ltac feed :=
  repeat match goal with
  | H : ?P → _ |- _ =>
      let HP := fresh in
      assert P as HP by (first [lia | done | congruence]);
      specialize (H HP); clear HP
  end.

Ltac prefix_tac :=
  simpl;
  try match goal with H : _ `prefix_of` _ |- _ => simpl in H end;
  repeat apply prefix_app_r;
  first
    [ done
    | match goal with
      | H : ?l ++ _ `prefix_of` ?k |- ?l `prefix_of` ?k =>
          etrans; [|exact H]; by apply prefix_app_r
      end ].

Lemma strong_of_live s b :
  0 < strong_of s b → ∃ blk, heap s !! b = Some blk ∧ strong_counter blk = strong_of s b.
Proof. unfold strong_of. destruct (heap s !! b); [eauto|lia]. Qed.

Lemma weak_of_live s b :
  0 < weak_of s b → ∃ blk, heap s !! b = Some blk ∧ weak_counter blk = weak_of s b.
Proof. unfold weak_of. destruct (heap s !! b); [eauto|lia]. Qed.

(** The invariant reads the stores of handles only through [refs] and,
    for the weak store, through the presence of [weak_this] members. *)
Lemma ginv_shared_store ps ps' pw ex s f :
  GInv ps pw ex s →
  (∀ b, refs b (f (shared s)) - points ps' b = refs b (shared s) - points ps b) →
  GInv ps' pw ex (set_shared f s).
Proof.
  intros HI Hr. constructor; try apply HI.
  intros b. pose proof (g_strong _ _ _ _ HI b). specialize (Hr b).
  unfold strong_of in *. simpl in *. lia.
Qed.

Lemma ginv_weak_store ps pw pw' ex s f :
  GInv ps pw ex s →
  (∀ b, refs b (f (weak s)) - points pw' b = refs b (weak s) - points pw b) →
  (∀ b, ex ≠ Some b → is_Some (f (weak s) !! WeakThis b) ↔ is_Some (weak s !! WeakThis b)) →
  f (weak s) !! Temp = None →
  GInv ps pw' ex (set_weak f s).
Proof.
  intros HI Hr Ht HT. constructor; try apply HI; try done.
  - intros b. pose proof (g_weak _ _ _ _ HI b). specialize (Hr b).
    unfold weak_of in *. simpl in *. lia.
  - intros b Hex. simpl. rewrite (Ht b Hex). apply (g_this _ _ _ _ HI b Hex).
Qed.

Lemma live_below_next ps pw ex s b blk :
  GInv ps pw ex s → heap s !! b = Some blk → (b < next s)%nat.
Proof.
  intros HI Hb. destruct (decide (b < next s)%nat) as [|Hn]; [done|].
  destruct (g_fresh _ _ _ _ HI b) as [Hf _]; [lia|congruence].
Qed.

(** ** The two release paths *)

Lemma weak_release ps ex s w h :
  GInv ps None ex s → weak s !! w = Some h →
  ∃ s1, WeakPtr.DecrementBlockWeakCounter w s = Ok () s1 ∧
    shared s1 = shared s ∧ weak s1 = weak s ∧ next s1 = next s ∧
    trace s `prefix_of` trace s1 ∧
    GInv ps (block_ h) ex s1 ∧
    (∀ x, deleted s1 x = deleted s x) ∧
    (∀ x, strong_of s1 x = strong_of s x) ∧
    (∀ x, block_ h ≠ Some x → heap s1 !! x = heap s !! x) ∧
    (∀ x, freed s x ≤ freed s1 x).
Proof.
  intros HI Hw. unfold WeakPtr.DecrementBlockWeakCounter. munfold.
  rewrite Hw. destruct (block_ h) as [b|] eqn:Hb.
  2:{ exists s. do 6 (split; [done|]). repeat split; intros; (done || lia). }
  pose proof (g_weak _ _ _ _ HI b) as Hcw.
  pose proof (refs_ge_1 b _ _ _ Hw Hb) as Hge.
  unfold points in Hcw. rewrite decide_False in Hcw by done.
  destruct (weak_of_live s b) as (blk & Hblk & Hwc); [lia|].
  pose proof (g_range _ _ _ _ HI b blk Hblk) as Hr.
  mrun.
  destruct ((strong_counter blk =? 0) && (weak_counter blk <=? 1)) eqn:Hc.
  - apply andb_true_iff in Hc as [Hs0 Hw1].
    apply Z.eqb_eq in Hs0. apply Z.leb_le in Hw1.
    mrun. eexists. split; [done|]. do 3 (split; [done|]). split; [prefix_tac|].
    split; [constructor|].
    + intros x. pose proof (g_strong _ _ _ _ HI x). obs. split_obs.
    + intros x. pose proof (g_weak _ _ _ _ HI x). obs. split_obs.
    + intros x blk'. pose proof (g_range _ _ _ _ HI x blk'). obs. split_obs.
    + intros x Hx. pose proof (g_freed _ _ _ _ HI x Hx). obs. split_obs.
    + intros x Hx. pose proof (g_fresh _ _ _ _ HI x Hx). obs. split_obs.
    + intros x Hx Hex. pose proof (g_deleted _ _ _ _ HI x Hx Hex). obs. split_obs.
    + intros x Hex. pose proof (g_this _ _ _ _ HI x Hex). obs. split_obs.
    + apply HI.
    + repeat split; intros x; intros; obs; split_obs.
  - assert ((weak_counter blk =? INT_MIN) = false) as Hmin by (unfold INT_MIN; lia).
    mrun. eexists. split; [done|]. do 3 (split; [done|]). split; [prefix_tac|].
    apply andb_false_iff in Hc. rewrite Z.eqb_neq, Z.leb_gt in Hc.
    split; [constructor|].
    + intros x. pose proof (g_strong _ _ _ _ HI x). obs. split_obs.
    + intros x. pose proof (g_weak _ _ _ _ HI x). obs. split_obs.
    + intros x blk'. pose proof (g_range _ _ _ _ HI x blk'). obs. split_obs.
    + intros x Hx. pose proof (g_freed _ _ _ _ HI x Hx). obs. split_obs.
    + intros x Hx. pose proof (g_fresh _ _ _ _ HI x Hx). obs. split_obs.
    + intros x Hx Hex. pose proof (g_deleted _ _ _ _ HI x Hx Hex). obs. split_obs.
    + intros x Hex. pose proof (g_this _ _ _ _ HI x Hex). obs. split_obs.
    + apply HI.
    + repeat split; intros x; intros; obs; split_obs.
Qed.

Lemma weak_dtor ps ex s w hw :
  GInv ps None ex s → weak s !! w = Some hw →
  (∀ b, w = WeakThis b → ex = Some b) →
  ∃ s2, WeakPtr.dtor w s = Ok () s2 ∧
    shared s2 = shared s ∧ weak s2 = delete w (weak s) ∧ next s2 = next s ∧
    trace s `prefix_of` trace s2 ∧
    GInv ps None ex s2 ∧
    (∀ x, deleted s2 x = deleted s x) ∧
    (∀ x, strong_of s2 x = strong_of s x) ∧
    (∀ x, block_ hw ≠ Some x → heap s2 !! x = heap s !! x) ∧
    (∀ x, freed s x ≤ freed s2 x).
Proof.
  intros HI Hw Hex.
  destruct (weak_release _ _ _ _ _ HI Hw)
    as (s1 & Hrun & Hsh & Hwk & Hnx & Hpre & HI1 & Hd & Hs & Hf & Hfr).
  unfold WeakPtr.dtor. munfold. rewrite Hrun. simpl. rewrite Hwk, Hw. simpl.
  eexists. split; [done|]. split; [done|]. split; [by simpl; rewrite Hwk|].
  split; [done|]. split; [done|]. split; [|done].
  eapply ginv_weak_store; [exact HI1|..].
  - intros b. rewrite refs_delete, Hwk, Hw. obs. split_obs.
  - intros b Hb. rewrite lookup_delete_ne; [done|]. intros ->. by apply Hb, Hex.
  - rewrite Hwk. rewrite lookup_delete. case_decide; [done|]. rewrite <-Hwk. apply HI1.
Qed.

Lemma ginv_emit_delete ps pw s b blk :
  GInv ps pw None s → heap s !! b = Some blk →
  GInv ps pw (Some b) (emit (EvDeletePointer b) s).
Proof.
  intros HI Hb. pose proof (live_below_next _ _ _ _ _ _ HI Hb) as Hlt.
  constructor; try apply HI.
  - intros x Hx. pose proof (g_freed _ _ _ _ HI x Hx). obs. split_obs.
  - intros x Hx. pose proof (g_fresh _ _ _ _ HI x Hx). obs. split_obs.
  - intros x Hx Hex. pose proof (g_deleted _ _ _ _ HI x Hx). obs. split_obs.
  - intros x Hex. by apply (g_this _ _ _ _ HI x).
Qed.

Ltac ginv_fields HI :=
  constructor;
  [ intros x; pose proof (g_strong _ _ _ _ HI x)
  | intros x; pose proof (g_weak _ _ _ _ HI x)
  | intros x blk'; pose proof (g_range _ _ _ _ HI x blk')
  | intros x Hx; pose proof (g_freed _ _ _ _ HI x)
  | intros x Hx; pose proof (g_fresh _ _ _ _ HI x)
  | intros x Hx Hex; pose proof (g_deleted _ _ _ _ HI x)
  | intros x Hex; pose proof (g_this _ _ _ _ HI x)
  | pose proof (g_temp _ _ _ _ HI) ].

Ltac ginv_fields_at HI b :=
  constructor;
  [ intros x; pose proof (g_strong _ _ _ _ HI x)
  | intros x; pose proof (g_weak _ _ _ _ HI x)
  | intros x blk'; pose proof (g_range _ _ _ _ HI x blk')
  | intros x Hx; pose proof (g_freed _ _ _ _ HI x)
  | intros x Hx; pose proof (g_fresh _ _ _ _ HI x)
  | intros x Hx Hex; pose proof (g_deleted _ _ _ _ HI x);
    destruct (decide (x = b)) as [->|]
  | intros x Hex; pose proof (g_this _ _ _ _ HI x);
    destruct (decide (x = b)) as [->|]
  | pose proof (g_temp _ _ _ _ HI) ].

Lemma strong_release s t h :
  Inv s → shared s !! t = Some h →
  ∃ s1, SharedPtr.DecrementBlockStrongCounter t s = Ok () s1 ∧
    shared s1 = shared s ∧ next s1 = next s ∧
    trace s `prefix_of` trace s1 ∧
    GInv (block_ h) None None s1 ∧
    (∀ n, weak s1 !! User n = weak s !! User n).
Proof.
  intros HI Ht. unfold SharedPtr.DecrementBlockStrongCounter, DeletePointer. munfold.
  rewrite Ht. destruct (block_ h) as [b|] eqn:Hb.
  2:{ exists s. do 4 (split; [done|]). by split. }
  pose proof (g_strong _ _ _ _ HI b) as Hcs.
  pose proof (g_weak _ _ _ _ HI b) as Hcw.
  pose proof (refs_ge_1 b _ _ _ Ht Hb) as Hge.
  pose proof (refs_nonneg b (weak s)) as Hgw.
  unfold points in Hcs, Hcw. rewrite decide_False in Hcs, Hcw by done.
  destruct (strong_of_live s b) as (blk & Hblk & Hsc); [lia|].
  pose proof (g_range _ _ _ _ HI b blk Hblk) as Hr.
  pose proof (live_below_next _ _ _ _ _ _ HI Hblk) as Hlt.
  pose proof (ginv_emit_delete _ _ _ _ _ HI Hblk) as HIA.
  pose proof (g_this _ _ _ _ HI b ltac:(done)) as Hthis.
  pose proof (g_deleted _ _ _ _ HI b Hlt ltac:(done)) as Hdel.
  rewrite <-Hsc in Hdel. replace (0 <? strong_counter blk) with true in Hdel by lia.
  assert (Hwof : weak_of s b = weak_counter blk) by (unfold weak_of; by rewrite Hblk).
  mrun.
  destruct ((strong_counter blk =? 1) && (weak_counter blk =? 0)) eqn:Hc.
  - apply andb_true_iff in Hc as [Hs1 Hw0].
    apply Z.eqb_eq in Hs1. apply Z.eqb_eq in Hw0.
    destruct (shares_this blk) eqn:Hcap.
    + destruct (proj2 Hthis) as [hw Hhw].
      { unfold cap_of. rewrite Hblk. split; [done|lia]. }
      destruct (weak_dtor _ _ (emit (EvDeletePointer b) s) _ hw HIA Hhw)
        as (s2 & Hrun & Hsh & Hwk & Hnx & Hpre & HI2 & Hd & Hs & Hf & Hfr).
      { intros ? [= ->]. done. }
      assert (block_ hw ≠ Some b) as Hne.
      { intros Hhb. pose proof (refs_ge_1 b _ _ _ Hhw Hhb). lia. }
      pose proof (Hf b Hne) as Hb2. simpl in Hb2. rewrite Hblk in Hb2.
      mrun.
      assert (deleted s2 b = 1) as Hdb.
      { rewrite Hd. unfold deleted in *. simpl. rewrite occ_snoc, decide_True by done.
        lia. }
      assert (weak s2 !! WeakThis b = None) as Hwb
        by (rewrite Hwk; apply lookup_delete_eq).
      eexists. split; [done|]. split; [done|]. split; [done|].
      split; [prefix_tac|]. split.
      * clear Hpre. ginv_fields HI2; obs; split_obs.
      * intros n. simpl. rewrite Hwk. by rewrite lookup_delete_ne.
    + mrun. eexists. split; [done|]. split; [done|]. split; [done|].
      split; [prefix_tac|]. split.
      * ginv_fields HIA; obs; split_obs.
      * done.
  - assert ((strong_counter blk =? INT_MIN) = false) as Hmin by (unfold INT_MIN; lia).
    apply andb_false_iff in Hc. rewrite !Z.eqb_neq in Hc.
    mrun.
    destruct (strong_counter blk - 1 <=? 0) eqn:Hle.
    + apply Z.leb_le in Hle. mrun.
      assert (GInv (Some b) None (Some b)
        (emit (EvDeletePointer b)
           (set_heap <[b := with_strong (strong_counter blk - 1) blk]> s))) as HIC.
      { ginv_fields HI; obs; split_obs. }
      destruct (shares_this blk) eqn:Hcap.
      * destruct (proj2 Hthis) as [hw Hhw].
        { unfold cap_of. rewrite Hblk. split; [done|lia]. }
        destruct (weak_dtor _ _ _ _ hw HIC Hhw)
          as (s2 & Hrun & Hsh & Hwk & Hnx & Hpre & HI2 & Hd & Hs & Hf & Hfr).
        { intros ? [= ->]. done. }
        mrun.
        assert (deleted s2 b = 1) as Hdb.
        { rewrite Hd. unfold deleted in *. simpl. rewrite occ_snoc, decide_True by done.
          lia. }
        assert (weak s2 !! WeakThis b = None) as Hwb
          by (rewrite Hwk; apply lookup_delete_eq).
        pose proof (Hs b) as Hsb.
        eexists. split; [done|]. split; [done|]. split; [done|].
        split; [prefix_tac|]. split.
        -- clear Hpre. ginv_fields_at HI2 b; obs; split_obs.
        -- intros n. rewrite Hwk. simpl. by rewrite lookup_delete_ne.
      * eexists. split; [done|]. split; [done|]. split; [done|].
        split; [prefix_tac|]. split; [|done].
        ginv_fields HI; obs; split_obs.
    + apply Z.leb_gt in Hle.
      eexists. split; [done|]. split; [done|]. split; [done|].
      split; [prefix_tac|]. split; [|done].
      ginv_fields HI; obs; split_obs.
Qed.

(** ** The two acquire paths *)

Lemma strong_acquire pw ex s b blk :
  GInv (Some b) pw ex s → heap s !! b = Some blk →
  1 ≤ strong_counter blk → strong_counter blk < INT_MAX →
  GInv None pw ex (set_heap <[b := with_strong (strong_counter blk + 1) blk]> s).
Proof.
  intros HI Hb Hge Hlt. pose proof (g_range _ _ _ _ HI b blk Hb) as Hr.
  ginv_fields_at HI b; obs; split_obs.
Qed.

Lemma weak_acquire ps ex s b blk :
  GInv ps (Some b) ex s → heap s !! b = Some blk →
  weak_counter blk < INT_MAX →
  GInv ps None ex (set_heap <[b := with_weak (weak_counter blk + 1) blk]> s).
Proof.
  intros HI Hb Hlt. pose proof (g_range _ _ _ _ HI b blk Hb) as Hr.
  ginv_fields_at HI b; obs; split_obs.
Qed.

(** ** Every operation keeps the invariant *)

Lemma good_intro s s' :
  Inv s' → (∀ b, refs b (shared s) - 1 ≤ refs b (shared s')) →
  (next s ≤ next s')%nat → trace s `prefix_of` trace s' → good s s'.
Proof. intros. unfold good. split; [done|]. split; [done|]. by split. Qed.

Lemma good_refl s : Inv s → good s s.
Proof. intros. apply good_intro; [done|intros; lia|lia|done]. Qed.

Lemma default_good d s :
  Inv s → outcome (SharedPtr.default d) s (fresh_sh d s).
Proof.
  intros HI. unfold outcome, SharedPtr.default, fresh_sh. munfold.
  destruct (shared s !! d) eqn:Hd; [done|].
  apply good_intro; [| |done|prefix_tac].
  - eapply ginv_shared_store; [exact HI|]. intros b.
    rewrite refs_insert_fresh by done. obs. split_obs.
  - intros b. simpl. rewrite refs_insert_fresh by done. obs. split_obs.
Qed.

Lemma copy_like_good d src q s :
  Inv s →
  outcome (o ← sh_get src;
           sh_new d {| ptr_ := q o; block_ := block_ o |};;
           SharedPtr.IncrementBlockStrongCounter d) s
    (fresh_sh d s &&
     match sh_block src s with Some o => room_strong o s | None => false end).
Proof.
  intros HI.
  unfold outcome, SharedPtr.IncrementBlockStrongCounter, fresh_sh, sh_block.
  munfold.
  destruct (shared s !! src) as [o|] eqn:Ho; mrun; [|by rewrite andb_false_r].
  destruct (shared s !! d) eqn:Hd; mrun; [done|].
  assert (d ≠ src) as Hne by congruence.
  destruct (block_ o) as [b|] eqn:Hb; mrun.
  - pose proof (g_strong _ _ _ _ HI b) as Hcs.
    pose proof (refs_ge_1 b _ _ _ Ho Hb) as Hge.
    unfold points in Hcs. rewrite decide_False in Hcs by done.
    destruct (strong_of_live s b) as (blk & Hblk & Hsc); [lia|].
    pose proof (g_range _ _ _ _ HI b blk Hblk) as Hr.
    mrun. destruct (strong_counter blk =? INT_MAX) eqn:Hmax; mrun.
    { simpl. rewrite Hb. unfold room_strong. rewrite <-Hsc. lia. }
    apply good_intro; [| |done|prefix_tac].
    + apply (strong_acquire None None
        (set_shared <[d := {| ptr_ := q o; block_ := Some b |}]> s) b blk); [|done|lia..].
      eapply ginv_shared_store; [exact HI|]. intros x.
      rewrite refs_insert_fresh by done. obs. split_obs.
    + intros x. simpl. rewrite refs_insert_fresh by done. obs. split_obs.
  - apply good_intro; [| |done|prefix_tac].
    + eapply ginv_shared_store; [exact HI|]. intros x.
      rewrite refs_insert_fresh by done. obs. split_obs.
    + intros x. simpl. rewrite refs_insert_fresh by done. obs. split_obs.
Qed.

Lemma set_shared_compose f g s :
  set_shared g (set_shared f s) = set_shared (λ m, g (f m)) s.
Proof. done. Qed.

Lemma set_weak_compose f g s :
  set_weak g (set_weak f s) = set_weak (λ m, g (f m)) s.
Proof. done. Qed.

Ltac refs_tac :=
  intros; simpl; repeat (rewrite refs_insert || rewrite refs_delete);
  repeat first
    [ rewrite lookup_insert_eq
    | rewrite lookup_delete_eq
    | rewrite lookup_insert_ne by done
    | rewrite lookup_delete_ne by done ];
  obs; split_obs.

(** A change of the strong store alone, after the release of [ps]. *)
Lemma good_shared ps s s1 f :
  GInv ps None None s1 → shared s1 = shared s → (next s ≤ next s1)%nat →
  trace s `prefix_of` trace s1 →
  (∀ b, refs b (f (shared s)) = refs b (shared s) - points ps b) →
  good s (set_shared f s1).
Proof.
  intros HI1 Hsh Hnx Hpre Hr. apply good_intro; [| |done|done].
  - eapply ginv_shared_store; [exact HI1|]. intros b. rewrite Hsh, Hr.
    unfold points. split_obs.
  - intros b. simpl. rewrite Hsh, Hr. unfold points. split_obs.
Qed.

Lemma move_good d src s :
  Inv s →
  outcome (SharedPtr.move d src) s
    (fresh_sh d s && match sh_block src s with Some _ => true | None => false end).
Proof.
  intros HI. unfold outcome, SharedPtr.move, fresh_sh, sh_block. munfold.
  destruct (shared s !! src) as [o|] eqn:Ho; mrun; [|by rewrite andb_false_r].
  destruct (shared s !! d) eqn:Hd; mrun; [done|].
  assert (d ≠ src) as Hne by congruence. mrun.
  rewrite !set_shared_compose. eapply good_shared; [exact HI|done|lia|prefix_tac|].
  refs_tac.
Qed.

Lemma dtor_good t s :
  Inv s →
  outcome (SharedPtr.dtor t) s
    (match sh_block t s with Some _ => true | None => false end).
Proof.
  intros HI. unfold outcome, SharedPtr.dtor, sh_block.
  destruct (shared s !! t) as [h|] eqn:Ht.
  2:{ unfold SharedPtr.DecrementBlockStrongCounter. munfold. by rewrite Ht. }
  destruct (strong_release _ _ _ HI Ht) as (s1 & Hrun & Hsh & Hnx & Hpre & HI1 & _).
  munfold. rewrite Hrun. rewrite Hsh, Ht.
  eapply good_shared; [exact HI1|done|lia|prefix_tac|]. refs_tac.
Qed.

Lemma Reset_good t s :
  Inv s →
  outcome (SharedPtr.Reset t) s
    (match sh_block t s with Some _ => true | None => false end).
Proof.
  intros HI. unfold outcome, SharedPtr.Reset, sh_block.
  destruct (shared s !! t) as [h|] eqn:Ht.
  2:{ unfold SharedPtr.DecrementBlockStrongCounter. munfold. by rewrite Ht. }
  destruct (strong_release _ _ _ HI Ht) as (s1 & Hrun & Hsh & Hnx & Hpre & HI1 & _).
  munfold. rewrite Hrun. rewrite Hsh, Ht. mrun.
  rewrite !set_shared_compose. eapply good_shared; [exact HI1|done|lia|prefix_tac|]. refs_tac.
Qed.

Lemma promote_good d w s :
  Inv s →
  outcome (SharedPtr.promote d w) s
    (fresh_sh d s &&
     match wk_block w s with
     | Some (Some b) => strong_of s b <? INT_MAX
     | _ => false
     end).
Proof.
  intros HI. unfold outcome, SharedPtr.promote, fresh_sh, wk_block. munfold.
  destruct (weak s !! w) as [o|] eqn:Ho; mrun; [|by rewrite andb_false_r].
  simpl. destruct (block_ o) as [b|] eqn:Hb; mrun; [|by rewrite andb_false_r].
  pose proof (g_weak _ _ _ _ HI b) as Hcw.
  pose proof (refs_ge_1 b _ _ _ Ho Hb) as Hge.
  unfold points in Hcw. rewrite decide_False in Hcw by done.
  destruct (weak_of_live s b) as (blk & Hblk & Hwc); [lia|].
  pose proof (g_range _ _ _ _ HI b blk Hblk) as Hr.
  assert (strong_of s b = strong_counter blk) as Hso by (unfold strong_of; by rewrite Hblk).
  rewrite Hso. mrun.
  destruct (strong_counter blk =? 0) eqn:Hz; mrun; [done|].
  apply Z.eqb_neq in Hz.
  destruct (shared s !! d) eqn:Hd; mrun; [done|].
  destruct (strong_counter blk =? INT_MAX) eqn:Hmax; mrun; [lia|].
  apply good_intro; [| |done|prefix_tac].
  - apply (strong_acquire None None
      (set_shared <[d := {| ptr_ := ptr_ o; block_ := Some b |}]> s) b blk); [|done|lia..].
    eapply ginv_shared_store; [exact HI|]. refs_tac.
  - refs_tac.
Qed.

Lemma assign_good t o s :
  Inv s →
  outcome (on_shared t (SharedPtr.assign t o)) s
    (match sh_block t s, sh_block o s with
     | Some _, Some bo => bool_decide (t = o) || room_strong bo s
     | _, _ => false
     end).
Proof.
  intros HI. unfold outcome, on_shared, SharedPtr.assign, sh_block.
  destruct (shared s !! t) as [h|] eqn:Ht.
  2:{ munfold. by rewrite Ht. }
  munfold. rewrite Ht. simpl.
  destruct (decide (t = o)) as [->|Hne]; [by apply good_refl|].
  destruct (strong_release _ _ _ HI Ht) as (s1 & Hrun & Hsh & Hnx & Hpre & HI1 & _).
  rewrite Hrun.
  assert (shared s1 !! t = Some h) as Ht1 by (by rewrite Hsh).
  rewrite bool_decide_false by done. simpl.
  destruct (shared s !! o) as [ho|] eqn:Ho.
  2:{ assert (shared s1 !! o = None) as Ho1 by (by rewrite Hsh). by mrun. }
  assert (shared s1 !! o = Some ho) as Ho1 by (by rewrite Hsh).
  unfold SharedPtr.IncrementBlockStrongCounter. munfold. mrun.
  destruct (block_ ho) as [b|] eqn:Hb; mrun.
  - pose proof (g_strong _ _ _ _ HI1 b) as Hcs. rewrite Hsh in Hcs.
    pose proof (g_strong _ _ _ _ HI b) as Hcs0.
    assert (1 ≤ strong_of s1 b) as Hge.
    { unfold points in Hcs. case_decide as Hhb.
      - pose proof (refs_ge_2 b _ t o h ho Hne Ht Hhb Ho Hb). lia.
      - pose proof (refs_ge_1 b _ _ _ Ho Hb). lia. }
    destruct (strong_of_live s1 b) as (blk & Hblk & Hsc); [lia|].
    pose proof (g_range _ _ _ _ HI1 b blk Hblk) as Hr.
    mrun.
    destruct (strong_counter blk =? INT_MAX) eqn:Hmax; mrun.
    { unfold room_strong. obs. split_obs. }
    apply good_intro; [| |simpl; lia|prefix_tac].
    + eapply (ginv_shared_store None); [|refs_tac].
      apply (strong_acquire None None
        (set_shared <[t := {| ptr_ := ptr_ h; block_ := Some b |}]> s1) b blk); [|done|lia..].
      eapply ginv_shared_store; [exact HI1|]. rewrite Hsh. refs_tac.
    + simpl. rewrite Hsh. refs_tac.
  - rewrite !set_shared_compose.
    eapply good_shared; [exact HI1|done|lia|prefix_tac|]. refs_tac.
Qed.

Lemma move_assign_good t o s :
  Inv s →
  outcome (on_shared t (SharedPtr.move_assign t o)) s
    (match sh_block t s, sh_block o s with
     | Some _, Some _ => true
     | _, _ => false
     end).
Proof.
  intros HI. unfold outcome, on_shared, SharedPtr.move_assign, sh_block.
  destruct (shared s !! t) as [h|] eqn:Ht.
  2:{ munfold. by rewrite Ht. }
  munfold. rewrite Ht. simpl.
  destruct (decide (t = o)) as [->|Hne]; [by apply good_refl|].
  destruct (strong_release _ _ _ HI Ht) as (s1 & Hrun & Hsh & Hnx & Hpre & HI1 & _).
  rewrite Hrun.
  assert (shared s1 !! t = Some h) as Ht1 by (by rewrite Hsh).
  destruct (shared s !! o) as [ho|] eqn:Ho.
  2:{ assert (shared s1 !! o = None) as Ho1 by (by rewrite Hsh).
      unfold SharedPtr.swap_block. munfold. by mrun. }
  assert (shared s1 !! o = Some ho) as Ho1 by (by rewrite Hsh).
  unfold SharedPtr.swap_block, SharedPtr.swap_ptr. munfold. mrun.
  rewrite !set_shared_compose.
  eapply good_shared; [exact HI1|done|lia|prefix_tac|]. refs_tac.
Qed.

Lemma Swap_good t o s :
  Inv s →
  outcome (SharedPtr.Swap t o) s
    (match sh_block t s, sh_block o s with
     | Some _, Some _ => true
     | _, _ => false
     end).
Proof.
  intros HI.
  unfold outcome, SharedPtr.Swap, SharedPtr.swap_block, SharedPtr.swap_ptr, sh_block.
  munfold.
  destruct (shared s !! t) as [h|] eqn:Ht; mrun; [|done].
  destruct (shared s !! o) as [ho|] eqn:Ho; mrun; [|done].
  destruct (decide (t = o)) as [->|Hne]; mrun.
  - rewrite !set_shared_compose.
    eapply good_shared; [exact HI|done|lia|prefix_tac|]. refs_tac.
  - rewrite !set_shared_compose.
    eapply good_shared; [exact HI|done|lia|prefix_tac|]. refs_tac.
Qed.

(** A state that differs from [s] by one freshly allocated block. *)
Lemma ginv_fresh_block ps s s' blk :
  GInv ps None None s →
  heap s' = <[next s := blk]> (heap s) → next s' = S (next s) → trace s' = trace s →
  strong_counter blk = 1 → 0 ≤ weak_counter blk ≤ 1 →
  (∀ x, refs x (shared s') = refs x (shared s) - points ps x + points (Some (next s)) x) →
  (∀ x, refs x (weak s') =
        refs x (weak s) + (if decide (x = next s) then weak_counter blk else 0)) →
  (∀ x, is_Some (weak s' !! WeakThis x) ↔
        is_Some (weak s !! WeakThis x) ∨ (x = next s ∧ shares_this blk = true)) →
  weak s' !! Temp = None →
  Inv s'.
Proof.
  intros HI Hh Hn Ht Hs Hw Hrs Hrw Hth HT.
  pose proof (g_fresh _ _ _ _ HI (next s) ltac:(lia)) as (Hnone & Hfr & Hdl).
  assert (INT_MAX = 2147483647) as HM by done.
  constructor.
  - intros x. specialize (Hrs x). pose proof (g_strong _ _ _ _ HI x) as H.
    clear Hrw Hth. unfold strong_of, points in *. rewrite Hh, lookup_insert.
    split_obs.
  - intros x. specialize (Hrw x). pose proof (g_weak _ _ _ _ HI x) as H.
    clear Hrs Hth. unfold weak_of, points in *. rewrite Hh, lookup_insert.
    split_obs.
  - intros x blk'. pose proof (g_range _ _ _ _ HI x blk') as H.
    clear Hrs Hrw Hth. rewrite Hh, lookup_insert. split_obs.
  - intros x Hx. pose proof (g_freed _ _ _ _ HI x) as H.
    pose proof (g_fresh _ _ _ _ HI x) as H'.
    clear Hrs Hrw Hth. unfold freed in *. rewrite Hh, Ht, lookup_insert.
    rewrite Hn in Hx. split_obs; feed; split_obs.
  - intros x Hx. pose proof (g_fresh _ _ _ _ HI x) as H.
    clear Hrs Hrw Hth. unfold freed, deleted in *. rewrite Hh, Ht, lookup_insert.
    rewrite Hn in Hx. split_obs; feed; split_obs.
  - intros x Hx _. pose proof (g_deleted _ _ _ _ HI x) as H.
    pose proof (g_fresh _ _ _ _ HI x) as H'.
    clear Hrs Hrw Hth. unfold deleted, strong_of in *. rewrite Hh, Ht, lookup_insert.
    rewrite Hn in Hx. split_obs; feed; split_obs.
  - intros x _. specialize (Hth x). pose proof (g_this _ _ _ _ HI x ltac:(done)) as H.
    clear Hrs Hrw. unfold cap_of, strong_of in *. rewrite Hh, lookup_insert.
    rewrite Hth, H. split_obs.
  - done.
Qed.

Lemma fresh_weak_this ps pw s b :
  GInv ps pw None s → (next s ≤ b)%nat → weak s !! WeakThis b = None.
Proof.
  intros HI Hb. pose proof (g_this _ _ _ _ HI b ltac:(done)) as H.
  destruct (g_fresh _ _ _ _ HI b Hb) as (Hn & _).
  unfold cap_of in H. rewrite Hn in H.
  destruct (weak s !! WeakThis b) eqn:E; [|done].
  destruct (proj1 H) as [? _]; [by eexists|done].
Qed.

Lemma adopt_like_good k d p (cap : bool) s :
  Inv s →
  outcome (b ← new_block k p cap;
           sh_new d {| ptr_ := p; block_ := Some b |};;
           if cap then SharedPtr.install_weak_this b d else (mret () : M unit)) s
    (fresh_sh d s).
Proof.
  intros HI. unfold outcome, new_block, fresh_sh, SharedPtr.install_weak_this.
  pose proof (fresh_weak_this _ _ _ (next s) HI ltac:(lia)) as Hwt.
  pose proof (g_temp _ _ _ _ HI) as HT.
  destruct (shared s !! d) eqn:Hd.
  { destruct cap; munfold; by mrun. }
  destruct cap.
  - unfold WeakPtr.from_shared, WeakPtr.move_assign, WeakPtr.dtor,
      WeakPtr.IncrementBlockWeakCounter, WeakPtr.DecrementBlockWeakCounter,
      WeakPtr.swap_ptr, WeakPtr.swap_block.
    unfold empty_handle. munfold. mrun. change (0 =? INT_MAX) with false. mrun.
    apply good_intro; [| |simpl; lia|prefix_tac].
    + eapply (ginv_fresh_block None s); [exact HI|msimpl..].
      * rewrite insert_insert_eq. reflexivity.
      * reflexivity.
      * reflexivity.
      * done.
      * simpl. lia.
      * refs_tac.
      * intros x. repeat (rewrite refs_insert || rewrite refs_delete).
        repeat (rewrite lookup_insert || rewrite lookup_delete).
        repeat (rewrite decide_True by done || rewrite decide_False by done).
        rewrite Hwt, HT. unfold hpoints, points. simpl. split_obs.
      * intros x. rewrite !is_Some_alt.
        repeat (rewrite lookup_insert || rewrite lookup_delete).
        repeat (rewrite decide_True by done || rewrite decide_False by done).
        split_obs; tauto.
      * by rewrite lookup_delete_eq.
    + refs_tac.
  - munfold. mrun. apply good_intro; [| |simpl; lia|prefix_tac].
    + eapply (ginv_fresh_block None s); [exact HI|msimpl..].
      * reflexivity.
      * reflexivity.
      * reflexivity.
      * done.
      * simpl. lia.
      * refs_tac.
      * intros x. simpl. case_decide; lia.
      * intros x. simpl. split; [by left|]. by intros [?|[_ ?]].
      * done.
    + refs_tac.
Qed.

Lemma adopt_good d p (cap : bool) s :
  Inv s →
  outcome (SharedPtr.adopt d p cap) s
    (fresh_sh d s && negb (cap && (p =? nullptr))).
Proof.
  intros HI. unfold SharedPtr.adopt.
  destruct (cap && (p =? nullptr)) eqn:Hc.
  - unfold outcome, undefined. by rewrite andb_false_r.
  - rewrite andb_true_r. by apply adopt_like_good.
Qed.

Lemma Reset_ptr_good t p (cap : bool) s :
  Inv s →
  outcome (SharedPtr.Reset_ptr t p cap) s
    (match sh_block t s with Some _ => true | None => false end).
Proof.
  intros HI. unfold outcome, SharedPtr.Reset_ptr, sh_block, new_block.
  destruct (shared s !! t) as [h|] eqn:Ht.
  2:{ unfold SharedPtr.DecrementBlockStrongCounter. munfold. by rewrite Ht. }
  destruct (strong_release _ _ _ HI Ht) as (s1 & Hrun & Hsh & Hnx & Hpre & HI1 & _).
  assert (shared s1 !! t = Some h) as Ht1 by (by rewrite Hsh).
  pose proof (fresh_weak_this _ _ _ (next s1) HI1 ltac:(lia)) as Hwt.
  pose proof (g_temp _ _ _ _ HI1) as HT.
  unfold empty_handle. munfold. rewrite Hrun. mrun.
  destruct (cap && negb (p =? nullptr)) eqn:Hc; mrun.
  - apply good_intro; [| |simpl; lia|prefix_tac].
    + eapply (ginv_fresh_block (block_ h) s1); [exact HI1|msimpl..].
      * reflexivity.
      * reflexivity.
      * reflexivity.
      * done.
      * simpl. lia.
      * refs_tac.
      * intros x. rewrite refs_insert, Hwt. unfold hpoints, points. simpl. split_obs.
      * intros x. rewrite !is_Some_alt, lookup_insert. split_obs; tauto.
      * by rewrite lookup_insert_ne.
    + simpl. rewrite <-Hsh. refs_tac.
  - apply good_intro; [| |simpl; lia|prefix_tac].
    + eapply (ginv_fresh_block (block_ h) s1); [exact HI1|msimpl..].
      * reflexivity.
      * reflexivity.
      * reflexivity.
      * done.
      * simpl. lia.
      * refs_tac.
      * intros x. simpl. case_decide; lia.
      * intros x. simpl. split; [by left|]. by intros [?|[_ ?]].
      * done.
    + simpl. rewrite <-Hsh. refs_tac.
Qed.

(** A change of the weak store alone, after the release of [pw]. *)
Lemma good_weak pw s s1 f :
  GInv None pw None s1 → shared s1 = shared s → weak s1 = weak s →
  (next s ≤ next s1)%nat → trace s `prefix_of` trace s1 →
  (∀ b, refs b (f (weak s)) = refs b (weak s) - points pw b) →
  (∀ b, is_Some (f (weak s) !! WeakThis b) ↔ is_Some (weak s !! WeakThis b)) →
  f (weak s) !! Temp = None →
  good s (set_weak f s1).
Proof.
  intros HI1 Hsh Hwk Hnx Hpre Hr Ht HT. apply good_intro; [| |done|done].
  - eapply ginv_weak_store; [exact HI1|..]; rewrite ?Hwk; [|by intros|done].
    intros b. rewrite Hr. unfold points. split_obs.
  - intros b. simpl. rewrite Hsh. lia.
Qed.

Ltac look_tac :=
  intros; rewrite ?is_Some_alt;
  repeat (rewrite lookup_insert || rewrite lookup_delete);
  repeat (rewrite decide_True by done || rewrite decide_False by done);
  split_obs.

Lemma wk_default_good d s :
  Inv s → outcome (WeakPtr.default (User d)) s (fresh_wk (User d) s).
Proof.
  intros HI. unfold outcome, WeakPtr.default, fresh_wk, empty_handle. munfold.
  destruct (weak s !! User d) eqn:Hd; [done|].
  pose proof (g_temp _ _ _ _ HI).
  eapply good_weak; [exact HI|done|done|lia|prefix_tac| | |]; [refs_tac|look_tac|look_tac].
Qed.

Lemma wk_move_good d src s :
  Inv s →
  outcome (WeakPtr.move (User d) src) s
    (fresh_wk (User d) s && match wk_block src s with Some _ => true | None => false end).
Proof.
  intros HI. unfold outcome, WeakPtr.move, fresh_wk, wk_block. munfold.
  pose proof (g_temp _ _ _ _ HI) as HT.
  destruct (weak s !! src) as [o|] eqn:Ho; mrun; [|by rewrite andb_false_r].
  destruct (weak s !! User d) eqn:Hd; mrun; [done|].
  assert (User d ≠ src) as Hne by congruence. mrun.
  rewrite !set_weak_compose.
  eapply good_weak; [exact HI|done|done|lia|prefix_tac| | |]; [refs_tac| |look_tac].
  intros b. rewrite !is_Some_alt.
  repeat (rewrite lookup_insert || rewrite lookup_delete).
  destruct (decide (src = WeakThis b)) as [->|]; [by rewrite Ho|].
  by rewrite decide_False by done.
Qed.

Lemma live_of_weak_ref ps ex s w h b :
  GInv ps None ex s → weak s !! w = Some h → block_ h = Some b →
  is_Some (heap s !! b).
Proof.
  intros HI Hw Hb. pose proof (g_weak _ _ _ _ HI b) as Hcw.
  pose proof (refs_ge_1 b _ _ _ Hw Hb) as Hge.
  unfold points in Hcw. rewrite decide_False in Hcw by done.
  destruct (weak_of_live s b) as (blk & Hblk & _); [lia|eauto].
Qed.

Lemma live_of_strong_ref pw ex s t h b :
  GInv None pw ex s → shared s !! t = Some h → block_ h = Some b →
  is_Some (heap s !! b).
Proof.
  intros HI Hw Hb. pose proof (g_strong _ _ _ _ HI b) as Hcw.
  pose proof (refs_ge_1 b _ _ _ Hw Hb) as Hge.
  unfold points in Hcw. rewrite decide_False in Hcw by done.
  destruct (strong_of_live s b) as (blk & Hblk & _); [lia|eauto].
Qed.

Lemma wk_attach_good d hnew s :
  Inv s → (∀ b, block_ hnew = Some b → is_Some (heap s !! b)) →
  outcome (wk_new (User d) hnew;; WeakPtr.IncrementBlockWeakCounter (User d)) s
    (fresh_wk (User d) s && room_weak (block_ hnew) s).
Proof.
  intros HI Hlive. unfold outcome, WeakPtr.IncrementBlockWeakCounter, fresh_wk.
  munfold. pose proof (g_temp _ _ _ _ HI) as HT.
  destruct (weak s !! User d) eqn:Hd; mrun; [done|].
  destruct (block_ hnew) as [b|] eqn:Hb; mrun.
  - destruct (Hlive b eq_refl) as [blk Hblk].
    pose proof (g_range _ _ _ _ HI b blk Hblk) as Hr.
    mrun. unfold room_weak, weak_of. rewrite Hblk.
    destruct (weak_counter blk =? INT_MAX) eqn:Hmax; mrun; [lia|].
    apply good_intro; [| |done|prefix_tac].
    + apply (weak_acquire None None (set_weak <[User d := hnew]> s) b blk); [|done|lia].
      eapply ginv_weak_store; [exact HI|..]; [refs_tac|look_tac|look_tac].
    + intros x. simpl. lia.
  - eapply good_weak; [exact HI|done|done|lia|prefix_tac| | |]; [refs_tac|look_tac|look_tac].
Qed.

Lemma wk_copy_good d src s :
  Inv s →
  outcome (WeakPtr.copy (User d) src) s
    (fresh_wk (User d) s &&
     match wk_block src s with Some o => room_weak o s | None => false end).
Proof.
  intros HI. unfold WeakPtr.copy, wk_block.
  destruct (weak s !! src) as [o|] eqn:Ho.
  2:{ unfold outcome. munfold. rewrite Ho. by rewrite andb_false_r. }
  pose proof (wk_attach_good d {| ptr_ := ptr_ o; block_ := block_ o |} s HI) as H.
  unfold outcome in *. munfold. rewrite Ho. simpl in *. apply H.
  intros b Hb. by eapply live_of_weak_ref.
Qed.

Lemma wk_from_shared_good d src s :
  Inv s →
  outcome (WeakPtr.from_shared (User d) src) s
    (fresh_wk (User d) s &&
     match sh_block src s with Some o => room_weak o s | None => false end).
Proof.
  intros HI. unfold WeakPtr.from_shared, sh_block.
  destruct (shared s !! src) as [o|] eqn:Ho.
  2:{ unfold outcome. munfold. rewrite Ho. by rewrite andb_false_r. }
  pose proof (wk_attach_good d {| ptr_ := ptr_ o; block_ := block_ o |} s HI) as H.
  unfold outcome in *. munfold. rewrite Ho. simpl in *. apply H.
  intros b Hb. by eapply live_of_strong_ref.
Qed.

Lemma wk_dtor_good t s :
  Inv s →
  outcome (WeakPtr.dtor (User t)) s
    (match wk_block (User t) s with Some _ => true | None => false end).
Proof.
  intros HI. unfold outcome, wk_block.
  destruct (weak s !! User t) as [h|] eqn:Ht.
  2:{ unfold WeakPtr.dtor, WeakPtr.DecrementBlockWeakCounter. munfold. by rewrite Ht. }
  destruct (weak_dtor _ _ _ _ _ HI Ht)
    as (s2 & -> & Hsh & Hwk & Hnx & Hpre & HI2 & _); [done|].
  apply good_intro; [done| |lia|done]. intros b. rewrite Hsh. lia.
Qed.

Lemma wk_Reset_good t s :
  Inv s →
  outcome (WeakPtr.Reset t) s
    (match wk_block t s with Some _ => true | None => false end).
Proof.
  intros HI. unfold outcome, WeakPtr.Reset, wk_block.
  destruct (weak s !! t) as [h|] eqn:Ht.
  2:{ unfold WeakPtr.DecrementBlockWeakCounter. munfold. by rewrite Ht. }
  destruct (weak_release _ _ _ _ _ HI Ht) as (s1 & Hrun & Hsh & Hwk & Hnx & Hpre & HI1 & _).
  assert (weak s1 !! t = Some h) as Ht1 by (by rewrite Hwk).
  pose proof (g_temp _ _ _ _ HI) as HT.
  munfold. rewrite Hrun. mrun. rewrite !set_weak_compose.
  eapply good_weak; [exact HI1|done|done|lia|prefix_tac| | |]; [refs_tac| |].
  - intros b. rewrite !is_Some_alt.
    repeat (rewrite lookup_insert || rewrite lookup_delete).
    destruct (decide (t = WeakThis b)) as [->|]; [by rewrite Ht|done].
  - repeat (rewrite lookup_insert || rewrite lookup_delete).
    destruct (decide (t = Temp)) as [->|]; [congruence|done].
Qed.

Ltac this_tac Ht Ho t o :=
  intros ?b; rewrite !is_Some_alt;
  repeat (rewrite lookup_insert || rewrite lookup_delete);
  repeat match goal with
  | |- context [decide (t = WeakThis ?b)] =>
      destruct (decide (t = WeakThis b)) as [->|]; [rewrite ?Ht|]
  | |- context [decide (o = WeakThis ?b)] =>
      destruct (decide (o = WeakThis b)) as [->|]; [rewrite ?Ho|]
  end; try done.

Ltac temp_tac Ht Ho t o :=
  repeat (rewrite lookup_insert || rewrite lookup_delete);
  repeat match goal with
  | |- context [decide (t = Temp)] =>
      destruct (decide (t = Temp)) as [->|]; [congruence|]
  | |- context [decide (o = Temp)] =>
      destruct (decide (o = Temp)) as [->|]; [congruence|]
  end; try done.

Lemma wk_assign_good t o s :
  Inv s →
  outcome (on_weak t (WeakPtr.assign t o)) s
    (match wk_block t s, wk_block o s with
     | Some _, Some bo => bool_decide (t = o) || room_weak bo s
     | _, _ => false
     end).
Proof.
  intros HI. unfold outcome, on_weak, WeakPtr.assign, wk_block.
  destruct (weak s !! t) as [h|] eqn:Ht.
  2:{ munfold. by rewrite Ht. }
  munfold. rewrite Ht. simpl.
  destruct (decide (t = o)) as [->|Hne]; [by apply good_refl|].
  destruct (weak_release _ _ _ _ _ HI Ht) as (s1 & Hrun & Hsh & Hwk & Hnx & Hpre & HI1 & _).
  rewrite Hrun.
  assert (weak s1 !! t = Some h) as Ht1 by (by rewrite Hwk).
  pose proof (g_temp _ _ _ _ HI) as HT.
  rewrite bool_decide_false by done. simpl.
  destruct (weak s !! o) as [ho|] eqn:Ho.
  2:{ assert (weak s1 !! o = None) as Ho1 by (by rewrite Hwk). by mrun. }
  assert (weak s1 !! o = Some ho) as Ho1 by (by rewrite Hwk).
  unfold WeakPtr.IncrementBlockWeakCounter. munfold. mrun.
  destruct (block_ ho) as [b|] eqn:Hb; mrun.
  - pose proof (g_weak _ _ _ _ HI1 b) as Hcs. rewrite Hwk in Hcs.
    pose proof (g_weak _ _ _ _ HI b) as Hcs0.
    assert (1 ≤ weak_of s1 b) as Hge.
    { unfold points in Hcs. case_decide as Hhb.
      - pose proof (refs_ge_2 b _ t o h ho Hne Ht Hhb Ho Hb). lia.
      - pose proof (refs_ge_1 b _ _ _ Ho Hb). lia. }
    destruct (weak_of_live s1 b) as (blk & Hblk & Hsc); [lia|].
    pose proof (g_range _ _ _ _ HI1 b blk Hblk) as Hr.
    mrun.
    destruct (weak_counter blk =? INT_MAX) eqn:Hmax; mrun.
    { unfold room_weak. obs. split_obs. }
    apply good_intro; [| |simpl; lia|prefix_tac].
    + rewrite !set_weak_compose.
      apply (weak_acquire None None
        (set_weak (λ m, <[t := {| ptr_ := ptr_ ho; block_ := Some b |}]>
                         (<[t := {| ptr_ := ptr_ ho; block_ := block_ h |}]> m)) s1)
        b blk); [|done|lia].
      eapply ginv_weak_store; [exact HI1|..]; rewrite Hwk.
      * clear Hcs Hcs0. refs_tac.
      * clear Hcs Hcs0. this_tac Ht Ho t o.
      * temp_tac Ht Ho t o.
    + simpl. rewrite Hsh. intros; lia.
  - rewrite !set_weak_compose.
    eapply good_weak; [exact HI1|done|done|lia|prefix_tac|..].
    + refs_tac.
    + this_tac Ht Ho t o.
    + temp_tac Ht Ho t o.
Qed.

Lemma wk_move_assign_good t o s :
  Inv s →
  outcome (WeakPtr.move_assign t o) s
    (match wk_block t s, wk_block o s with
     | Some _, Some _ => true
     | _, _ => false
     end).
Proof.
  intros HI. unfold outcome, WeakPtr.move_assign, wk_block.
  destruct (weak s !! t) as [h|] eqn:Ht.
  2:{ unfold WeakPtr.DecrementBlockWeakCounter. munfold. by rewrite Ht. }
  destruct (weak_release _ _ _ _ _ HI Ht) as (s1 & Hrun & Hsh & Hwk & Hnx & Hpre & HI1 & _).
  assert (weak s1 !! t = Some h) as Ht1 by (by rewrite Hwk).
  pose proof (g_temp _ _ _ _ HI) as HT.
  unfold WeakPtr.swap_ptr, WeakPtr.swap_block. munfold. rewrite Hrun. simpl.
  destruct (decide (t = o)) as [<-|Hne].
  - mrun. rewrite !set_weak_compose.
    eapply good_weak; [exact HI1|done|done|lia|prefix_tac|..].
    + refs_tac.
    + this_tac Ht Ht t t.
    + temp_tac Ht Ht t t.
  - destruct (weak s !! o) as [ho|] eqn:Ho.
    2:{ assert (weak s1 !! o = None) as Ho1 by (by rewrite Hwk). by mrun. }
    assert (weak s1 !! o = Some ho) as Ho1 by (by rewrite Hwk).
    mrun. rewrite !set_weak_compose.
    eapply good_weak; [exact HI1|done|done|lia|prefix_tac|..].
    + refs_tac.
    + this_tac Ht Ho t o.
    + temp_tac Ht Ho t o.
Qed.

Lemma wk_Swap_good t o s :
  Inv s →
  outcome (WeakPtr.Swap t o) s
    (match wk_block t s, wk_block o s with
     | Some _, Some _ => true
     | _, _ => false
     end).
Proof.
  intros HI.
  unfold outcome, WeakPtr.Swap, WeakPtr.swap_block, WeakPtr.swap_ptr, wk_block.
  munfold. pose proof (g_temp _ _ _ _ HI) as HT.
  destruct (weak s !! t) as [h|] eqn:Ht; mrun; [|done].
  destruct (weak s !! o) as [ho|] eqn:Ho; mrun; [|done].
  destruct (decide (t = o)) as [->|Hne]; mrun.
  - rewrite !set_weak_compose.
    eapply good_weak; [exact HI|done|done|lia|prefix_tac|..].
    + refs_tac.
    + this_tac Ho Ho o o.
    + temp_tac Ho Ho o o.
  - rewrite !set_weak_compose.
    eapply good_weak; [exact HI|done|done|lia|prefix_tac|..].
    + refs_tac.
    + this_tac Ht Ho t o.
    + temp_tac Ht Ho t o.
Qed.

Lemma Lock_good d w s :
  Inv s →
  outcome (Lock d w) s
    (fresh_sh d s &&
     match wk_block w s with
     | Some (Some b) => strong_of s b <? INT_MAX
     | Some None => true
     | None => false
     end).
Proof.
  intros HI. pose proof (promote_good d w s HI) as Hp.
  pose proof (default_good d s HI) as Hd.
  unfold outcome, Lock, WeakPtr.UseCount, wk_block in *. munfold.
  destruct (weak s !! w) as [o|] eqn:Ho; mrun; [|by rewrite andb_false_r].
  simpl in *. destruct (block_ o) as [b|] eqn:Hb; mrun.
  - destruct (live_of_weak_ref _ _ _ _ _ _ HI Ho Hb) as [blk Hblk]. mrun.
    destruct (to_size_t (strong_counter blk) =? 0) eqn:Hz.
    + destruct (SharedPtr.default d s); try done.
      unfold fresh_sh in *. rewrite Hd. done.
    + done.
  - change (0 =? 0) with true. cbv beta iota.
    destruct (SharedPtr.default d s); try done.
    unfold fresh_sh in *. by rewrite Hd.
Qed.

(** ** Client operations *)

Lemma step_outcome o s : Inv s → outcome (step o) s (op_ok o s).
Proof.
  intros HI. destruct o; simpl.
  - by apply default_good.
  - by apply adopt_good.
  - by apply adopt_like_good.
  - by apply (copy_like_good d src ptr_).
  - by apply move_good.
  - by apply (copy_like_good d src (λ _, q)).
  - by apply promote_good.
  - by apply assign_good.
  - by apply move_assign_good.
  - by apply dtor_good.
  - by apply Reset_good.
  - by apply Reset_ptr_good.
  - by apply Swap_good.
  - by apply wk_default_good.
  - by apply wk_copy_good.
  - by apply wk_move_good.
  - by apply wk_from_shared_good.
  - by apply wk_assign_good.
  - by apply wk_move_assign_good.
  - by apply wk_dtor_good.
  - by apply wk_Reset_good.
  - by apply wk_Swap_good.
  - by apply Lock_good.
  - by apply promote_good.
  - by apply wk_copy_good.
Qed.

Lemma after_good o s s' : Inv s → after o s = Some s' → good s s'.
Proof.
  intros HI. pose proof (step_outcome o s HI) as H. unfold outcome, after in *.
  destruct (step o s) as [[] s1|s1|]; intros [= <-]; [done|].
  subst. by apply good_refl.
Qed.

(** Defined behaviour: an operation that satisfies [op_ok] in a state that
    satisfies the invariant goes through. *)
Lemma after_defined o s : Inv s → op_ok o s = true → is_Some (after o s).
Proof.
  intros HI Hok. pose proof (step_outcome o s HI) as H. unfold outcome, after in *.
  destruct (step o s) as [[] s1|s1|]; [by eexists..|congruence].
Qed.

Lemma Inv_init : Inv init.
Proof.
  constructor.
  - intros b. unfold strong_of, init. cbn [heap shared].
    rewrite lookup_empty, refs_empty. done.
  - intros b. unfold weak_of, init. cbn [heap weak].
    rewrite lookup_empty, refs_empty. done.
  - intros b blk. unfold init. cbn [heap]. by rewrite lookup_empty.
  - intros b Hb. simpl in Hb. lia.
  - intros b _. done.
  - intros b Hb. simpl in Hb. lia.
  - intros b _. unfold cap_of, init. cbn [heap weak]. rewrite !lookup_empty.
    split; [by intros [? ?]|by intros [? _]].
  - done.
Qed.

Lemma run_Inv os s s' : Inv s → run os s = Some s' → Inv s'.
Proof.
  revert s. induction os as [|o os IH]; intros s HI; simpl.
  - by intros [= <-].
  - destruct (after o s) as [s1|] eqn:Ho; [|done].
    apply IH. by apply (after_good o s s1).
Qed.

Lemma reachable_Inv os s : run os init = Some s → Inv s.
Proof. apply run_Inv, Inv_init. Qed.

(** ** The ownership invariants of the specification *)

Lemma occ_app e l k : occ e (l ++ k) = occ e l + occ e k.
Proof. unfold occ. rewrite filter_app, length_app. lia. Qed.

Lemma Inv_counters s b :
  Inv s →
  strong_of s b = refs b (shared s) ∧ weak_of s b = refs b (weak s) ∧
  (is_Some (heap s !! b) ↔ 0 < refs b (shared s) + refs b (weak s)).
Proof.
  intros HI. pose proof (g_strong _ _ _ _ HI b) as Hs.
  pose proof (g_weak _ _ _ _ HI b) as Hw.
  pose proof (g_range _ _ _ _ HI b) as Hr.
  unfold points in *. rewrite decide_False in Hs, Hw by done.
  split; [lia|]. split; [lia|].
  unfold strong_of, weak_of in *. destruct (heap s !! b) as [blk|].
  - specialize (Hr blk eq_refl). split; [lia|by eexists].
  - split; [by intros [? ?]|lia].
Qed.

(** C1. After every sequence of client operations that starts from the
    empty program state and stays within defined behaviour (which
    [after_defined] grants to every operation that satisfies [op_ok]), the
    strong counter of every control block equals
    the number of strong handles whose [block_] is that block, its weak
    counter equals the number of such weak handles, and no handle names a
    block that has been freed. *)
Theorem counters_count_live_handles (os : list op) (s : State) :
  run os init = Some s →
  ∀ b,
    (∀ blk, heap s !! b = Some blk →
       strong_counter blk = refs b (shared s) ∧
       weak_counter blk = refs b (weak s)) ∧
    (heap s !! b = None → refs b (shared s) = 0 ∧ refs b (weak s) = 0).
Proof.
  intros Hrun b. pose proof (reachable_Inv _ _ Hrun) as HI.
  destruct (Inv_counters s b HI) as (Hs & Hw & _).
  unfold strong_of, weak_of in *. split.
  - intros blk Hb. rewrite Hb in Hs, Hw. done.
  - intros Hb. rewrite Hb in Hs, Hw. done.
Qed.

Lemma counters_count_live_handles_witness :
  run widget_prefix init = Some widget_prefix_state ∧
  ∀ b,
    (∀ blk, heap widget_prefix_state !! b = Some blk →
       strong_counter blk = refs b (shared widget_prefix_state) ∧
       weak_counter blk = refs b (weak widget_prefix_state)) ∧
    (heap widget_prefix_state !! b = None →
       refs b (shared widget_prefix_state) = 0 ∧
       refs b (weak widget_prefix_state) = 0).
Proof.
  assert (run widget_prefix init = Some widget_prefix_state) as Hrun
    by (vm_compute; reflexivity).
  split; [exact Hrun|].
  exact (counters_count_live_handles widget_prefix widget_prefix_state Hrun).
Defined.

(** C2. In every reachable state the payload of a block has been destroyed
    zero times while a strong handle names the block and exactly once when
    none does; and the operation that runs [DeletePointer] on the block
    (once) is the one that takes the number of its strong handles, which is
    the value of its strong counter, from 1 to 0. *)
Theorem payload_destroyed_exactly_once (os : list op) (s : State) (o : op)
    (s' : State) (b : nat) :
  run os init = Some s → after o s = Some s' → (b < next s)%nat →
  deleted s b = (if 0 <? refs b (shared s) then 0 else 1) ∧
  deleted s' b = (if 0 <? refs b (shared s') then 0 else 1) ∧
  (∃ evs, trace s' = trace s ++ evs ∧
     occ (EvDeletePointer b) evs =
       if (refs b (shared s) =? 1) && (refs b (shared s') =? 0) then 1 else 0) ∧
  (refs b (shared s) = 1 →
     ∃ blk, heap s !! b = Some blk ∧ strong_counter blk = 1) ∧
  (refs b (shared s') = 0 → strong_of s' b = 0).
Proof.
  intros Hrun Hafter Hb. pose proof (reachable_Inv _ _ Hrun) as HI.
  destruct (after_good _ _ _ HI Hafter) as (HI' & Hrel & Hnx & [evs Hevs]).
  destruct (Inv_counters s b HI) as (Hs & _ & _).
  destruct (Inv_counters s' b HI') as (Hs' & _ & _).
  pose proof (g_deleted _ _ _ _ HI b Hb ltac:(done)) as Hd.
  pose proof (g_deleted _ _ _ _ HI' b ltac:(lia) ltac:(done)) as Hd'.
  rewrite Hs in Hd. rewrite Hs' in Hd'. specialize (Hrel b).
  pose proof (refs_nonneg b (shared s)). pose proof (refs_nonneg b (shared s')).
  split; [done|]. split; [done|]. split; [|split].
  - exists evs. split; [done|].
    pose proof (occ_nonneg (EvDeletePointer b) evs) as Hnn.
    assert (deleted s' b = deleted s b + occ (EvDeletePointer b) evs) as Hsum.
    { unfold deleted. by rewrite Hevs, occ_app. }
    rewrite Hd, Hd' in Hsum.
    destruct (0 <? refs b (shared s)) eqn:E1, (0 <? refs b (shared s')) eqn:E2,
      (refs b (shared s) =? 1) eqn:E3, (refs b (shared s') =? 0) eqn:E4; simpl; lia.
  - intros Hone. destruct (strong_of_live s b) as (blk & Hblk & Hsc); [lia|].
    exists blk. split; [done|lia].
  - intros Hz. lia.
Qed.

Lemma payload_destroyed_exactly_once_witness :
  run widget_prefix init = Some widget_prefix_state ∧
  after (ShReset 2) widget_prefix_state = Some widget_last_strong_state ∧
  deleted widget_prefix_state 0%nat = 0 ∧
  deleted widget_last_strong_state 0%nat = 1 ∧
  ∃ evs, trace widget_last_strong_state = trace widget_prefix_state ++ evs ∧
    occ (EvDeletePointer 0) evs = 1.
Proof.
  assert (run widget_prefix init = Some widget_prefix_state) as Hrun
    by (vm_compute; reflexivity).
  assert (after (ShReset 2) widget_prefix_state = Some widget_last_strong_state)
    as Hafter by (vm_compute; reflexivity).
  assert (0 < next widget_prefix_state)%nat as Hb by (vm_compute; lia).
  destruct (payload_destroyed_exactly_once widget_prefix _ (ShReset 2) _ 0%nat
              Hrun Hafter Hb) as (H1 & H2 & H3 & _).
  split; [exact Hrun|]. split; [exact Hafter|].
  split; [exact H1|]. split; [exact H2|]. exact H3.
Defined.

(** C3. In every reachable state a block that was allocated is still
    allocated exactly when some strong or weak handle names it, also when
    its payload has already been destroyed; it has been freed exactly once
    when no handle names it; and the operation that frees it is the one
    that removes its last handle of either kind. *)
Theorem block_freed_exactly_once (os : list op) (s : State) (o : op)
    (s' : State) (b : nat) :
  run os init = Some s → after o s = Some s' → (b < next s)%nat →
  (is_Some (heap s !! b) ↔ 0 < refs b (shared s) + refs b (weak s)) ∧
  freed s b = (if 0 <? refs b (shared s) + refs b (weak s) then 0 else 1) ∧
  (refs b (shared s) = 0 → 0 < refs b (weak s) →
     deleted s b = 1 ∧ is_Some (heap s !! b) ∧ freed s b = 0) ∧
  (∃ evs, trace s' = trace s ++ evs ∧
     occ (EvDeleteBlock b) evs =
       if (0 <? refs b (shared s) + refs b (weak s)) &&
          (refs b (shared s') + refs b (weak s') =? 0)
       then 1 else 0).
Proof.
  intros Hrun Hafter Hb. pose proof (reachable_Inv _ _ Hrun) as HI.
  destruct (after_good _ _ _ HI Hafter) as (HI' & Hrel & Hnx & [evs Hevs]).
  destruct (Inv_counters s b HI) as (Hs & _ & Hl).
  destruct (Inv_counters s' b HI') as (_ & _ & Hl').
  pose proof (g_freed _ _ _ _ HI b Hb) as Hf.
  pose proof (g_freed _ _ _ _ HI' b ltac:(lia)) as Hf'.
  pose proof (g_deleted _ _ _ _ HI b Hb ltac:(done)) as Hd. rewrite Hs in Hd.
  pose proof (refs_nonneg b (shared s)). pose proof (refs_nonneg b (weak s)).
  pose proof (refs_nonneg b (shared s')). pose proof (refs_nonneg b (weak s')).
  assert (freed s b = if 0 <? refs b (shared s) + refs b (weak s) then 0 else 1)
    as Hfs.
  { rewrite Hf. destruct (heap s !! b) eqn:E.
    - pose proof (proj1 Hl ltac:(by eexists)). repeat case_match; lia.
    - destruct (0 <? refs b (shared s) + refs b (weak s)) eqn:E0; [|done].
      destruct (proj2 Hl) as [? ?]; [lia|done]. }
  assert (freed s' b = if 0 <? refs b (shared s') + refs b (weak s') then 0 else 1)
    as Hfs'.
  { rewrite Hf'. destruct (heap s' !! b) eqn:E.
    - pose proof (proj1 Hl' ltac:(by eexists)). repeat case_match; lia.
    - destruct (0 <? refs b (shared s') + refs b (weak s')) eqn:E0; [|done].
      destruct (proj2 Hl') as [? ?]; [lia|done]. }
  split; [done|]. split; [done|]. split.
  - intros Hz Hw. split; [|split].
    + rewrite Hd. destruct (0 <? refs b (shared s)) eqn:E0; lia.
    + apply Hl. lia.
    + rewrite Hfs. destruct (0 <? refs b (shared s) + refs b (weak s)) eqn:E0; lia.
  - exists evs. split; [done|].
    pose proof (occ_nonneg (EvDeleteBlock b) evs) as Hnn.
    assert (freed s' b = freed s b + occ (EvDeleteBlock b) evs) as Hsum.
    { unfold freed. by rewrite Hevs, occ_app. }
    rewrite Hfs, Hfs' in Hsum.
    destruct (0 <? refs b (shared s) + refs b (weak s)) eqn:E1,
      (0 <? refs b (shared s') + refs b (weak s')) eqn:E2,
      (refs b (shared s') + refs b (weak s') =? 0) eqn:E4; simpl; lia.
Qed.

Lemma block_freed_exactly_once_witness :
  run widget_expired init = Some widget_expired_state ∧
  after (WkDtor 0) widget_expired_state = Some widget_freed_state ∧
  is_Some (heap widget_expired_state !! 0%nat) ∧
  deleted widget_expired_state 0%nat = 1 ∧
  freed widget_expired_state 0%nat = 0 ∧
  ∃ evs, trace widget_freed_state = trace widget_expired_state ++ evs ∧
    occ (EvDeleteBlock 0) evs = 1.
Proof.
  assert (run widget_expired init = Some widget_expired_state) as Hrun
    by (vm_compute; reflexivity).
  assert (after (WkDtor 0) widget_expired_state = Some widget_freed_state)
    as Hafter by (vm_compute; reflexivity).
  assert (0 < next widget_expired_state)%nat as Hb by (vm_compute; lia).
  destruct (block_freed_exactly_once widget_expired _ (WkDtor 0) _ 0%nat
              Hrun Hafter Hb) as (_ & _ & H3 & H4).
  destruct H3 as (Hd & Hl & Hf); [by vm_compute..|].
  split; [exact Hrun|]. split; [exact Hafter|].
  split; [exact Hl|]. split; [exact Hd|]. split; [exact Hf|]. exact H4.
Defined.

(** The scenarios of the specification, run on the model. *)
Example widget_scenario :
  trace widget_prefix_state = [] ∧
  trace widget_last_strong_state = [EvDeletePointer 0] ∧
  WeakPtr.Expired (User 0) widget_last_strong_state =
    Ok true widget_last_strong_state ∧
  shared widget_expired_state !! 5%nat = Some empty_handle ∧
  heap widget_expired_state !! 0%nat ≠ None ∧
  trace widget_freed_state = [EvDeletePointer 0; EvDeleteBlock 0] ∧
  heap widget_freed_state !! 0%nat = None.
Proof. by vm_compute. Qed.

Example self_observation_scenario :
  ∃ s, run [ShMake 1 100 true; ObjSharedFromThis 2 0] init = Some s ∧
    SharedPtr.Get 1 s = Ok 100 s ∧ SharedPtr.Get 2 s = Ok 100 s ∧
    SharedPtr.UseCount 1 s = Ok 2 s ∧
    run [ShDtor 1; ShDtor 2] s =
      Some {| heap := ∅; shared := ∅; weak := ∅;
              trace := [EvDeletePointer 0; EvDeleteBlock 0]; next := 1 |}.
Proof. eexists. split; [reflexivity|]. by vm_compute. Qed.

(** ** Promotion, [Lock] *)

(** C4. Promotion from a weak handle attached to a block: when the strong
    counter of the block is 0 the constructor throws [BadWeakPtr] and changes
    nothing; when it is positive (and the [int] can still be incremented) it
    returns a handle with the weak handle's pointer and block, and the strong
    counter is one more. *)
Theorem promote_throws_or_increments (s : State) (d : nat) (w : WeakId)
    (h : Handle) (b : nat) (blk : ControlBlockBase) :
  weak s !! w = Some h → block_ h = Some b → heap s !! b = Some blk →
  shared s !! d = None →
  (strong_counter blk = 0 → SharedPtr.promote d w s = Throw s) ∧
  (0 < strong_counter blk < INT_MAX →
     SharedPtr.promote d w s =
       Ok () (set_heap <[b := with_strong (strong_counter blk + 1) blk]>
                (set_shared <[d := {| ptr_ := ptr_ h; block_ := Some b |}]> s))).
Proof.
  intros Hw Hb Hblk Hd. unfold SharedPtr.promote. munfold. split.
  - intros Hz. mrun. replace (strong_counter blk =? 0) with true by lia. done.
  - intros Hpos. mrun.
    replace (strong_counter blk =? 0) with false by lia. mrun.
    replace (strong_counter blk =? INT_MAX) with false by lia. done.
Qed.

Lemma promote_throws_or_increments_witness :
  SharedPtr.promote 6 (User 0) widget_expired_state = Throw widget_expired_state ∧
  ∃ s', SharedPtr.promote 5 (User 0) widget_prefix_state = Ok () s' ∧
        strong_of s' 0%nat = strong_of widget_prefix_state 0%nat + 1.
Proof.
  split.
  - apply (promote_throws_or_increments widget_expired_state 6 (User 0)
      {| ptr_ := 100; block_ := Some 0%nat |} 0%nat
      {| strong_counter := 0; weak_counter := 1; kind := Holder;
         payload := 100; shares_this := false |});
      by vm_compute.
  - eexists. split.
    + apply (promote_throws_or_increments widget_prefix_state 5 (User 0)
        {| ptr_ := 100; block_ := Some 0%nat |} 0%nat
        {| strong_counter := 1; weak_counter := 1; kind := Holder;
           payload := 100; shares_this := false |});
        by vm_compute.
    + by vm_compute.
Defined.

Lemma to_size_t_eq_0 z :
  INT_MIN ≤ z ≤ INT_MAX → (to_size_t z =? 0) = (z =? 0).
Proof.
  unfold to_size_t, INT_MIN, INT_MAX. intros Hz.
  destruct (z =? 0) eqn:E; [apply Z.eqb_eq in E; by subst|].
  apply Z.eqb_neq in E. apply Z.eqb_neq.
  change (2 ^ 64) with 18446744073709551616.
  rewrite Z.mod_divide by done. intros [k Hk]. nia.
Qed.

(** C5. [Lock] never throws.  On an expired weak handle (empty, or attached
    to a block whose strong counter is 0) it returns an empty strong handle
    and changes nothing else; on a handle that is not expired it returns a
    strong handle with the weak handle's pointer and block, and the strong
    counter of the block is exactly one more than before the call. *)
Theorem Lock_expired_or_live (s : State) (d : nat) (w : WeakId) (h : Handle) :
  weak s !! w = Some h → shared s !! d = None →
  (∀ b, block_ h = Some b →
     ∃ blk, heap s !! b = Some blk ∧ INT_MIN ≤ strong_counter blk < INT_MAX) →
  WeakPtr.Expired w s =
    Ok (match block_ h with None => true | Some b => strong_of s b =? 0 end) s ∧
  (WeakPtr.Expired w s = Ok true s →
     Lock d w s = Ok () (set_shared <[d := empty_handle]> s)) ∧
  (WeakPtr.Expired w s = Ok false s →
     ∃ b blk, block_ h = Some b ∧ heap s !! b = Some blk ∧
       Lock d w s =
         Ok () (set_heap <[b := with_strong (strong_counter blk + 1) blk]>
                  (set_shared <[d := {| ptr_ := ptr_ h; block_ := Some b |}]> s))).
Proof.
  intros Hw Hd Hlive.
  unfold Lock, WeakPtr.Expired, WeakPtr.UseCount, SharedPtr.default,
    SharedPtr.promote, strong_of.
  munfold. rewrite Hw. msimpl.
  destruct (block_ h) as [b|] eqn:Hb.
  - destruct (Hlive b eq_refl) as (blk & Hblk & Hr). rewrite Hblk. msimpl.
    rewrite to_size_t_eq_0 by lia.
    split; [done|]. split.
    + intros [= Hz]. rewrite Hz. by mrun.
    + intros [= Hz]. exists b, blk. split; [done|]. split; [done|].
      assert ((strong_counter blk =? INT_MAX) = false) as Hmax by lia.
      rewrite Hz. by mrun.
  - split; [done|]. split; [|done]. intros _. change (0 =? 0) with true. by mrun.
Qed.

Lemma Lock_expired_or_live_witness :
  Lock 6 (User 0) widget_expired_state =
    Ok () (set_shared <[6%nat := empty_handle]> widget_expired_state) ∧
  ∃ s', Lock 5 (User 0) widget_prefix_state = Ok () s' ∧
        strong_of s' 0%nat = strong_of widget_prefix_state 0%nat + 1 ∧
        shared s' !! 5%nat = Some {| ptr_ := 100; block_ := Some 0%nat |}.
Proof.
  split.
  - apply (Lock_expired_or_live widget_expired_state 6 (User 0)
             {| ptr_ := 100; block_ := Some 0%nat |}); [by vm_compute..| |].
    + intros b [= <-]. eexists. split; [by vm_compute|]. by vm_compute.
    + by vm_compute.
  - destruct (Lock_expired_or_live widget_prefix_state 5 (User 0)
             {| ptr_ := 100; block_ := Some 0%nat |}) as (_ & _ & H);
      [by vm_compute..| |].
    + intros b [= <-]. eexists. split; [by vm_compute|]. by vm_compute.
    + destruct H as (b & blk & Hb & Hblk & Hrun); [by vm_compute|].
      injection Hb as <-. vm_compute in Hblk. injection Hblk as <-.
      eexists. split; [exact Hrun|]. split; by vm_compute.
Defined.

(** ** Self-observation *)

(** C6. In a state that satisfies the invariant (every reachable state
    does), after a payload with the self-observation capability has been
    wrapped by its first strong handle (adoption of a raw pointer, or
    [MakeShared]), the block has strong counter 1 and weak counter 1: the
    installed [weak_this] counts as a weak handle only.  [SharedFromThis]
    then returns a handle with the address of the object, [UseCount] is 2
    for both handles, which is the number of strong handles of the block,
    and [WeakFromThis] returns a weak handle with the same address that
    leaves the strong counter alone. *)
Theorem self_observation (k : BlockKind) (s : State) (d d2 w : nat) (p : addr) :
  Inv s → shared s !! d = None → shared s !! d2 = None → d ≠ d2 →
  weak s !! User w = None → p ≠ nullptr →
  ∃ s1 s2 s3,
    establish k d p s = Ok () s1 ∧
    heap s1 !! next s =
      Some {| strong_counter := 1; weak_counter := 1; kind := k;
              payload := p; shares_this := true |} ∧
    weak s1 !! WeakThis (next s) = Some {| ptr_ := p; block_ := Some (next s) |} ∧
    SharedFromThis d2 (next s) s1 = Ok () s2 ∧
    SharedPtr.Get d2 s2 = Ok p s2 ∧ SharedPtr.Get d s2 = Ok p s2 ∧
    SharedPtr.UseCount d s2 = Ok 2 s2 ∧ SharedPtr.UseCount d2 s2 = Ok 2 s2 ∧
    refs (next s) (shared s2) = 2 ∧ weak_of s2 (next s) = 1 ∧
    WeakFromThis (User w) (next s) s2 = Ok () s3 ∧
    weak s3 !! User w = Some {| ptr_ := p; block_ := Some (next s) |} ∧
    WeakPtr.UseCount (User w) s3 = Ok 2 s3 ∧
    strong_of s3 (next s) = 2 ∧ weak_of s3 (next s) = 2.
Proof.
  intros HI Hd Hd2 Hne Hw Hp.
  pose proof (fresh_weak_this _ _ _ (next s) HI ltac:(lia)) as Hwt.
  pose proof (g_temp _ _ _ _ HI) as HT.
  destruct (g_fresh _ _ _ _ HI (next s) ltac:(lia)) as (Hnone & _ & _).
  destruct (Inv_counters s (next s) HI) as (Hrs & _ & _).
  unfold strong_of in Hrs. rewrite Hnone in Hrs.
  assert ((p =? nullptr) = false) as Hpn by (unfold nullptr in *; lia).
  assert (∃ s1, establish k d p s = Ok () s1 ∧
    heap s1 = <[next s := {| strong_counter := 1; weak_counter := 1; kind := k;
                             payload := p; shares_this := true |}]> (heap s) ∧
    shared s1 = <[d := {| ptr_ := p; block_ := Some (next s) |}]> (shared s) ∧
    weak s1 !! WeakThis (next s) = Some {| ptr_ := p; block_ := Some (next s) |} ∧
    weak s1 !! User w = None) as (s1 & Hrun1 & Hh1 & Hs1 & Hw1 & Hu1).
  { destruct k; unfold establish, SharedPtr.adopt, SharedPtr.MakeShared, new_block,
      SharedPtr.install_weak_this, WeakPtr.from_shared, WeakPtr.move_assign,
      WeakPtr.dtor, WeakPtr.IncrementBlockWeakCounter,
      WeakPtr.DecrementBlockWeakCounter, WeakPtr.swap_ptr, WeakPtr.swap_block,
      empty_handle; munfold; rewrite ?Hpn; cbn [andb]; mrun;
      change (0 =? INT_MAX) with false; mrun.
    all: eexists; split; [reflexivity|]; msimpl.
    all: split; [by rewrite insert_insert_eq|]; split; [done|].
    all: split; by mrun. }
  exists s1.
  assert (heap s1 !! next s = Some {| strong_counter := 1; weak_counter := 1;
            kind := k; payload := p; shares_this := true |}) as Hb1
    by (by rewrite Hh1, lookup_insert_eq).
  assert (shared s1 !! d2 = None) as Hd21 by (by rewrite Hs1, lookup_insert_ne).
  eexists. eexists.
  split; [exact Hrun1|]. split; [exact Hb1|]. split; [exact Hw1|].
  unfold SharedFromThis, WeakFromThis, SharedPtr.promote, WeakPtr.copy,
    SharedPtr.Get, SharedPtr.UseCount, WeakPtr.UseCount,
    WeakPtr.IncrementBlockWeakCounter, strong_of, weak_of.
  munfold. mrun.
  change (1 =? 0) with false. change (1 =? INT_MAX) with false. mrun.
  split; [reflexivity|]. mrun. rewrite Hs1. mrun.
  split; [done|]. split; [done|]. split; [done|]. split; [done|].
  split.
  { rewrite refs_insert_fresh by (by rewrite lookup_insert_ne).
    rewrite refs_insert_fresh by done. unfold points. simpl.
    rewrite !decide_True by done. lia. }
  split; [done|]. change (1 =? INT_MAX) with false. msimpl.
  split; [reflexivity|]. by mrun.
Qed.

Lemma self_observation_witness :
  ∃ s1 s2,
    establish Holder 1 100 init = Ok () s1 ∧
    SharedFromThis 2 0 s1 = Ok () s2 ∧
    SharedPtr.Get 2 s2 = Ok 100 s2 ∧ SharedPtr.Get 1 s2 = Ok 100 s2 ∧
    SharedPtr.UseCount 1 s2 = Ok 2 s2.
Proof.
  destruct (self_observation Holder init 1 2 0 100 Inv_init)
    as (s1 & s2 & s3 & H1 & _ & _ & H2 & H3 & H4 & H5 & _);
    [reflexivity|reflexivity|lia|reflexivity|done|].
  exists s1, s2. repeat split; assumption.
Defined.

(** Two paths the claims above leave out.  A weak handle that is empty has
    no block to read: promoting it dereferences [nullptr].  And [Reset(ptr)]
    allocates a block without installing [weak_this], so the payload cannot
    observe itself afterwards. *)
Example promote_empty_is_undefined :
  ∃ s, run [WkDefault 0] init = Some s ∧ SharedPtr.promote 1 (User 0) s = UB.
Proof. eexists. split; [reflexivity|]. by vm_compute. Qed.

Example Reset_ptr_installs_nothing :
  ∃ s, run [ShDefault 1; ShResetPtr 1 100 true] init = Some s ∧
    heap s !! 0%nat =
      Some {| strong_counter := 1; weak_counter := 0; kind := Pointer;
              payload := 100; shares_this := true |} ∧
    weak s !! WeakThis 0 = Some empty_handle ∧
    SharedFromThis 2 0 s = UB.
Proof. eexists. split; [reflexivity|]. by vm_compute. Qed.

(** ** Aliasing *)

Lemma to_size_t_small z : 0 ≤ z ≤ INT_MAX → to_size_t z = z.
Proof.
  unfold to_size_t, INT_MAX. intros Hz. apply Z.mod_small.
  change (2 ^ 64) with 18446744073709551616. lia.
Qed.

(** C7. From a strong handle [h1] attached to block [b], in a state that
    satisfies the invariant (every reachable state does) and whose counter
    can still be incremented, the aliasing constructor builds a handle [h2]
    with [Get() = q]
    and the block of [h1], and the strong counter of the block is one more.
    Destroying [h1] afterwards runs neither [DeletePointer] nor
    [delete block_], and [UseCount] of [h2] is the strong counter of that
    same block: what it was before the aliasing construction. *)
Theorem alias_shares_block (s : State) (h1 h2 : nat) (H1 : Handle) (b : nat)
    (q : addr) :
  Inv s → shared s !! h1 = Some H1 → block_ H1 = Some b →
  shared s !! h2 = None → strong_of s b < INT_MAX →
  ∃ s1 s2,
    SharedPtr.alias h2 h1 q s = Ok () s1 ∧
    shared s1 !! h2 = Some {| ptr_ := q; block_ := Some b |} ∧
    SharedPtr.Get h2 s1 = Ok q s1 ∧
    strong_of s1 b = strong_of s b + 1 ∧
    SharedPtr.UseCount h2 s1 = Ok (strong_of s b + 1) s1 ∧
    SharedPtr.dtor h1 s1 = Ok () s2 ∧
    trace s2 = trace s ∧ deleted s2 b = 0 ∧ is_Some (heap s2 !! b) ∧
    shared s2 !! h2 = Some {| ptr_ := q; block_ := Some b |} ∧
    SharedPtr.UseCount h2 s2 = Ok (strong_of s b) s2.
Proof.
  intros HI Hh1 Hb Hh2 Hmax.
  assert (h2 ≠ h1) as Hne by congruence.
  destruct (Inv_counters s b HI) as (Hs & _ & _).
  pose proof (refs_ge_1 b _ _ _ Hh1 Hb) as Hge.
  destruct (strong_of_live s b) as (blk & Hblk & Hsc); [lia|].
  pose proof (g_range _ _ _ _ HI b blk Hblk) as Hr.
  pose proof (g_deleted _ _ _ _ HI b (live_below_next _ _ _ _ _ _ HI Hblk)
                ltac:(done)) as Hdel.
  replace (0 <? strong_of s b) with true in Hdel by lia.
  rewrite <-Hsc in *.
  assert ((strong_counter blk =? INT_MAX) = false) as E1 by lia.
  assert (((strong_counter blk + 1 =? 1) && (weak_counter blk =? 0)) = false)
    as E2 by lia.
  assert ((strong_counter blk + 1 =? INT_MIN) = false) as E3
    by (unfold INT_MIN; lia).
  assert ((strong_counter blk + 1 - 1 <=? 0) = false) as E4 by lia.
  unfold SharedPtr.alias, SharedPtr.dtor, SharedPtr.Get, SharedPtr.UseCount,
    SharedPtr.IncrementBlockStrongCounter, SharedPtr.DecrementBlockStrongCounter,
    strong_of, deleted.
  munfold. eexists. eexists. mrun.
  split; [reflexivity|]. mrun. do 3 (split; [done|]).
  split; [by rewrite to_size_t_small by lia|].
  split; [reflexivity|]. mrun. do 4 (split; [by eauto|]).
  rewrite to_size_t_small by lia. f_equal. lia.
Qed.

Lemma alias_shares_block_witness :
  ∃ s1 s2,
    SharedPtr.alias 7 2 104 widget_prefix_state = Ok () s1 ∧
    SharedPtr.Get 7 s1 = Ok 104 s1 ∧
    SharedPtr.dtor 2 s1 = Ok () s2 ∧
    trace s2 = trace widget_prefix_state ∧
    SharedPtr.UseCount 7 s2 = Ok 1 s2.
Proof.
  assert (run widget_prefix init = Some widget_prefix_state) as Hrun
    by (vm_compute; reflexivity).
  destruct (alias_shares_block widget_prefix_state 2 7
              {| ptr_ := 100; block_ := Some 0%nat |} 0%nat 104
              (reachable_Inv _ _ Hrun))
    as (s1 & s2 & H1 & _ & H2 & _ & _ & H3 & H4 & _ & _ & _ & H5);
    [by vm_compute..|].
  exists s1, s2. repeat split; assumption.
Defined.

(** ** Frame properties *)

(** C9. Copy-assigning a strong handle, or a weak handle, to itself changes
    nothing: no field, no counter, and no payload or block is destroyed. *)
Theorem self_assignment_is_noop (s : State) (t : nat) (w : WeakId) :
  SharedPtr.assign t t s = Ok () s ∧ WeakPtr.assign w w s = Ok () s.
Proof.
  unfold SharedPtr.assign, WeakPtr.assign. by rewrite !decide_True.
Qed.

(** C10. [Swap] on two strong handles, and on two weak handles, exchanges
    the two handles' fields and changes nothing else: the heap of control
    blocks (so all counters), the other handles and the trace of
    destructions are the same. *)
Theorem Swap_exchanges_fields (s : State) (a b : nat) (ha hb : Handle)
    (wa wb : WeakId) (ka kb : Handle) :
  shared s !! a = Some ha → shared s !! b = Some hb →
  weak s !! wa = Some ka → weak s !! wb = Some kb →
  (∃ s', SharedPtr.Swap a b s = Ok () s' ∧
     shared s' !! a = Some hb ∧ shared s' !! b = Some ha ∧
     (∀ c, c ≠ a → c ≠ b → shared s' !! c = shared s !! c) ∧
     heap s' = heap s ∧ weak s' = weak s ∧ trace s' = trace s ∧ next s' = next s) ∧
  (∃ s', WeakPtr.Swap wa wb s = Ok () s' ∧
     weak s' !! wa = Some kb ∧ weak s' !! wb = Some ka ∧
     (∀ c, c ≠ wa → c ≠ wb → weak s' !! c = weak s !! c) ∧
     heap s' = heap s ∧ shared s' = shared s ∧ trace s' = trace s ∧ next s' = next s).
Proof.
  intros Ha Hb Hwa Hwb. split.
  - unfold SharedPtr.Swap, SharedPtr.swap_ptr, SharedPtr.swap_block. munfold.
    destruct ha as [pa ba], hb as [pb bb].
    destruct (decide (a = b)) as [->|Hne].
    + rewrite Ha in Hb. injection Hb as -> ->. mrun. eexists. split; [reflexivity|].
      msimpl. rewrite !lookup_insert_eq. do 2 (split; [done|]).
      split; [|done]. intros c Hc _. by rewrite !lookup_insert_ne.
    + mrun. eexists. split; [reflexivity|]. msimpl.
      split; [by mrun|]. split; [by mrun|].
      split; [|done]. intros c Hca Hcb. by rewrite !lookup_insert_ne.
  - unfold WeakPtr.Swap, WeakPtr.swap_ptr, WeakPtr.swap_block. munfold.
    destruct ka as [pa ba], kb as [pb bb].
    destruct (decide (wa = wb)) as [->|Hne].
    + rewrite Hwa in Hwb. injection Hwb as -> ->. mrun. eexists.
      split; [reflexivity|].
      msimpl. rewrite !lookup_insert_eq. do 2 (split; [done|]).
      split; [|done]. intros c Hc _. by rewrite !lookup_insert_ne.
    + mrun. eexists. split; [reflexivity|]. msimpl.
      split; [by mrun|]. split; [by mrun|].
      split; [|done]. intros c Hca Hcb. by rewrite !lookup_insert_ne.
Qed.

Lemma Swap_exchanges_fields_witness :
  ∃ s' s'',
    SharedPtr.Swap 1 2 widget_prefix_state = Ok () s' ∧
    shared s' !! 1%nat = Some {| ptr_ := 100; block_ := Some 0%nat |} ∧
    shared s' !! 2%nat = Some {| ptr_ := 0; block_ := None |} ∧
    heap s' = heap widget_prefix_state ∧
    WeakPtr.Swap (User 0) (User 0) widget_prefix_state = Ok () s'' ∧
    heap s'' = heap widget_prefix_state.
Proof.
  destruct (Swap_exchanges_fields widget_prefix_state 1 2
              {| ptr_ := 0; block_ := None |}
              {| ptr_ := 100; block_ := Some 0%nat |}
              (User 0) (User 0)
              {| ptr_ := 100; block_ := Some 0%nat |}
              {| ptr_ := 100; block_ := Some 0%nat |})
    as ((s' & H1 & H2 & H3 & _ & H4 & _) & (s'' & H5 & _ & _ & _ & H6 & _));
    [by vm_compute..|].
  exists s', s''. repeat split; assumption.
Defined.

(** ** The exclusive handle *)

(** C8 as the specification words it: the old resource is destroyed first
    and the new pointer adopted afterwards.  The code does it the other way
    round: on a handle that holds 1, [Reset(2)] first stores 2 and then
    calls the policy on 1. *)
Lemma Reset_deletes_after_adopting :
  ¬ (snd (UniquePtr.Reset 2 {| UniquePtr.first := 1; UniquePtr.second := () |})
       = [UniquePtr.Call () 1; UniquePtr.Store 2] ∧
     UniquePtr.Get
       (fst (UniquePtr.Reset 2 {| UniquePtr.first := 1; UniquePtr.second := () |}))
       = 2).
Proof. intros [H _]. discriminate H. Qed.

(** C8, amended. [Reset(p)] on a handle that holds [r] first adopts [p] and
    then calls the handle's deletion policy on [r]: the policy is called
    exactly once, on [r], while the handle already holds [p]; afterwards
    [Get() = p] and the policy is the same. *)
Theorem Reset_adopts_then_deletes {Deleter : Type}
    (u : UniquePtr.UniquePtr Deleter) (p : addr) :
  snd (UniquePtr.Reset p u) =
    [UniquePtr.Store p; UniquePtr.Call (UniquePtr.GetDeleter u) (UniquePtr.Get u)] ∧
  UniquePtr.calls (UniquePtr.Get u) (snd (UniquePtr.Reset p u)) =
    [(UniquePtr.Get u, p)] ∧
  UniquePtr.Get (fst (UniquePtr.Reset p u)) = p ∧
  UniquePtr.GetDeleter (fst (UniquePtr.Reset p u)) = UniquePtr.GetDeleter u.
Proof. by destruct u. Qed.

(** ** Round trips, algebraic laws and frames

    Properties of the code beyond the ownership invariants: what a
    construction followed by a destruction leaves behind, how the
    assignments relate to constructors and destructor, and what the
    operations never do. *)


(** ** Round trips *)

Lemma state_eq (s s' : State) :
  heap s = heap s' → shared s = shared s' → weak s = weak s' →
  trace s = trace s' → next s = next s' → s = s'.
Proof. destruct s, s'. simpl. by intros -> -> -> -> ->. Qed.

Lemma with_strong_id z blk : z = strong_counter blk → with_strong z blk = blk.
Proof. intros ->. by destruct blk. Qed.

Lemma with_weak_id z blk : z = weak_counter blk → with_weak z blk = blk.
Proof. intros ->. by destruct blk. Qed.

Lemma strong_ref_live s t h b :
  Inv s → shared s !! t = Some h → block_ h = Some b →
  ∃ blk, heap s !! b = Some blk ∧
    1 ≤ strong_counter blk ≤ INT_MAX ∧ 0 ≤ weak_counter blk ≤ INT_MAX ∧
    strong_counter blk = refs b (shared s) ∧ weak_counter blk = refs b (weak s).
Proof.
  intros HI Ht Hb. destruct (Inv_counters s b HI) as (Hs & Hw & _).
  pose proof (refs_ge_1 b _ _ _ Ht Hb) as Hge.
  destruct (strong_of_live s b) as (blk & Hblk & Hsc); [lia|].
  pose proof (g_range _ _ _ _ HI b blk Hblk) as Hr.
  unfold weak_of in Hw. rewrite Hblk in Hw.
  exists blk. split; [done|]. lia.
Qed.

Lemma weak_ref_live s w h b :
  Inv s → weak s !! w = Some h → block_ h = Some b →
  ∃ blk, heap s !! b = Some blk ∧
    0 ≤ strong_counter blk ≤ INT_MAX ∧ 1 ≤ weak_counter blk ≤ INT_MAX ∧
    strong_counter blk = refs b (shared s) ∧ weak_counter blk = refs b (weak s).
Proof.
  intros HI Ht Hb. destruct (Inv_counters s b HI) as (Hs & Hw & _).
  pose proof (refs_ge_1 b _ _ _ Ht Hb) as Hge.
  destruct (weak_of_live s b) as (blk & Hblk & Hsc); [lia|].
  pose proof (g_range _ _ _ _ HI b blk Hblk) as Hr.
  unfold strong_of in Hs. rewrite Hblk in Hs.
  exists blk. split; [done|]. lia.
Qed.

(** Destroying a strong handle that was attached by an increment of a
    positive counter undoes the attachment. *)
Lemma dtor_undoes_attach s d hp b blk :
  shared s !! d = None → heap s !! b = Some blk →
  1 ≤ strong_counter blk → strong_counter blk < INT_MAX →
  SharedPtr.dtor d
    (set_heap <[b := with_strong (strong_counter blk + 1) blk]>
       (set_shared <[d := {| ptr_ := hp; block_ := Some b |}]> s)) = Ok () s.
Proof.
  intros Hd Hblk Hge Hmax.
  assert (((strong_counter blk + 1 =? 1) && (weak_counter blk =? 0)) = false)
    as E2 by lia.
  assert ((strong_counter blk + 1 =? INT_MIN) = false) as E3
    by (unfold INT_MIN; lia).
  assert ((strong_counter blk + 1 - 1 <=? 0) = false) as E4 by lia.
  unfold SharedPtr.dtor, SharedPtr.DecrementBlockStrongCounter. munfold. mrun.
  f_equal. apply state_eq; simpl; try done.
  - rewrite insert_insert_eq. apply insert_id. rewrite Hblk. f_equal.
    destruct blk; unfold with_strong; simpl in *. f_equal. lia.
  - by apply delete_insert_id.
Qed.

(** X1. A copy of a strong handle (by the copy constructor or by the
    aliasing constructor) that is destroyed again leaves the program state
    exactly as it was: counters, handles, trace. *)
Theorem copy_then_destroy_restores (s : State) (d src : nat) (h : Handle)
    (q : addr) :
  Inv s → shared s !! src = Some h → shared s !! d = None →
  room_strong (block_ h) s = true →
  (∃ s1, SharedPtr.copy d src s = Ok () s1 ∧ SharedPtr.dtor d s1 = Ok () s) ∧
  (∃ s1, SharedPtr.alias d src q s = Ok () s1 ∧ SharedPtr.dtor d s1 = Ok () s).
Proof.
  intros HI Hsrc Hd Hroom.
  assert (d ≠ src) as Hne by congruence.
  destruct (block_ h) as [b|] eqn:Hb.
  - destruct (strong_ref_live s src h b HI Hsrc Hb) as (blk & Hblk & Hr & _).
    unfold room_strong, strong_of in Hroom. rewrite Hblk in Hroom.
    assert ((strong_counter blk =? INT_MAX) = false) as E1 by lia.
    split; eexists; (split; [|apply dtor_undoes_attach; [done|done|lia|lia]]).
    + unfold SharedPtr.copy, SharedPtr.IncrementBlockStrongCounter. munfold. by mrun.
    + unfold SharedPtr.alias, SharedPtr.IncrementBlockStrongCounter. munfold. by mrun.
  - split; eexists.
    + unfold SharedPtr.copy, SharedPtr.dtor, SharedPtr.IncrementBlockStrongCounter,
        SharedPtr.DecrementBlockStrongCounter. munfold. mrun.
      split; [reflexivity|]. mrun. f_equal.
      apply state_eq; simpl; try done. by apply delete_insert_id.
    + unfold SharedPtr.alias, SharedPtr.dtor, SharedPtr.IncrementBlockStrongCounter,
        SharedPtr.DecrementBlockStrongCounter. munfold. mrun.
      split; [reflexivity|]. mrun. f_equal.
      apply state_eq; simpl; try done. by apply delete_insert_id.
Qed.

Lemma copy_then_destroy_restores_witness :
  (∃ s1, SharedPtr.copy 7 2 widget_prefix_state = Ok () s1 ∧
         SharedPtr.dtor 7 s1 = Ok () widget_prefix_state) ∧
  (∃ s1, SharedPtr.alias 7 2 104 widget_prefix_state = Ok () s1 ∧
         SharedPtr.dtor 7 s1 = Ok () widget_prefix_state).
Proof.
  assert (run widget_prefix init = Some widget_prefix_state) as Hrun
    by (vm_compute; reflexivity).
  apply (copy_then_destroy_restores widget_prefix_state 7 2
           {| ptr_ := 100; block_ := Some 0%nat |} 104
           (reachable_Inv _ _ Hrun)); by vm_compute.
Defined.

Lemma wk_dtor_undoes_attach s d hp b blk :
  weak s !! User d = None → heap s !! b = Some blk →
  0 ≤ strong_counter blk → 0 ≤ weak_counter blk < INT_MAX →
  1 ≤ strong_counter blk + weak_counter blk →
  WeakPtr.dtor (User d)
    (set_heap <[b := with_weak (weak_counter blk + 1) blk]>
       (set_weak <[User d := {| ptr_ := hp; block_ := Some b |}]> s)) = Ok () s.
Proof.
  intros Hd Hblk Hs Hw Hpos.
  assert (((strong_counter blk =? 0) && (weak_counter blk + 1 <=? 1)) = false)
    as E2 by lia.
  assert ((weak_counter blk + 1 =? INT_MIN) = false) as E3
    by (unfold INT_MIN; lia).
  unfold WeakPtr.dtor, WeakPtr.DecrementBlockWeakCounter. munfold. mrun.
  f_equal. apply state_eq; simpl; try done.
  - rewrite insert_insert_eq. apply insert_id. rewrite Hblk. f_equal.
    destruct blk; unfold with_weak; simpl in *. f_equal. lia.
  - by apply delete_insert_id.
Qed.

(** X2. A weak handle made from a weak handle (copy constructor) or from a
    strong handle (demotion) and destroyed again leaves the program state
    exactly as it was; in particular the extra weak handle never frees the
    block. *)
Theorem weak_copy_then_destroy_restores (s : State) (d : nat) (wsrc : WeakId)
    (ssrc : nat) (hw hs : Handle) :
  Inv s → weak s !! User d = None →
  weak s !! wsrc = Some hw → room_weak (block_ hw) s = true →
  shared s !! ssrc = Some hs → room_weak (block_ hs) s = true →
  (∃ s1, WeakPtr.copy (User d) wsrc s = Ok () s1 ∧
         WeakPtr.dtor (User d) s1 = Ok () s) ∧
  (∃ s1, WeakPtr.from_shared (User d) ssrc s = Ok () s1 ∧
         WeakPtr.dtor (User d) s1 = Ok () s).
Proof.
  intros HI Hd Hw Hrw Hs Hrs. split.
  - destruct (block_ hw) as [b|] eqn:Hb.
    + destruct (weak_ref_live s wsrc hw b HI Hw Hb) as (blk & Hblk & Hr1 & Hr2 & _).
      unfold room_weak, weak_of in Hrw. rewrite Hblk in Hrw.
      assert ((weak_counter blk =? INT_MAX) = false) as E1 by lia.
      eexists. split; [|apply wk_dtor_undoes_attach; [done|done|lia..]].
      unfold WeakPtr.copy, WeakPtr.IncrementBlockWeakCounter. munfold. by mrun.
    + eexists. unfold WeakPtr.copy, WeakPtr.dtor, WeakPtr.IncrementBlockWeakCounter,
        WeakPtr.DecrementBlockWeakCounter. munfold. mrun.
      split; [reflexivity|]. mrun. f_equal.
      apply state_eq; simpl; try done. by apply delete_insert_id.
  - destruct (block_ hs) as [b|] eqn:Hb.
    + destruct (strong_ref_live s ssrc hs b HI Hs Hb) as (blk & Hblk & Hr1 & Hr2 & _).
      unfold room_weak, weak_of in Hrs. rewrite Hblk in Hrs.
      assert ((weak_counter blk =? INT_MAX) = false) as E1 by lia.
      eexists. split; [|apply wk_dtor_undoes_attach; [done|done|lia..]].
      unfold WeakPtr.from_shared, WeakPtr.IncrementBlockWeakCounter. munfold. by mrun.
    + eexists. unfold WeakPtr.from_shared, WeakPtr.dtor,
        WeakPtr.IncrementBlockWeakCounter, WeakPtr.DecrementBlockWeakCounter.
      munfold. mrun.
      split; [reflexivity|]. mrun. f_equal.
      apply state_eq; simpl; try done. by apply delete_insert_id.
Qed.

Lemma weak_copy_then_destroy_restores_witness :
  (∃ s1, WeakPtr.copy (User 3) (User 0) widget_last_strong_state = Ok () s1 ∧
         WeakPtr.dtor (User 3) s1 = Ok () widget_last_strong_state) ∧
  (∃ s1, WeakPtr.from_shared (User 3) 2 widget_prefix_state = Ok () s1 ∧
         WeakPtr.dtor (User 3) s1 = Ok () widget_prefix_state).
Proof.
  assert (run widget_prefix init = Some widget_prefix_state) as Hrun
    by (vm_compute; reflexivity).
  assert (run (widget_prefix ++ [ShReset 2]) init = Some widget_last_strong_state)
    as Hrun' by (vm_compute; reflexivity).
  split.
  - apply (weak_copy_then_destroy_restores widget_last_strong_state 3 (User 0) 2
             {| ptr_ := 100; block_ := Some 0%nat |} {| ptr_ := 0; block_ := None |}
             (reachable_Inv _ _ Hrun')); by vm_compute.
  - apply (weak_copy_then_destroy_restores widget_prefix_state 3 (User 0) 2
             {| ptr_ := 100; block_ := Some 0%nat |}
             {| ptr_ := 100; block_ := Some 0%nat |}
             (reachable_Inv _ _ Hrun)); by vm_compute.
Defined.

(** X3. A strong handle obtained by [Lock] and destroyed again leaves the
    program state exactly as it was, whether the weak handle was expired
    (the locked handle is empty) or not. *)
Theorem Lock_then_destroy_restores (s : State) (d : nat) (w : WeakId)
    (h : Handle) :
  Inv s → weak s !! w = Some h → shared s !! d = None →
  room_strong (block_ h) s = true →
  ∃ s1, Lock d w s = Ok () s1 ∧ SharedPtr.dtor d s1 = Ok () s.
Proof.
  intros HI Hw Hd Hroom.
  assert (∃ s1, SharedPtr.default d s = Ok () s1 ∧ SharedPtr.dtor d s1 = Ok () s)
    as Hempty.
  { eexists. unfold SharedPtr.default, SharedPtr.dtor,
      SharedPtr.DecrementBlockStrongCounter, empty_handle. munfold. mrun.
    split; [reflexivity|]. mrun. f_equal.
    apply state_eq; simpl; try done. by apply delete_insert_id. }
  unfold Lock, WeakPtr.UseCount. munfold. mrun.
  destruct (block_ h) as [b|] eqn:Hb; mrun.
  - destruct (weak_ref_live s w h b HI Hw Hb) as (blk & Hblk & Hr1 & Hr2 & _).
    unfold room_strong, strong_of in Hroom. rewrite Hblk in Hroom. mrun.
    rewrite to_size_t_eq_0 by (unfold INT_MIN; lia).
    destruct (strong_counter blk =? 0) eqn:Hz; [done|].
    assert ((strong_counter blk =? INT_MAX) = false) as E1 by lia.
    eexists. split; [|apply dtor_undoes_attach; [done|done|lia|lia]].
    unfold SharedPtr.promote. munfold. by mrun.
  - change (0 =? 0) with true. done.
Qed.

Lemma Lock_then_destroy_restores_witness :
  (∃ s1, Lock 6 (User 0) widget_expired_state = Ok () s1 ∧
         SharedPtr.dtor 6 s1 = Ok () widget_expired_state) ∧
  (∃ s1, Lock 6 (User 0) widget_prefix_state = Ok () s1 ∧
         SharedPtr.dtor 6 s1 = Ok () widget_prefix_state).
Proof.
  assert (run widget_prefix init = Some widget_prefix_state) as Hrun
    by (vm_compute; reflexivity).
  assert (run widget_expired init = Some widget_expired_state) as Hrun'
    by (vm_compute; reflexivity).
  split.
  - apply (Lock_then_destroy_restores widget_expired_state 6 (User 0)
             {| ptr_ := 100; block_ := Some 0%nat |}
             (reachable_Inv _ _ Hrun')); by vm_compute.
  - apply (Lock_then_destroy_restores widget_prefix_state 6 (User 0)
             {| ptr_ := 100; block_ := Some 0%nat |}
             (reachable_Inv _ _ Hrun)); by vm_compute.
Defined.

(** X4. Move-assigning a handle to itself: the strong handle has a guard
    and changes nothing; the weak handle has none, so it releases its block
    and is left empty, exactly as [Reset] does. *)
Theorem self_move_assignment (s : State) (t : nat) (w : WeakId) :
  SharedPtr.move_assign t t s = Ok () s ∧
  WeakPtr.move_assign w w s = WeakPtr.Reset w s.
Proof.
  split.
  - unfold SharedPtr.move_assign. by rewrite decide_True.
  - unfold WeakPtr.move_assign, WeakPtr.Reset, WeakPtr.swap_ptr,
      WeakPtr.swap_block. munfold.
    destruct (WeakPtr.DecrementBlockWeakCounter w s) as [[] s1|s1|]; [|done..].
    destruct (weak s1 !! w) as [h|] eqn:Hw; [|done]. mrun.
    f_equal. apply state_eq; try done. msimpl.
    by rewrite !insert_insert_eq.
Qed.

Lemma self_move_assignment_empties :
  ∃ s', WeakPtr.move_assign (User 0) (User 0) widget_prefix_state = Ok () s' ∧
    weak s' !! User 0 = Some empty_handle ∧
    weak_of widget_prefix_state 0%nat = 1 ∧ weak_of s' 0%nat = 0.
Proof. eexists. split; [by vm_compute|]. by vm_compute. Qed.

(** X5. [Swap] is its own inverse and does not depend on which of the two
    handles it is called on, for strong and for weak handles. *)
Theorem Swap_involutive_symmetric (s : State) (a b : nat) (ha hb : Handle)
    (wa wb : WeakId) (ka kb : Handle) :
  shared s !! a = Some ha → shared s !! b = Some hb →
  weak s !! wa = Some ka → weak s !! wb = Some kb →
  (SharedPtr.Swap a b;; SharedPtr.Swap a b) s = Ok () s ∧
  SharedPtr.Swap a b s = SharedPtr.Swap b a s ∧
  (WeakPtr.Swap wa wb;; WeakPtr.Swap wa wb) s = Ok () s ∧
  WeakPtr.Swap wa wb s = WeakPtr.Swap wb wa s.
Proof.
  intros Ha Hb Hwa Hwb.
  destruct ha as [pa ba], hb as [pb bb], ka as [qa ca], kb as [qb cb].
  split; [|split; [|split]].
  - unfold SharedPtr.Swap, SharedPtr.swap_ptr, SharedPtr.swap_block. munfold.
    destruct (decide (a = b)) as [->|Hne].
    + rewrite Ha in Hb. injection Hb as -> ->. mrun. f_equal.
      apply state_eq; try done. msimpl. rewrite !insert_insert_eq.
      by apply insert_id.
    + mrun. f_equal. apply state_eq; try done. msimpl.
      apply map_eq. intros i.
      destruct (decide (i = b)) as [->|Hib]; [by rewrite lookup_insert_eq|].
      rewrite lookup_insert_ne by done.
      destruct (decide (i = a)) as [->|Hia]; [by rewrite lookup_insert_eq|].
      by rewrite !lookup_insert_ne by done.
  - unfold SharedPtr.Swap, SharedPtr.swap_ptr, SharedPtr.swap_block. munfold.
    destruct (decide (a = b)) as [->|Hne]; [done|].
    mrun. f_equal. apply state_eq; try done. msimpl.
    apply map_eq. intros i.
    destruct (decide (i = b)) as [->|Hib]; [by mrun|].
    destruct (decide (i = a)) as [->|Hia]; by mrun.
  - unfold WeakPtr.Swap, WeakPtr.swap_ptr, WeakPtr.swap_block. munfold.
    destruct (decide (wa = wb)) as [->|Hne].
    + rewrite Hwa in Hwb. injection Hwb as -> ->. mrun. f_equal.
      apply state_eq; try done. msimpl. rewrite !insert_insert_eq.
      by apply insert_id.
    + mrun. f_equal. apply state_eq; try done. msimpl.
      apply map_eq. intros i.
      destruct (decide (i = wb)) as [->|Hib]; [by rewrite lookup_insert_eq|].
      rewrite lookup_insert_ne by done.
      destruct (decide (i = wa)) as [->|Hia]; [by rewrite lookup_insert_eq|].
      by rewrite !lookup_insert_ne by done.
  - unfold WeakPtr.Swap, WeakPtr.swap_ptr, WeakPtr.swap_block. munfold.
    destruct (decide (wa = wb)) as [->|Hne]; [done|].
    mrun. f_equal. apply state_eq; try done. msimpl.
    apply map_eq. intros i.
    destruct (decide (i = wb)) as [->|Hib]; [by mrun|].
    destruct (decide (i = wa)) as [->|Hia]; by mrun.
Qed.

Lemma Swap_involutive_symmetric_witness :
  (SharedPtr.Swap 1 2;; SharedPtr.Swap 1 2) widget_prefix_state =
    Ok () widget_prefix_state ∧
  SharedPtr.Swap 1 2 widget_prefix_state = SharedPtr.Swap 2 1 widget_prefix_state ∧
  (WeakPtr.Swap (User 0) (User 0);; WeakPtr.Swap (User 0) (User 0))
    widget_prefix_state = Ok () widget_prefix_state ∧
  WeakPtr.Swap (User 0) (User 0) widget_prefix_state =
    WeakPtr.Swap (User 0) (User 0) widget_prefix_state.
Proof.
  apply (Swap_involutive_symmetric widget_prefix_state 1 2
           {| ptr_ := 0; block_ := None |}
           {| ptr_ := 100; block_ := Some 0%nat |}
           (User 0) (User 0)
           {| ptr_ := 100; block_ := Some 0%nat |}
           {| ptr_ := 100; block_ := Some 0%nat |}); by vm_compute.
Defined.

(** X6. In a state that satisfies the invariant, [UseCount] of a strong or
    weak handle is the number of strong handles attached to its block
    without any wrap-around in the conversion to [size_t], it is at least 1
    for an attached strong handle, and [Expired] holds exactly when
    [UseCount] is 0. *)
Theorem UseCount_counts_strong_handles (s : State) (t : nat) (w : WeakId)
    (h k : Handle) :
  Inv s → shared s !! t = Some h → weak s !! w = Some k →
  SharedPtr.UseCount t s =
    Ok (match block_ h with Some b => refs b (shared s) | None => 0 end) s ∧
  (∀ b, block_ h = Some b → SharedPtr.UseCount t s ≠ Ok 0 s) ∧
  WeakPtr.UseCount w s =
    Ok (match block_ k with Some b => refs b (shared s) | None => 0 end) s ∧
  (∀ n, WeakPtr.UseCount w s = Ok n s → WeakPtr.Expired w s = Ok (n =? 0) s).
Proof.
  intros HI Ht Hw.
  assert (SharedPtr.UseCount t s =
    Ok (match block_ h with Some b => refs b (shared s) | None => 0 end) s) as E1.
  { unfold SharedPtr.UseCount. munfold. mrun.
    destruct (block_ h) as [b|] eqn:Hb; [|done].
    destruct (strong_ref_live s t h b HI Ht Hb) as (blk & Hblk & Hr1 & _ & Hc & _).
    mrun. rewrite to_size_t_small by lia. by rewrite Hc. }
  assert (WeakPtr.UseCount w s =
    Ok (match block_ k with Some b => refs b (shared s) | None => 0 end) s) as E2.
  { unfold WeakPtr.UseCount. munfold. mrun.
    destruct (block_ k) as [b|] eqn:Hb; [|done].
    destruct (weak_ref_live s w k b HI Hw Hb) as (blk & Hblk & Hr1 & _ & Hc & _).
    mrun. rewrite to_size_t_small by lia. by rewrite Hc. }
  split; [done|]. split; [|split; [done|]].
  - intros b Hb. rewrite E1, Hb. intros [= Hz].
    pose proof (refs_ge_1 b _ _ _ Ht Hb). lia.
  - intros n. rewrite E2. intros [= <-].
    unfold WeakPtr.Expired. munfold. mrun.
    destruct (block_ k) as [b|] eqn:Hb; [|done].
    destruct (weak_ref_live s w k b HI Hw Hb) as (blk & Hblk & Hr1 & _ & Hc & _).
    mrun. by rewrite Hc.
Qed.

Lemma UseCount_counts_strong_handles_witness :
  SharedPtr.UseCount 2 widget_prefix_state =
    Ok (refs 0%nat (shared widget_prefix_state)) widget_prefix_state ∧
  WeakPtr.UseCount (User 0) widget_prefix_state =
    Ok (refs 0%nat (shared widget_prefix_state)) widget_prefix_state.
Proof.
  assert (run widget_prefix init = Some widget_prefix_state) as Hrun
    by (vm_compute; reflexivity).
  destruct (UseCount_counts_strong_handles widget_prefix_state 2 (User 0)
              {| ptr_ := 100; block_ := Some 0%nat |}
              {| ptr_ := 100; block_ := Some 0%nat |}
              (reachable_Inv _ _ Hrun)) as (H1 & _ & H2 & _);
    [by vm_compute..|].
  split; assumption.
Defined.

Lemma run_good os s s' :
  Inv s → run os s = Some s' →
  Inv s' ∧ (next s ≤ next s')%nat ∧ trace s `prefix_of` trace s'.
Proof.
  revert s. induction os as [|o os IH]; intros s HI; simpl.
  - intros [= <-]. done.
  - destruct (after o s) as [s1|] eqn:Ho; [|done]. intros Hrun.
    destruct (after_good o s s1 HI Ho) as (HI1 & _ & Hn & Hp).
    destruct (IH s1 HI1 Hrun) as (HI' & Hn' & Hp').
    split; [done|]. split; [lia|]. by etrans.
Qed.

Lemma occ_prefix e l k : l `prefix_of` k → occ e l ≤ occ e k.
Proof.
  intros [m ->]. rewrite occ_app. pose proof (occ_nonneg e m). lia.
Qed.

(** X7. A block whose last strong handle is gone never gets a strong handle
    again, whatever the client does afterwards: its payload stays destroyed
    exactly once, every weak handle attached to it stays expired, and a
    block that has been freed is never allocated again. *)
Theorem expired_stays_expired (os os' : list op) (s s' : State) (b : nat) :
  run os init = Some s → run os' s = Some s' → (b < next s)%nat →
  refs b (shared s) = 0 →
  refs b (shared s') = 0 ∧ deleted s' b = 1 ∧
  (∀ w k, weak s' !! w = Some k → block_ k = Some b →
     WeakPtr.Expired w s' = Ok true s') ∧
  (heap s !! b = None → heap s' !! b = None).
Proof.
  intros Hrun Hrun' Hb Hz. pose proof (reachable_Inv _ _ Hrun) as HI.
  destruct (run_good _ _ _ HI Hrun') as (HI' & Hn & Hp).
  destruct (Inv_counters s b HI) as (Hs & _ & _).
  destruct (Inv_counters s' b HI') as (Hs' & _ & _).
  pose proof (g_deleted _ _ _ _ HI b Hb ltac:(done)) as Hd.
  pose proof (g_deleted _ _ _ _ HI' b ltac:(lia) ltac:(done)) as Hd'.
  pose proof (occ_prefix (EvDeletePointer b) _ _ Hp) as Hle.
  fold (deleted s b) in Hle. fold (deleted s' b) in Hle.
  rewrite Hs, Hz in Hd. simpl in Hd.
  pose proof (refs_nonneg b (shared s')) as Hnn.
  assert (strong_of s' b = 0) as Hz'.
  { destruct (0 <? strong_of s' b) eqn:E; lia. }
  split; [lia|]. split; [rewrite Hd', Hz'; done|]. split.
  - intros w k Hw Hk.
    destruct (weak_ref_live s' w k b HI' Hw Hk) as (blk & Hblk & _ & _ & Hc & _).
    unfold WeakPtr.Expired. munfold. mrun.
    replace (strong_counter blk =? 0) with true by lia. done.
  - intros Hnone.
    pose proof (g_freed _ _ _ _ HI b Hb) as Hf. rewrite Hnone in Hf.
    pose proof (g_freed _ _ _ _ HI' b ltac:(lia)) as Hf'.
    pose proof (occ_prefix (EvDeleteBlock b) _ _ Hp) as Hle'.
    fold (freed s b) in Hle'. fold (freed s' b) in Hle'.
    destruct (heap s' !! b); [lia|done].
Qed.

Lemma expired_stays_expired_witness :
  refs 0%nat (shared (state_after (widget_expired ++ [ShMake 7 200 false; ShCopy 8 7]))) = 0 ∧
  WeakPtr.Expired (User 0)
    (state_after (widget_expired ++ [ShMake 7 200 false; ShCopy 8 7])) =
    Ok true (state_after (widget_expired ++ [ShMake 7 200 false; ShCopy 8 7])).
Proof.
  assert (run widget_expired init = Some widget_expired_state) as Hrun
    by (vm_compute; reflexivity).
  assert (run [ShMake 7 200 false; ShCopy 8 7] widget_expired_state =
    Some (state_after (widget_expired ++ [ShMake 7 200 false; ShCopy 8 7])))
    as Hrun' by (vm_compute; reflexivity).
  destruct (expired_stays_expired widget_expired [ShMake 7 200 false; ShCopy 8 7]
              widget_expired_state _ 0%nat Hrun Hrun') as (H1 & _ & H2 & _);
    [vm_compute; lia|by vm_compute|].
  split; [exact H1|].
  apply (H2 (User 0) {| ptr_ := 100; block_ := Some 0%nat |}); by vm_compute.
Defined.

(** X8. Nothing leaks: when the client has destroyed all its strong and
    weak handles, no control block and no [weak_this] member is left, and
    every block that was ever allocated has had its payload destroyed
    exactly once and has been freed exactly once. *)
Theorem nothing_leaks (os : list op) (s : State) :
  run os init = Some s → shared s = ∅ → (∀ n, weak s !! User n = None) →
  heap s = ∅ ∧ weak s = ∅ ∧
  ∀ b, (b < next s)%nat → deleted s b = 1 ∧ freed s b = 1.
Proof.
  intros Hrun Hsh Hwk. pose proof (reachable_Inv _ _ Hrun) as HI.
  assert (∀ b, strong_of s b = 0) as Hs0.
  { intros b. destruct (Inv_counters s b HI) as (Hs & _ & _).
    rewrite Hs, Hsh. apply refs_empty. }
  assert (weak s = ∅) as Hw0.
  { apply map_eq. intros [n|b|]; rewrite lookup_empty.
    - apply Hwk.
    - pose proof (g_this _ _ _ _ HI b ltac:(done)) as Ht. rewrite Hs0 in Ht.
      destruct (weak s !! WeakThis b) eqn:E; [|done].
      destruct (proj1 Ht ltac:(by eexists)). lia.
    - apply HI. }
  assert (heap s = ∅) as Hh0.
  { apply map_eq. intros b. rewrite lookup_empty.
    destruct (Inv_counters s b HI) as (_ & _ & Hl).
    rewrite Hsh, Hw0, !refs_empty in Hl.
    destruct (heap s !! b) eqn:E; [|done].
    pose proof (proj1 Hl ltac:(by eexists)). lia. }
  split; [done|]. split; [done|]. intros b Hb.
  pose proof (g_deleted _ _ _ _ HI b Hb ltac:(done)) as Hd.
  pose proof (g_freed _ _ _ _ HI b Hb) as Hf.
  rewrite Hs0 in Hd. rewrite Hh0, lookup_empty in Hf. done.
Qed.

Lemma nothing_leaks_witness :
  heap (state_after [ShMake 1 100 true; ShAdopt 2 200 false; WkDemote 0 1;
                     ShDtor 1; ShDtor 2; WkDtor 0]) = ∅ ∧
  ∀ b, (b < 2)%nat →
    deleted (state_after [ShMake 1 100 true; ShAdopt 2 200 false; WkDemote 0 1;
                          ShDtor 1; ShDtor 2; WkDtor 0]) b = 1 ∧
    freed (state_after [ShMake 1 100 true; ShAdopt 2 200 false; WkDemote 0 1;
                        ShDtor 1; ShDtor 2; WkDtor 0]) b = 1.
Proof.
  destruct (nothing_leaks
    [ShMake 1 100 true; ShAdopt 2 200 false; WkDemote 0 1;
     ShDtor 1; ShDtor 2; WkDtor 0]
    (state_after [ShMake 1 100 true; ShAdopt 2 200 false; WkDemote 0 1;
                  ShDtor 1; ShDtor 2; WkDtor 0])) as (H1 & _ & H2);
    [by vm_compute|by vm_compute|intros n; by vm_compute|].
  split; [exact H1|]. exact H2.
Defined.

(** Comparisons of literals are evaluated. *)
Ltac mconst :=
  match goal with
  | |- context [if ?c then _ else _] =>
      let v := eval vm_compute in c in
      match v with
      | true => change c with true
      | false => change c with false
      end
  end.

Ltac mconsts := mrun; repeat (mconst; mrun).

Lemma temp_weak_cleanup (m : gmap WeakId Handle) b h1 h2 h3 h4 h5 h6 h7 h8 :
  m !! WeakThis b = None → m !! Temp = None →
  delete (WeakThis b)
    (delete Temp
       (<[Temp := h1]> (<[WeakThis b := h2]> (<[Temp := h3]> (<[WeakThis b := h4]>
          (<[WeakThis b := h5]> (<[WeakThis b := h6]> (<[Temp := h7]>
             (<[WeakThis b := h8]> m))))))))) = m.
Proof.
  intros Hb HT. apply map_eq. intros i.
  destruct (decide (i = WeakThis b)) as [->|Hib]; [by mrun|].
  destruct (decide (i = Temp)) as [->|HiT]; by mrun.
Qed.

(** X9. A strong handle that is constructed on a raw pointer or by
    [MakeShared] and destroyed while it is the only owner leaves no residue,
    with or without the self-observation capability: the payload is
    destroyed and the block freed, once each and in this order, the
    installed [weak_this] does not keep the block alive, and all stores are
    as before.  The handle on a raw pointer owns a block ([UseCount] is 1)
    also when the pointer is null. *)
Theorem temporary_owner_cleans_up (s : State) (d : nat) (p : addr) (cap : bool) :
  Inv s → shared s !! d = None → (cap = true → p ≠ nullptr) →
  (∃ s1, SharedPtr.adopt d p cap s = Ok () s1 ∧
     SharedPtr.UseCount d s1 = Ok 1 s1 ∧
     SharedPtr.to_bool d s1 = Ok (negb (p =? nullptr)) s1 ∧
     SharedPtr.dtor d s1 = Ok () (after_temporary s)) ∧
  (∃ s1, SharedPtr.MakeShared d p cap s = Ok () s1 ∧
     SharedPtr.UseCount d s1 = Ok 1 s1 ∧
     SharedPtr.dtor d s1 = Ok () (after_temporary s)).
Proof.
  intros HI Hd Hp.
  pose proof (fresh_weak_this _ _ _ (next s) HI ltac:(lia)) as Hwt.
  pose proof (g_temp _ _ _ _ HI) as HT.
  destruct (g_fresh _ _ _ _ HI (next s) ltac:(lia)) as (Hnone & _ & _).
  assert ((cap && (p =? nullptr)) = false) as Hcp.
  { destruct cap; [|done]. specialize (Hp eq_refl). unfold nullptr in *. simpl. lia. }
  unfold SharedPtr.adopt, SharedPtr.MakeShared, new_block,
    SharedPtr.UseCount, SharedPtr.to_bool, SharedPtr.dtor,
    SharedPtr.DecrementBlockStrongCounter, DeletePointer,
    SharedPtr.install_weak_this, WeakPtr.from_shared, WeakPtr.move_assign,
    WeakPtr.dtor, WeakPtr.IncrementBlockWeakCounter,
    WeakPtr.DecrementBlockWeakCounter, WeakPtr.swap_ptr, WeakPtr.swap_block,
    after_temporary, empty_handle.
  rewrite Hcp. munfold. destruct cap.
  - split.
    + eexists. mconsts. split; [reflexivity|]. mconsts.
      split; [done|]. split; [done|].
      f_equal. apply state_eq; msimpl.
      * rewrite !insert_insert_eq. by apply delete_insert_id.
      * by apply delete_insert_id.
      * by apply temp_weak_cleanup.
      * by rewrite <-!app_assoc.
      * done.
    + eexists. mconsts. split; [reflexivity|]. mconsts. split; [done|].
      f_equal. apply state_eq; msimpl.
      * rewrite !insert_insert_eq. by apply delete_insert_id.
      * by apply delete_insert_id.
      * by apply temp_weak_cleanup.
      * by rewrite <-!app_assoc.
      * done.
  - split.
    + eexists. mconsts. split; [reflexivity|]. mconsts.
      split; [done|]. split; [done|].
      f_equal. apply state_eq; msimpl; try done.
      * by apply delete_insert_id.
      * by apply delete_insert_id.
      * by rewrite <-!app_assoc.
    + eexists. mconsts. split; [reflexivity|]. mconsts. split; [done|].
      f_equal. apply state_eq; msimpl; try done.
      * by apply delete_insert_id.
      * by apply delete_insert_id.
      * by rewrite <-!app_assoc.
Qed.

Lemma temporary_owner_cleans_up_witness :
  (∃ s1, SharedPtr.adopt 7 0 false widget_prefix_state = Ok () s1 ∧
     SharedPtr.UseCount 7 s1 = Ok 1 s1 ∧
     SharedPtr.to_bool 7 s1 = Ok false s1 ∧
     SharedPtr.dtor 7 s1 = Ok () (after_temporary widget_prefix_state)) ∧
  (∃ s1, SharedPtr.MakeShared 7 300 true widget_prefix_state = Ok () s1 ∧
     SharedPtr.UseCount 7 s1 = Ok 1 s1 ∧
     SharedPtr.dtor 7 s1 = Ok () (after_temporary widget_prefix_state)).
Proof.
  assert (run widget_prefix init = Some widget_prefix_state) as Hrun
    by (vm_compute; reflexivity).
  split.
  - apply (temporary_owner_cleans_up widget_prefix_state 7 0 false
             (reachable_Inv _ _ Hrun)); [by vm_compute|done].
  - apply (temporary_owner_cleans_up widget_prefix_state 7 300 true
             (reachable_Inv _ _ Hrun)); [by vm_compute|done].
Defined.

(** X10. [Reset(ptr)] on a live strong handle, in a state that satisfies
    the invariant, always succeeds and leaves the handle the only owner of a
    new block for [ptr] ([Get] is [ptr], [UseCount] is 1, also when [ptr]
    is null).  The payload's [weak_this] is not installed: for a payload with
    the self-observation capability, [SharedFromThis] has no defined
    behaviour afterwards. *)
Theorem Reset_ptr_sole_owner (s : State) (t : nat) (h : Handle) (p : addr)
    (cap : bool) :
  Inv s → shared s !! t = Some h →
  ∃ s1, SharedPtr.Reset_ptr t p cap s = Ok () s1 ∧
    shared s1 !! t = Some {| ptr_ := p; block_ := Some (next s) |} ∧
    heap s1 !! next s =
      Some {| strong_counter := 1; weak_counter := 0; kind := Pointer;
              payload := p; shares_this := cap && negb (p =? nullptr) |} ∧
    SharedPtr.Get t s1 = Ok p s1 ∧ SharedPtr.UseCount t s1 = Ok 1 s1 ∧
    (cap = true → p ≠ nullptr → ∀ d, SharedFromThis d (next s) s1 = UB).
Proof.
  intros HI Ht.
  destruct (strong_release s t h HI Ht) as (s0 & Hrun & Hsh & Hnx & _ & HG & _).
  pose proof (fresh_weak_this _ _ _ (next s0) HG ltac:(lia)) as Hwt.
  rewrite Hnx in Hwt. rewrite <-Hsh in Ht.
  unfold SharedPtr.Reset_ptr, new_block, SharedPtr.Get, SharedPtr.UseCount,
    SharedFromThis, SharedPtr.promote, empty_handle.
  munfold. rewrite Hrun. mrun. rewrite Hnx.
  destruct (cap && negb (p =? nullptr)) eqn:Hc.
  - mrun. eexists. split; [reflexivity|]. mrun.
    do 4 (split; [done|]). intros _ _ d. by mrun.
  - mrun. eexists. split; [reflexivity|]. mrun.
    do 4 (split; [done|]). intros -> Hp. simpl in Hc.
    unfold nullptr in *. apply negb_false_iff in Hc. lia.
Qed.

Lemma Reset_ptr_sole_owner_witness :
  ∃ s1, SharedPtr.Reset_ptr 2 200 true widget_prefix_state = Ok () s1 ∧
    SharedPtr.Get 2 s1 = Ok 200 s1 ∧ SharedPtr.UseCount 2 s1 = Ok 1 s1 ∧
    SharedFromThis 7 1 s1 = UB.
Proof.
  assert (run widget_prefix init = Some widget_prefix_state) as Hrun
    by (vm_compute; reflexivity).
  destruct (Reset_ptr_sole_owner widget_prefix_state 2
              {| ptr_ := 100; block_ := Some 0%nat |} 200 true
              (reachable_Inv _ _ Hrun)) as (s1 & H1 & _ & _ & H2 & H3 & H4);
    [by vm_compute|].
  exists s1. split; [exact H1|]. split; [exact H2|]. split; [exact H3|].
  apply (H4 eq_refl); done.
Defined.

(** X11. Copy assignment between two different strong handles of the same
    block releases the block before it acquires it again, and still
    destroys nothing: the target takes the fields of the source, and the
    heap of control blocks and the trace are the same. *)
Theorem assign_within_group (s : State) (t o : nat) (ht ho : Handle) (b : nat) :
  Inv s → t ≠ o → shared s !! t = Some ht → shared s !! o = Some ho →
  block_ ht = Some b → block_ ho = Some b →
  SharedPtr.assign t o s = Ok () (set_shared <[t := ho]> s).
Proof.
  intros HI Hne Ht Ho Hbt Hbo.
  destruct (strong_ref_live s t ht b HI Ht Hbt) as (blk & Hblk & Hr1 & Hr2 & Hc & _).
  pose proof (refs_ge_2 b _ _ _ _ _ Hne Ht Hbt Ho Hbo) as Hge.
  assert (((strong_counter blk =? 1) && (weak_counter blk =? 0)) = false)
    as E1 by lia.
  assert ((strong_counter blk =? INT_MIN) = false) as E2 by (unfold INT_MIN; lia).
  assert ((strong_counter blk - 1 <=? 0) = false) as E3 by lia.
  assert ((strong_counter blk - 1 =? INT_MAX) = false) as E4 by lia.
  unfold SharedPtr.assign, SharedPtr.DecrementBlockStrongCounter,
    SharedPtr.IncrementBlockStrongCounter.
  rewrite decide_False by done. munfold. mrun.
  f_equal. apply state_eq; msimpl; try done.
  - rewrite insert_insert_eq. apply insert_id. rewrite Hblk. f_equal.
    destruct blk; unfold with_strong; simpl in *. f_equal. lia.
  - rewrite insert_insert_eq. f_equal. destruct ho. simpl in *. by subst.
Qed.

Lemma assign_within_group_witness :
  ∃ s, run [ShMake 1 100 false; ShAlias 2 1 104] init = Some s ∧
    SharedPtr.assign 2 1 s =
      Ok () (set_shared <[2%nat := {| ptr_ := 100; block_ := Some 0%nat |}]> s).
Proof.
  eexists. split; [by vm_compute|].
  apply (assign_within_group _ 2 1 {| ptr_ := 104; block_ := Some 0%nat |}
           {| ptr_ := 100; block_ := Some 0%nat |} 0%nat).
  - apply (reachable_Inv [ShMake 1 100 false; ShAlias 2 1 104]). by vm_compute.
  - lia.
  - by vm_compute.
  - by vm_compute.
  - done.
  - done.
Defined.

(** X12. Moving a handle into a new one and destroying the moved-from
    handle only renames the handle: no counter is touched and nothing is
    destroyed, for strong and for weak handles. *)
Theorem move_then_destroy_renames (s : State) (d src : nat) (h : Handle)
    (wd wsrc : WeakId) (k : Handle) :
  shared s !! src = Some h → shared s !! d = None →
  weak s !! wsrc = Some k → weak s !! wd = None →
  (SharedPtr.move d src;; SharedPtr.dtor src) s =
    Ok () (set_shared (λ m, <[d := h]> (delete src m)) s) ∧
  (WeakPtr.move wd wsrc;; WeakPtr.dtor wsrc) s =
    Ok () (set_weak (λ m, <[wd := k]> (delete wsrc m)) s).
Proof.
  intros Hsrc Hd Hwsrc Hwd.
  assert (d ≠ src) as Hne by congruence.
  assert (wd ≠ wsrc) as Hwne by congruence.
  destruct h as [p b], k as [q c]. split.
  - unfold SharedPtr.move, SharedPtr.dtor, SharedPtr.DecrementBlockStrongCounter.
    munfold. mrun. f_equal. apply state_eq; msimpl; try done.
    apply map_eq. intros i.
    destruct (decide (i = src)) as [->|Hi]; [by mrun|].
    destruct (decide (i = d)) as [->|Hi']; by mrun.
  - unfold WeakPtr.move, WeakPtr.dtor, WeakPtr.DecrementBlockWeakCounter.
    munfold. mrun. f_equal. apply state_eq; msimpl; try done.
    apply map_eq. intros i.
    destruct (decide (i = wsrc)) as [->|Hi]; [by mrun|].
    destruct (decide (i = wd)) as [->|Hi']; by mrun.
Qed.

Lemma move_then_destroy_renames_witness :
  (SharedPtr.move 7 2;; SharedPtr.dtor 2) widget_prefix_state =
    Ok () (set_shared (λ m, <[7%nat := {| ptr_ := 100; block_ := Some 0%nat |}]>
                              (delete 2%nat m)) widget_prefix_state) ∧
  (WeakPtr.move (User 3) (User 0);; WeakPtr.dtor (User 0)) widget_prefix_state =
    Ok () (set_weak (λ m, <[User 3 := {| ptr_ := 100; block_ := Some 0%nat |}]>
                            (delete (User 0) m)) widget_prefix_state).
Proof.
  apply (move_then_destroy_renames widget_prefix_state 7 2
           {| ptr_ := 100; block_ := Some 0%nat |} (User 3) (User 0)
           {| ptr_ := 100; block_ := Some 0%nat |}); by vm_compute.
Defined.

(** X13. The observers of a strong handle read its pointer only: a handle
    built by the aliasing constructor owns the block of its source (so
    [UseCount] agrees for both), yet [operator bool] is false when the given
    pointer is null, and [operator==] with the source holds exactly when the
    given pointer is the source's pointer. *)
Theorem observers_read_the_pointer (s : State) (d src : nat) (h : Handle)
    (q : addr) :
  Inv s → shared s !! src = Some h → shared s !! d = None →
  room_strong (block_ h) s = true →
  ∃ s1, SharedPtr.alias d src q s = Ok () s1 ∧
    sh_block d s1 = sh_block src s1 ∧
    SharedPtr.UseCount d s1 = SharedPtr.UseCount src s1 ∧
    SharedPtr.to_bool d s1 = Ok (negb (q =? nullptr)) s1 ∧
    operator_eq d src s1 = Ok (q =? ptr_ h) s1.
Proof.
  intros HI Hsrc Hd Hroom.
  assert (d ≠ src) as Hne by congruence.
  unfold SharedPtr.alias, SharedPtr.IncrementBlockStrongCounter, sh_block,
    SharedPtr.UseCount, SharedPtr.to_bool, operator_eq, SharedPtr.Get.
  munfold. mrun.
  destruct (block_ h) as [b|] eqn:Hb.
  - destruct (strong_ref_live s src h b HI Hsrc Hb) as (blk & Hblk & Hr1 & _).
    unfold room_strong, strong_of in Hroom. rewrite Hblk in Hroom.
    assert ((strong_counter blk =? INT_MAX) = false) as E1 by lia.
    mrun. eexists. split; [reflexivity|]. mrun. simpl. by rewrite Hb.
  - eexists. split; [reflexivity|]. mrun. simpl. by rewrite Hb.
Qed.

Lemma observers_read_the_pointer_witness :
  ∃ s1, SharedPtr.alias 7 2 0 widget_prefix_state = Ok () s1 ∧
    SharedPtr.UseCount 7 s1 = SharedPtr.UseCount 2 s1 ∧
    SharedPtr.to_bool 7 s1 = Ok false s1 ∧
    operator_eq 7 2 s1 = Ok false s1.
Proof.
  assert (run widget_prefix init = Some widget_prefix_state) as Hrun
    by (vm_compute; reflexivity).
  destruct (observers_read_the_pointer widget_prefix_state 7 2
              {| ptr_ := 100; block_ := Some 0%nat |} 0
              (reachable_Inv _ _ Hrun)) as (s1 & H1 & _ & H2 & H3 & H4);
    [by vm_compute..|].
  exists s1. split; [exact H1|]. split; [exact H2|]. split; [exact H3|exact H4].
Defined.

(** X14. Assignment to a different handle is destruction of the target
    followed by construction from the source, with every outcome the same
    (result state, or undefined behaviour): move assignment is [~T] then
    the move constructor, copy assignment is [~T] then the copy constructor,
    for strong and for weak handles. *)
Theorem assignment_is_destroy_then_construct (s : State) (t o : nat)
    (wt wo : WeakId) :
  t ≠ o → wt ≠ wo →
  SharedPtr.move_assign t o s = (SharedPtr.dtor t;; SharedPtr.move t o) s ∧
  SharedPtr.assign t o s = (SharedPtr.dtor t;; SharedPtr.copy t o) s ∧
  WeakPtr.move_assign wt wo s = (WeakPtr.dtor wt;; WeakPtr.move wt wo) s ∧
  WeakPtr.assign wt wo s = (WeakPtr.dtor wt;; WeakPtr.copy wt wo) s.
Proof.
  intros Hne Hwne. split; [|split; [|split]].
  - unfold SharedPtr.move_assign, SharedPtr.dtor, SharedPtr.move,
      SharedPtr.swap_block, SharedPtr.swap_ptr.
    rewrite decide_False by done. munfold.
    destruct (SharedPtr.DecrementBlockStrongCounter t s) as [[] s1|s1|]; [|done..].
    destruct (shared s1 !! t) as [ht|] eqn:Ht; [|done]. mrun.
    destruct (shared s1 !! o) as [ho|] eqn:Ho; [|done]. mrun.
    f_equal. apply state_eq; msimpl; try done.
    apply map_eq. intros i.
    destruct (decide (i = o)) as [->|Hio]; [by mrun|].
    destruct (decide (i = t)) as [->|Hit]; by mrun.
  - unfold SharedPtr.assign, SharedPtr.dtor, SharedPtr.copy,
      SharedPtr.IncrementBlockStrongCounter.
    rewrite decide_False by done. munfold.
    destruct (SharedPtr.DecrementBlockStrongCounter t s) as [[] s1|s1|]; [|done..].
    destruct (shared s1 !! t) as [ht|] eqn:Ht;
      [|destruct (shared s1 !! o); by mrun]. mrun.
    destruct (shared s1 !! o) as [ho|] eqn:Ho; [|done]. mrun.
    destruct (block_ ho) as [b|] eqn:Hb; mrun.
    + destruct (heap s1 !! b) as [blk|] eqn:Hblk; [|done]. mrun.
      destruct (strong_counter blk =? INT_MAX) eqn:E; [done|]. mrun.
      f_equal. apply state_eq; msimpl; try done.
      apply map_eq. intros i.
      destruct (decide (i = t)) as [->|Hit]; by mrun.
    + f_equal. apply state_eq; msimpl; try done.
      apply map_eq. intros i.
      destruct (decide (i = t)) as [->|Hit]; by mrun.
  - unfold WeakPtr.move_assign, WeakPtr.dtor, WeakPtr.move,
      WeakPtr.swap_block, WeakPtr.swap_ptr. munfold.
    destruct (WeakPtr.DecrementBlockWeakCounter wt s) as [[] s1|s1|]; [|done..].
    destruct (weak s1 !! wt) as [ht|] eqn:Ht; [|done]. mrun.
    destruct (weak s1 !! wo) as [ho|] eqn:Ho; [|done]. mrun.
    f_equal. apply state_eq; msimpl; try done.
    apply map_eq. intros i.
    destruct (decide (i = wo)) as [->|Hio]; [by mrun|].
    destruct (decide (i = wt)) as [->|Hit]; by mrun.
  - unfold WeakPtr.assign, WeakPtr.dtor, WeakPtr.copy,
      WeakPtr.IncrementBlockWeakCounter.
    rewrite decide_False by done. munfold.
    destruct (WeakPtr.DecrementBlockWeakCounter wt s) as [[] s1|s1|]; [|done..].
    destruct (weak s1 !! wt) as [ht|] eqn:Ht;
      [|destruct (weak s1 !! wo); by mrun]. mrun.
    destruct (weak s1 !! wo) as [ho|] eqn:Ho; [|done]. mrun.
    destruct (block_ ho) as [b|] eqn:Hb; mrun.
    + destruct (heap s1 !! b) as [blk|] eqn:Hblk; [|done]. mrun.
      destruct (weak_counter blk =? INT_MAX) eqn:E; [done|]. mrun.
      f_equal. apply state_eq; msimpl; try done.
      apply map_eq. intros i.
      destruct (decide (i = wt)) as [->|Hit]; by mrun.
    + f_equal. apply state_eq; msimpl; try done.
      apply map_eq. intros i.
      destruct (decide (i = wt)) as [->|Hit]; by mrun.
Qed.

Lemma assignment_is_destroy_then_construct_witness :
  SharedPtr.move_assign 1 2 widget_prefix_state =
    (SharedPtr.dtor 1;; SharedPtr.move 1 2) widget_prefix_state ∧
  SharedPtr.assign 1 2 widget_prefix_state =
    (SharedPtr.dtor 1;; SharedPtr.copy 1 2) widget_prefix_state ∧
  WeakPtr.move_assign (User 0) (User 1) widget_prefix_state =
    (WeakPtr.dtor (User 0);; WeakPtr.move (User 0) (User 1)) widget_prefix_state ∧
  WeakPtr.assign (User 0) (User 1) widget_prefix_state =
    (WeakPtr.dtor (User 0);; WeakPtr.copy (User 0) (User 1)) widget_prefix_state.
Proof.
  apply (assignment_is_destroy_then_construct widget_prefix_state 1 2
           (User 0) (User 1)); [lia|done].
Defined.

(** ** More on the exclusive handle *)

(** X15. Move assignment of an exclusive handle from a handle that holds
    another pointer is the destructor of the target followed by move
    construction from the source: the same policy call, on the pointer the
    target still holds, and the same two handles.  From a handle that holds
    the same pointer (the handle itself, or both empty) it does nothing:
    the policy is neither called nor transferred. *)
Theorem unique_move_assign_law {Deleter : Type} (moved : Deleter → Deleter)
    (this other : UniquePtr.UniquePtr Deleter) :
  (UniquePtr.Get this ≠ UniquePtr.Get other →
     ∃ acts,
       UniquePtr.move_assign moved this other =
         (fst (UniquePtr.move moved other), snd (UniquePtr.move moved other), acts) ∧
       UniquePtr.policy_calls acts = UniquePtr.policy_calls (UniquePtr.dtor this) ∧
       UniquePtr.calls (UniquePtr.Get this) acts =
         [(UniquePtr.Get this, UniquePtr.Get this)]) ∧
  (UniquePtr.Get this = UniquePtr.Get other →
     UniquePtr.move_assign moved this other = (this, other, [])).
Proof.
  unfold UniquePtr.move_assign. split.
  - intros Hne. apply Z.eqb_neq in Hne. rewrite Hne. by eexists.
  - intros ->. by rewrite Z.eqb_refl.
Qed.

Lemma unique_move_assign_law_witness :
  (∃ acts,
     UniquePtr.move_assign (λ _, false)
       {| UniquePtr.first := 1; UniquePtr.second := true |}
       {| UniquePtr.first := 2; UniquePtr.second := true |} =
       ({| UniquePtr.first := 2; UniquePtr.second := true |},
        {| UniquePtr.first := 0; UniquePtr.second := false |}, acts) ∧
     UniquePtr.policy_calls acts = [(true, 1)]) ∧
  UniquePtr.move_assign (λ _, false)
    {| UniquePtr.first := 0; UniquePtr.second := false |}
    {| UniquePtr.first := 0; UniquePtr.second := true |} =
    ({| UniquePtr.first := 0; UniquePtr.second := false |},
     {| UniquePtr.first := 0; UniquePtr.second := true |}, []).
Proof.
  split.
  - destruct (proj1 (unique_move_assign_law (λ _, false)
       {| UniquePtr.first := 1; UniquePtr.second := true |}
       {| UniquePtr.first := 2; UniquePtr.second := true |}))
      as (acts & H1 & H2 & _); [done|].
    exists acts. split; [exact H1|exact H2].
  - apply (proj2 (unique_move_assign_law (λ _, false)
       {| UniquePtr.first := 0; UniquePtr.second := false |}
       {| UniquePtr.first := 0; UniquePtr.second := true |})). done.
Defined.

(** X16. [Release] returns the pointer, empties the handle and calls no
    policy; the released pointer is never passed to the policy afterwards.
    The destructor, [Reset] and assignment of [nullptr] do not test for an
    empty handle: on the released handle each calls the policy once, on
    [nullptr]. *)
Theorem unique_release_gives_up_ownership {Deleter : Type}
    (u : UniquePtr.UniquePtr Deleter) (q : addr) :
  ∃ u' acts,
    UniquePtr.Release u = (UniquePtr.Get u, u', acts) ∧
    UniquePtr.policy_calls acts = [] ∧
    UniquePtr.Get u' = nullptr ∧ UniquePtr.to_bool u' = false ∧
    UniquePtr.policy_calls (UniquePtr.dtor u') = [(UniquePtr.GetDeleter u, nullptr)] ∧
    UniquePtr.policy_calls (snd (UniquePtr.assign_nullptr u')) =
      [(UniquePtr.GetDeleter u, nullptr)] ∧
    UniquePtr.policy_calls (snd (UniquePtr.Reset q u')) =
      [(UniquePtr.GetDeleter u, nullptr)].
Proof. destruct u. by eexists _, _. Qed.

Section Exclusive.
Context {Deleter : Type} (moved : Deleter → Deleter).
Implicit Types (σ : UniquePtr.Sys Deleter) (u : UniquePtr.UniquePtr Deleter).

Lemma held_lookup σ i u :
  UniquePtr.objs σ !! i = Some u → UniquePtr.held σ i = UniquePtr.first u.
Proof. unfold UniquePtr.held. by intros ->. Qed.

Lemma held_insert (m : gmap nat (UniquePtr.UniquePtr Deleter)) l l' t u i :
  UniquePtr.held {| UniquePtr.objs := <[t := u]> m; UniquePtr.log := l |} i =
    if decide (i = t) then UniquePtr.first u
    else UniquePtr.held {| UniquePtr.objs := m; UniquePtr.log := l' |} i.
Proof.
  unfold UniquePtr.held. simpl. case_decide as E.
  - subst. by rewrite lookup_insert_eq.
  - by rewrite lookup_insert_ne.
Qed.

Lemma held_delete (m : gmap nat (UniquePtr.UniquePtr Deleter)) l l' t i :
  UniquePtr.held {| UniquePtr.objs := delete t m; UniquePtr.log := l |} i =
    if decide (i = t) then nullptr
    else UniquePtr.held {| UniquePtr.objs := m; UniquePtr.log := l' |} i.
Proof.
  unfold UniquePtr.held. simpl. case_decide as E.
  - subst. by rewrite lookup_delete_eq.
  - by rewrite lookup_delete_ne.
Qed.

Lemma held_objs σ l i :
  UniquePtr.held {| UniquePtr.objs := UniquePtr.objs σ; UniquePtr.log := l |} i =
    UniquePtr.held σ i.
Proof. done. Qed.

Lemma owned_false σ p i :
  UniquePtr.owned σ p = false → p ≠ nullptr → UniquePtr.held σ i ≠ p.
Proof.
  unfold UniquePtr.owned, UniquePtr.held. intros Ho Hp Hi.
  apply bool_decide_eq_false in Ho. apply Ho.
  destruct (UniquePtr.objs σ !! i) as [u|] eqn:E; [|congruence].
  apply Exists_exists. exists (i, u). split; [|done].
  by apply elem_of_map_to_list.
Qed.

Lemma fresh_ptr σ p :
  (p =? nullptr) || negb (UniquePtr.owned σ p || UniquePtr.passed σ p) = true →
  p ≠ nullptr →
  (∀ i, UniquePtr.held σ i ≠ p) ∧ p ∉ (UniquePtr.log σ).*2.
Proof.
  intros Hok Hp. apply orb_true_iff in Hok as [Hz|Hf]; [lia|].
  apply negb_true_iff, orb_false_iff in Hf as [Ho Hl]. split.
  - intros i. by apply owned_false.
  - unfold UniquePtr.passed in Hl. by apply bool_decide_eq_false in Hl.
Qed.

Lemma log_snoc_once (l : list (Deleter * addr)) d p :
  NoDup (filter (λ p, p ≠ nullptr) l.*2) → (p ≠ nullptr → p ∉ l.*2) →
  NoDup (filter (λ p, p ≠ nullptr) (l ++ [(d, p)]).*2).
Proof.
  intros Hnd Hp. rewrite fmap_app, filter_app. simpl.
  rewrite filter_cons, filter_nil. case_decide as E.
  - apply NoDup_app. split; [done|]. split; [|apply NoDup_singleton].
    intros x Hx ->%list_elem_of_singleton.
    apply list_elem_of_filter in Hx as [_ Hx]. by apply Hp.
  - by rewrite app_nil_r.
Qed.

Lemma not_elem_snoc (l : list (Deleter * addr)) d p x :
  x ∉ l.*2 → x ≠ p → x ∉ (l ++ [(d, p)]).*2.
Proof.
  intros Hl Hx. rewrite fmap_app. simpl.
  intros [H|H%list_elem_of_singleton]%elem_of_app; done.
Qed.

Ltac held_tac :=
  repeat (rewrite (held_insert _ _ []) || rewrite (held_delete _ _ []));
  repeat rewrite held_objs.

(** Two handles hold the same pointer: they are the same handle, or the
    pointer is null, or it is a pointer no handle held. *)
Ltac excl_tac Hex :=
  let E := fresh "E" in
  let Hp := fresh "Hp" in
  intros E Hp;
  first
    [ done
    | congruence
    | by apply Hex
    | exfalso;
      match goal with
      | Hn : ?a ≠ ?b |- _ => apply Hn; apply Hex; congruence
      | Hn : ?a ≠ ?b |- _ => apply Hn; symmetry; apply Hex; congruence
      | Hf : ∀ i, UniquePtr.held _ i ≠ _, E' : _ = UniquePtr.held _ ?j |- _ =>
          apply (Hf j); congruence
      | Hf : ∀ i, UniquePtr.held _ i ≠ _, E' : UniquePtr.held _ ?j = _ |- _ =>
          apply (Hf j); congruence
      end ].

Ltac diff_tac Hex :=
  let E := fresh "E" in
  intros E;
  first
    [ congruence
    | match goal with
      | Hn : ?a ≠ ?b |- _ => apply Hn; apply Hex; congruence
      | Hn : ?a ≠ ?b |- _ => apply Hn; symmetry; apply Hex; congruence
      | Hf : ∀ i, UniquePtr.held _ i ≠ _ |- _ => by eapply Hf
      end ].

Ltac live_tac Hex Hlv :=
  let Hp := fresh "Hp" in
  intros Hp;
  first
    [ done
    | congruence
    | by apply Hlv
    | apply not_elem_snoc; [first [by apply Hlv|done]|diff_tac Hex] ].

Lemma ustep_UInv (o : UniquePtr.uop Deleter) σ σ' :
  UniquePtr.UInv σ → UniquePtr.uop_ok o σ = true →
  UniquePtr.ustep moved o σ = Some σ' → UniquePtr.UInv σ'.
Proof.
  intros [Hex Hlv Hon] Hok Hstep. destruct o as [d p del|d src|t o|t|t|t|t p|t o];
    simpl in Hstep, Hok.
  - (* UNew *)
    destruct (UniquePtr.objs σ !! d) eqn:Hd; [done|]. injection Hstep as <-.
    assert (UniquePtr.held σ d = nullptr) as Hhd
      by (unfold UniquePtr.held; by rewrite Hd).
    assert (p = nullptr ∨ (∀ i, UniquePtr.held σ i ≠ p) ∧ p ∉ (UniquePtr.log σ).*2)
      as [->|[Hf1 Hf2]].
    { destruct (decide (p = nullptr)); [by left|right; by apply fresh_ptr]. }
    all: constructor; simpl; [| |done].
    all: try (intros i j; held_tac; repeat case_decide; subst; simpl; excl_tac Hex).
    all: intros i; held_tac; repeat case_decide; subst; simpl; live_tac Hex Hlv.
  - (* UMove *)
    destruct (UniquePtr.objs σ !! d) eqn:Hd; [done|].
    destruct (UniquePtr.objs σ !! src) as [other|] eqn:Hs; [|done].
    injection Hstep as <-.
    assert (UniquePtr.held σ d = nullptr) as Hhd
      by (unfold UniquePtr.held; by rewrite Hd).
    pose proof (held_lookup _ _ _ Hs) as Hhs.
    assert (d ≠ src) as Hne by congruence.
    constructor; simpl; [| |done].
    + intros i j. held_tac.
      repeat case_decide; subst; simpl; rewrite <-?Hhs; excl_tac Hex.
    + intros i. held_tac.
      repeat case_decide; subst; simpl; rewrite <-?Hhs; live_tac Hex Hlv.
  - (* UMoveAssign *)
    destruct (UniquePtr.objs σ !! t) as [this|] eqn:Ht; [|done].
    destruct (UniquePtr.objs σ !! o) as [other|] eqn:Ho; [|done].
    pose proof (held_lookup _ _ _ Ht) as Hht.
    pose proof (held_lookup _ _ _ Ho) as Hho.
    unfold UniquePtr.move_assign, UniquePtr.Get in Hstep.
    destruct (UniquePtr.first this =? UniquePtr.first other) eqn:Hg;
      injection Hstep as <-.
    + apply Z.eqb_eq in Hg. rewrite <-Hht, <-Hho in Hg.
      constructor; simpl; [| |by rewrite app_nil_r].
      * intros i j. held_tac.
        repeat case_decide; subst; rewrite <-?Hht, <-?Hho; excl_tac Hex.
      * intros i. held_tac. rewrite app_nil_r.
        repeat case_decide; subst; rewrite <-?Hht, <-?Hho; live_tac Hex Hlv.
    + apply Z.eqb_neq in Hg. rewrite <-Hht, <-Hho in Hg.
      assert (t ≠ o) as Hne by congruence.
      constructor; simpl.
      * intros i j. held_tac.
        repeat case_decide; subst; simpl; rewrite <-?Hho; excl_tac Hex.
      * intros i. held_tac.
        repeat case_decide; subst; simpl; rewrite <-?Hho, <-?Hht;
          live_tac Hex Hlv.
      * apply log_snoc_once; [done|]. rewrite <-Hht. apply Hlv.
  - (* UAssignNull *)
    destruct (UniquePtr.objs σ !! t) as [this|] eqn:Ht; [|done].
    pose proof (held_lookup _ _ _ Ht) as Hht. injection Hstep as <-.
    unfold UniquePtr.Get. constructor; simpl.
    + intros i j. held_tac.
      repeat case_decide; subst; simpl; excl_tac Hex.
    + intros i. held_tac.
      repeat case_decide; subst; simpl; rewrite <-?Hht; live_tac Hex Hlv.
    + apply log_snoc_once; [done|]. rewrite <-Hht. apply Hlv.
  - (* UDtor *)
    destruct (UniquePtr.objs σ !! t) as [this|] eqn:Ht; [|done].
    pose proof (held_lookup _ _ _ Ht) as Hht. injection Hstep as <-.
    unfold UniquePtr.Get. constructor; simpl.
    + intros i j. held_tac.
      repeat case_decide; subst; simpl; excl_tac Hex.
    + intros i. held_tac.
      repeat case_decide; subst; simpl; rewrite <-?Hht; live_tac Hex Hlv.
    + apply log_snoc_once; [done|]. rewrite <-Hht. apply Hlv.
  - (* URelease *)
    destruct (UniquePtr.objs σ !! t) as [this|] eqn:Ht; [|done].
    injection Hstep as <-.
    constructor; simpl; [| |done].
    + intros i j. held_tac.
      repeat case_decide; subst; simpl; excl_tac Hex.
    + intros i. held_tac.
      repeat case_decide; subst; simpl; live_tac Hex Hlv.
  - (* UReset *)
    destruct (UniquePtr.objs σ !! t) as [this|] eqn:Ht; [|done].
    pose proof (held_lookup _ _ _ Ht) as Hht. injection Hstep as <-.
    assert (p = nullptr ∨ (∀ i, UniquePtr.held σ i ≠ p) ∧ p ∉ (UniquePtr.log σ).*2)
      as [->|[Hf1 Hf2]].
    { destruct (decide (p = nullptr)); [by left|right; by apply fresh_ptr]. }
    all: unfold UniquePtr.Get; constructor; simpl.
    all: try (intros i j; held_tac; repeat case_decide; subst; simpl; excl_tac Hex).
    all: try (intros i; held_tac; repeat case_decide; subst; simpl;
              rewrite <-?Hht; live_tac Hex Hlv).
    all: apply log_snoc_once; [done|]; rewrite <-Hht; apply Hlv.
  - (* USwap *)
    destruct (UniquePtr.objs σ !! t) as [this|] eqn:Ht; [|done].
    destruct (UniquePtr.objs σ !! o) as [other|] eqn:Ho; [|done].
    pose proof (held_lookup _ _ _ Ht) as Hht.
    pose proof (held_lookup _ _ _ Ho) as Hho. injection Hstep as <-.
    constructor; simpl; [| |done].
    + intros i j. held_tac.
      repeat case_decide; subst; simpl; rewrite <-?Hht, <-?Hho; excl_tac Hex.
    + intros i. held_tac.
      repeat case_decide; subst; simpl; rewrite <-?Hht, <-?Hho; live_tac Hex Hlv.
Qed.

Lemma uinit_UInv : UniquePtr.UInv (UniquePtr.uinit (Deleter := Deleter)).
Proof.
  constructor.
  - intros i j _ Hp. by destruct Hp.
  - intros i Hp. by destruct Hp.
  - simpl. apply NoDup_nil_2.
Qed.

Lemma urun_UInv os σ σ' :
  UniquePtr.UInv σ → UniquePtr.urun moved os σ = Some σ' → UniquePtr.UInv σ'.
Proof.
  revert σ. induction os as [|o os IH]; intros σ HI; simpl.
  - by intros [= <-].
  - destruct (UniquePtr.uop_ok o σ) eqn:Hok; [|done].
    destruct (UniquePtr.ustep moved o σ) as [σ1|] eqn:Hs; [|done].
    apply IH. by apply (ustep_UInv o σ σ1).
Qed.

End Exclusive.

(** X17. Exclusive ownership.  In a program that constructs, moves,
    move-assigns, resets, releases, swaps and destroys exclusive handles,
    and that hands to a handle only null pointers and pointers to objects
    that no handle owns and no policy has been called on: two different
    handles never hold the same object, no handle holds an object its
    policy has been called on, and no object is passed to a policy twice. *)
Theorem exclusive_ownership {Deleter : Type} (moved : Deleter → Deleter)
    (os : list (UniquePtr.uop Deleter)) (σ : UniquePtr.Sys Deleter) :
  UniquePtr.urun moved os UniquePtr.uinit = Some σ →
  (∀ i j ui uj, UniquePtr.objs σ !! i = Some ui → UniquePtr.objs σ !! j = Some uj →
     i ≠ j → UniquePtr.Get ui = UniquePtr.Get uj → UniquePtr.Get ui = nullptr) ∧
  (∀ i u, UniquePtr.objs σ !! i = Some u → UniquePtr.Get u ≠ nullptr →
     UniquePtr.Get u ∉ (UniquePtr.log σ).*2) ∧
  NoDup (filter (λ p, p ≠ nullptr) (UniquePtr.log σ).*2).
Proof.
  intros Hrun.
  destruct (urun_UInv moved os _ σ uinit_UInv Hrun) as [Hex Hlv Hon].
  split; [|split; [|done]].
  - intros i j ui uj Hi Hj Hne E.
    destruct (decide (UniquePtr.Get ui = nullptr)) as [|Hp]; [done|].
    destruct Hne. apply Hex.
    + by rewrite (held_lookup _ _ _ Hi), (held_lookup _ _ _ Hj).
    + by rewrite (held_lookup _ _ _ Hi).
  - intros i u Hi Hp. unfold UniquePtr.Get in *.
    rewrite <-(held_lookup _ _ _ Hi). apply Hlv.
    by rewrite (held_lookup _ _ _ Hi).
Qed.

Lemma exclusive_ownership_witness :
  ∃ σ, UniquePtr.urun (λ _, false) unique_example UniquePtr.uinit = Some σ ∧
    (UniquePtr.log σ).*2 = [20; 0; 10; 0] ∧
    NoDup (filter (λ p, p ≠ nullptr) (UniquePtr.log σ).*2).
Proof.
  eexists. split; [by vm_compute|]. split; [by vm_compute|].
  apply (exclusive_ownership (λ _, false) unique_example). by vm_compute.
Defined.

(** X18. Each operation on exclusive handles calls at most one deletion
    policy, and only the policy of a handle on the pointer that this handle
    held; construction, move construction, [Release] and [Swap] call none.
    In a program that respects the client's obligation, no handle holds the
    object afterwards. *)
Theorem policy_called_by_owner {Deleter : Type} (moved : Deleter → Deleter)
    (os : list (UniquePtr.uop Deleter)) (o : UniquePtr.uop Deleter)
    (σ σ' : UniquePtr.Sys Deleter) :
  UniquePtr.urun moved os UniquePtr.uinit = Some σ →
  UniquePtr.uop_ok o σ = true → UniquePtr.ustep moved o σ = Some σ' →
  ∃ cs, UniquePtr.log σ' = UniquePtr.log σ ++ cs ∧ (length cs ≤ 1)%nat ∧
    (match o with
     | UniquePtr.UNew _ _ _ | UniquePtr.UMove _ _ | UniquePtr.URelease _
     | UniquePtr.USwap _ _ => cs = []
     | _ => True
     end) ∧
    ∀ d p, (d, p) ∈ cs →
      (∃ t u, UniquePtr.objs σ !! t = Some u ∧
              UniquePtr.GetDeleter u = d ∧ UniquePtr.Get u = p) ∧
      (p ≠ nullptr → ∀ i, UniquePtr.held σ' i ≠ p).
Proof.
  intros Hrun Hok Hstep.
  pose proof (urun_UInv moved os _ σ uinit_UInv Hrun) as HI.
  pose proof (ustep_UInv moved o σ σ' HI Hok Hstep) as HI'.
  assert (∃ cs, UniquePtr.log σ' = UniquePtr.log σ ++ cs ∧ (length cs ≤ 1)%nat ∧
    (match o with
     | UniquePtr.UNew _ _ _ | UniquePtr.UMove _ _ | UniquePtr.URelease _
     | UniquePtr.USwap _ _ => cs = []
     | _ => True
     end) ∧
    ∀ d p, (d, p) ∈ cs →
      ∃ t u, UniquePtr.objs σ !! t = Some u ∧
             UniquePtr.GetDeleter u = d ∧ UniquePtr.Get u = p)
    as (cs & Hlog & Hlen & Hnone & Hown).
  { clear Hok HI HI' Hrun.
    destruct o as [d p del|d src|t o|t|t|t|t p|t o]; simpl in Hstep.
    - destruct (UniquePtr.objs σ !! d); [done|]. injection Hstep as <-.
      exists []. simpl. rewrite app_nil_r. repeat split; [lia|].
      intros ?? H. by apply elem_of_nil in H.
    - destruct (UniquePtr.objs σ !! d); [done|].
      destruct (UniquePtr.objs σ !! src); [|done]. injection Hstep as <-.
      exists []. simpl. rewrite app_nil_r. repeat split; [lia|].
      intros ?? H. by apply elem_of_nil in H.
    - destruct (UniquePtr.objs σ !! t) as [this|] eqn:Ht; [|done].
      destruct (UniquePtr.objs σ !! o) as [other|] eqn:Ho; [|done].
      unfold UniquePtr.move_assign in Hstep.
      destruct (UniquePtr.Get this =? UniquePtr.Get other);
        injection Hstep as <-; simpl.
      + exists []. repeat split; [simpl; lia|].
        intros ?? H. by apply elem_of_nil in H.
      + eexists. split; [done|]. split; [simpl; lia|]. split; [done|].
        intros d p [= -> ->]%list_elem_of_singleton. by exists t, this.
    - destruct (UniquePtr.objs σ !! t) as [this|] eqn:Ht; [|done].
      injection Hstep as <-. simpl.
      eexists. split; [done|]. split; [simpl; lia|]. split; [done|].
      intros d p [= -> ->]%list_elem_of_singleton. by exists t, this.
    - destruct (UniquePtr.objs σ !! t) as [this|] eqn:Ht; [|done].
      injection Hstep as <-. simpl.
      eexists. split; [done|]. split; [simpl; lia|]. split; [done|].
      intros d p [= -> ->]%list_elem_of_singleton. by exists t, this.
    - destruct (UniquePtr.objs σ !! t) as [this|] eqn:Ht; [|done].
      injection Hstep as <-.
      exists []. simpl. rewrite app_nil_r. repeat split; [lia|].
      intros ?? H. by apply elem_of_nil in H.
    - destruct (UniquePtr.objs σ !! t) as [this|] eqn:Ht; [|done].
      injection Hstep as <-. simpl.
      eexists. split; [done|]. split; [simpl; lia|]. split; [done|].
      intros d q [= -> ->]%list_elem_of_singleton. by exists t, this.
    - destruct (UniquePtr.objs σ !! t); [|done].
      destruct (UniquePtr.objs σ !! o); [|done]. injection Hstep as <-.
      exists []. simpl. rewrite app_nil_r. repeat split; [lia|].
      intros ?? H. by apply elem_of_nil in H. }
  exists cs. split; [done|]. split; [done|]. split; [done|].
  intros d p Hin. split; [by apply Hown|].
  intros Hp i Hi.
  apply (UniquePtr.u_live _ HI' i); [congruence|].
  rewrite Hi, Hlog, fmap_app. apply elem_of_app. right.
  apply list_elem_of_fmap. by exists (d, p).
Qed.

Lemma policy_called_by_owner_witness :
  ∃ σ σ', UniquePtr.urun (λ _, false)
            [UniquePtr.UNew 1 10 true; UniquePtr.UNew 2 20 true] UniquePtr.uinit
            = Some σ ∧
    UniquePtr.ustep (λ _, false) (UniquePtr.UMoveAssign 2 1) σ = Some σ' ∧
    ∃ cs, UniquePtr.log σ' = UniquePtr.log σ ++ cs ∧ (length cs ≤ 1)%nat.
Proof.
  eexists. eexists. split; [by vm_compute|]. split; [by vm_compute|].
  destruct (policy_called_by_owner (λ _, false)
              [UniquePtr.UNew 1 10 true; UniquePtr.UNew 2 20 true]
              (UniquePtr.UMoveAssign 2 1) _ _ eq_refl eq_refl eq_refl)
    as (cs & H1 & H2 & _).
  exists cs. split; [exact H1|exact H2].
Defined.

(** ** What operations on weak handles leave alone *)

Lemma strong_frame_refl s : strong_frame s s.
Proof. by repeat split. Qed.

Lemma strong_frame_trans s1 s2 s3 :
  strong_frame s1 s2 → strong_frame s2 s3 → strong_frame s1 s3.
Proof.
  intros (H1 & H2 & H3) (H1' & H2' & H3'). split; [congruence|].
  split; [congruence|]. intros b.
  destruct (H3 b), (H3' b). split; congruence.
Qed.

Lemma frames_ret {A} (a : A) : frames (mret a).
Proof. intros s. apply strong_frame_refl. Qed.

Lemma frames_bind {A B} (c : M A) (k : A → M B) :
  frames c → (∀ a, frames (k a)) → frames (c ≫= k).
Proof.
  intros Hc Hk s. specialize (Hc s). unfold mbind, M_bind.
  destruct (c s) as [a s1|s1|]; [|done..].
  specialize (Hk a s1). destruct (k a s1) as [b s2|s2|]; [| |done].
  - by apply (strong_frame_trans _ s1).
  - by apply (strong_frame_trans _ s1).
Qed.

Lemma frames_weak_store (f : gmap WeakId Handle → gmap WeakId Handle) :
  frames (modify (set_weak f)).
Proof. intros s. by repeat split. Qed.

Lemma frames_wk_get w : frames (wk_get w).
Proof.
  intros s. unfold wk_get. destruct (weak s !! w); [|done].
  apply strong_frame_refl.
Qed.

Lemma frames_sh_get i : frames (sh_get i).
Proof.
  intros s. unfold sh_get. destruct (shared s !! i); [|done].
  apply strong_frame_refl.
Qed.

Lemma frames_get_block b : frames (get_block b).
Proof.
  intros s. unfold get_block. destruct (heap s !! b); [|done].
  apply strong_frame_refl.
Qed.

Lemma frames_wk_new w h : frames (wk_new w h).
Proof.
  intros s. unfold wk_new. destruct (weak s !! w); [done|]. by repeat split.
Qed.

Lemma put_weak_frame s b blk z :
  heap s !! b = Some blk → strong_frame s (set_heap <[b := with_weak z blk]> s).
Proof.
  intros Hb. split; [done|]. split; [done|]. intros x. split; [done|].
  unfold strong_of. simpl. destruct (decide (x = b)) as [->|Hx].
  - by rewrite lookup_insert_eq, Hb.
  - by rewrite lookup_insert_ne.
Qed.

Lemma frames_IncrementWeakCounter b : frames (IncrementWeakCounter b).
Proof.
  intros s. unfold IncrementWeakCounter, get_block, mbind, M_bind, undefined.
  destruct (heap s !! b) as [blk|] eqn:Hb; [|done].
  destruct (weak_counter blk =? INT_MAX); [done|]. by apply put_weak_frame.
Qed.

Lemma frames_DecrementWeakCounter b : frames (DecrementWeakCounter b).
Proof.
  intros s. unfold DecrementWeakCounter, get_block, mbind, M_bind, undefined.
  destruct (heap s !! b) as [blk|] eqn:Hb; [|done].
  destruct (weak_counter blk =? INT_MIN); [done|]. by apply put_weak_frame.
Qed.

(** The weak release path frees the block only when the strong counter is
    already 0, and never runs [DeletePointer]. *)
Lemma frames_DecrementBlockWeakCounter w :
  frames (WeakPtr.DecrementBlockWeakCounter w).
Proof.
  intros s. unfold WeakPtr.DecrementBlockWeakCounter.
  unfold mbind at 1, M_bind at 1, wk_get.
  destruct (weak s !! w) as [h|]; [|done].
  destruct (block_ h) as [b|]; [|apply strong_frame_refl].
  unfold GetStrongCounter, GetWeakCounter, get_block, delete_block, modify.
  unfold mbind, M_bind, mret, M_ret.
  destruct (heap s !! b) as [blk|] eqn:Hb; [|done].
  cbv beta iota. rewrite Hb. cbv beta iota.
  destruct ((strong_counter blk =? 0) && (weak_counter blk <=? 1)) eqn:Hc.
  - unfold get_block. rewrite Hb. apply andb_true_iff in Hc as [Hz%Z.eqb_eq _].
    split; [done|]. split; [done|]. intros x. split.
    + unfold deleted. simpl. rewrite occ_snoc, decide_False by done. lia.
    + unfold strong_of. simpl. destruct (decide (x = b)) as [->|Hx].
      * by rewrite lookup_delete_eq, Hb.
      * by rewrite lookup_delete_ne.
  - apply frames_DecrementWeakCounter.
Qed.

Lemma frames_IncrementBlockWeakCounter w :
  frames (WeakPtr.IncrementBlockWeakCounter w).
Proof.
  unfold WeakPtr.IncrementBlockWeakCounter.
  apply frames_bind; [apply frames_wk_get|]. intros h.
  destruct (block_ h); [apply frames_IncrementWeakCounter|apply frames_ret].
Qed.

Create HintDb frame.
#[local] Hint Resolve frames_ret frames_weak_store frames_wk_get frames_sh_get
  frames_wk_new frames_DecrementBlockWeakCounter
  frames_IncrementBlockWeakCounter : frame.

Ltac frame_tac :=
  repeat (first
    [ solve [auto with frame]
    | apply frames_bind; [|intros ?]
    | progress unfold wk_set_ptr, wk_set_block, wk_del,
        WeakPtr.swap_ptr, WeakPtr.swap_block ]).

Lemma frames_weak_op o : weak_op o = true → frames (step o).
Proof.
  destruct o; try done; intros _; simpl;
    unfold WeakFromThis, on_weak, WeakPtr.default, WeakPtr.copy, WeakPtr.move,
      WeakPtr.from_shared, WeakPtr.assign, WeakPtr.move_assign, WeakPtr.dtor,
      WeakPtr.Reset, WeakPtr.Swap;
    try case_decide; frame_tac.
Qed.

(** X19. An operation on weak handles (construction, copy, move, demotion
    of a strong handle, assignment, [Reset], [Swap], destruction,
    [WeakFromThis]) never runs [DeletePointer], never changes a strong
    counter, never creates, changes or removes a strong handle, and never
    allocates a block, in any state. *)
Theorem weak_operations_leave_strong_side (o : op) (s s' : State) :
  weak_op o = true → after o s = Some s' →
  shared s' = shared s ∧ next s' = next s ∧
  ∀ b, deleted s' b = deleted s b ∧ strong_of s' b = strong_of s b.
Proof.
  intros Hw Hafter. pose proof (frames_weak_op o Hw s) as H.
  unfold after in Hafter.
  destruct (step o s) as [[] s1|s1|]; [| |done]; by injection Hafter as <-.
Qed.

Lemma weak_operations_leave_strong_side_witness :
  shared widget_freed_state = shared widget_expired_state ∧
  next widget_freed_state = next widget_expired_state ∧
  ∀ b, deleted widget_freed_state b = deleted widget_expired_state b ∧
       strong_of widget_freed_state b = strong_of widget_expired_state b.
Proof.
  apply (weak_operations_leave_strong_side (WkDtor 0)); [done|by vm_compute].
Defined.

(** ** Where [BadWeakPtr] comes from *)

Lemma nothrow_ret {A} (a : A) : nothrow (mret a).
Proof. by intros s s'. Qed.

Lemma nothrow_bind {A B} (c : M A) (k : A → M B) :
  nothrow c → (∀ a, nothrow (k a)) → nothrow (c ≫= k).
Proof.
  intros Hc Hk s s'. unfold mbind, M_bind.
  destruct (c s) as [a s1|s1|] eqn:E; [apply Hk|by destruct (Hc s s1)|done].
Qed.

Lemma nothrow_modify f : nothrow (modify f).
Proof. by intros s s'. Qed.

Lemma nothrow_undefined {A} : nothrow (undefined : M A).
Proof. by intros s s'. Qed.

Lemma nothrow_wk_get w : nothrow (wk_get w).
Proof. intros s s'. unfold wk_get. by destruct (weak s !! w). Qed.

Lemma nothrow_sh_get i : nothrow (sh_get i).
Proof. intros s s'. unfold sh_get. by destruct (shared s !! i). Qed.

Lemma nothrow_get_block b : nothrow (get_block b).
Proof. intros s s'. unfold get_block. by destruct (heap s !! b). Qed.

Lemma nothrow_wk_new w h : nothrow (wk_new w h).
Proof. intros s s'. unfold wk_new. by destruct (weak s !! w). Qed.

Lemma nothrow_sh_new i h : nothrow (sh_new i h).
Proof. intros s s'. unfold sh_new. by destruct (shared s !! i). Qed.

Lemma nothrow_new_block k p (cap : bool) : nothrow (new_block k p cap).
Proof.
  intros s s'. unfold new_block. destruct cap; [|done].
  unfold mbind, M_bind, wk_new. simpl. by destruct (weak s !! WeakThis (next s)).
Qed.

Create HintDb nothrow.
#[local] Hint Resolve nothrow_ret nothrow_modify nothrow_undefined nothrow_wk_get
  nothrow_sh_get nothrow_get_block nothrow_wk_new nothrow_sh_new
  nothrow_new_block : nothrow.

Ltac nothrow_tac :=
  repeat (first
    [ solve [auto with nothrow]
    | apply nothrow_bind; [|intros ?]
    | match goal with
      | |- nothrow (match ?x with _ => _ end) => destruct x
      end
    | progress unfold
        GetStrongCounter, GetWeakCounter, IncrementStrongCounter,
        DecrementStrongCounter, IncrementWeakCounter, DecrementWeakCounter,
        delete_block, put_block, wk_del, wk_set_ptr, wk_set_block,
        sh_del, sh_set_ptr, sh_set_block, DeletePointer,
        WeakPtr.IncrementBlockWeakCounter, WeakPtr.DecrementBlockWeakCounter,
        WeakPtr.swap_ptr, WeakPtr.swap_block, WeakPtr.dtor,
        WeakPtr.from_shared, WeakPtr.move_assign,
        SharedPtr.IncrementBlockStrongCounter,
        SharedPtr.DecrementBlockStrongCounter, SharedPtr.install_weak_this,
        SharedPtr.swap_ptr, SharedPtr.swap_block ]).

Lemma nothrow_step o :
  match o with
  | ShPromote _ _ | ObjSharedFromThis _ _ | WkLock _ _ => True
  | _ => nothrow (step o)
  end.
Proof.
  destruct o; try done; simpl;
    unfold WeakFromThis, on_weak, on_shared, WeakPtr.default, WeakPtr.copy,
      WeakPtr.move, WeakPtr.assign, WeakPtr.Reset, WeakPtr.Swap,
      SharedPtr.default, SharedPtr.adopt, SharedPtr.MakeShared, SharedPtr.copy,
      SharedPtr.move, SharedPtr.alias, SharedPtr.assign, SharedPtr.move_assign,
      SharedPtr.dtor, SharedPtr.Reset, SharedPtr.Reset_ptr, SharedPtr.Swap;
    nothrow_tac.
Qed.

Lemma promote_throw d w s s' :
  SharedPtr.promote d w s = Throw s' →
  s' = s ∧ ∃ h b blk, weak s !! w = Some h ∧ block_ h = Some b ∧
    heap s !! b = Some blk ∧ strong_counter blk = 0.
Proof.
  unfold SharedPtr.promote. munfold.
  destruct (weak s !! w) as [h|] eqn:Hw; [|done].
  destruct (block_ h) as [b|] eqn:Hb; [|done].
  destruct (heap s !! b) as [blk|] eqn:Hblk; [|done].
  destruct (strong_counter blk =? 0) eqn:Hz.
  - intros [= <-]. split; [done|]. exists h, b, blk. repeat split; try done. lia.
  - destruct (shared s !! d); [done|]. msimpl. mrun.
    by destruct (strong_counter blk =? INT_MAX).
Qed.

Lemma Lock_nothrow d w : nothrow (Lock d w).
Proof.
  intros s s'. unfold Lock, WeakPtr.UseCount. munfold.
  destruct (weak s !! w) as [h|] eqn:Hw; [|done].
  destruct (block_ h) as [b|] eqn:Hb.
  - destruct (heap s !! b) as [blk|] eqn:Hblk; [|done]. msimpl.
    destruct (to_size_t (strong_counter blk) =? 0) eqn:Hz.
    + unfold SharedPtr.default. munfold. by destruct (shared s !! d).
    + intros Hthrow.
      destruct (promote_throw _ _ _ _ Hthrow)
        as (_ & h' & b' & blk' & H1 & H2 & H3 & H4).
      rewrite Hw in H1. injection H1 as <-. rewrite Hb in H2. injection H2 as <-.
      rewrite Hblk in H3. injection H3 as <-. rewrite H4 in Hz. done.
  - change (0 =? 0) with true.
    unfold SharedPtr.default. munfold. by destruct (shared s !! d).
Qed.

(** X20. [BadWeakPtr] comes from the promoting constructor only, used
    directly or through [SharedFromThis]: no other operation of the strong
    and weak handles throws, [Lock] included.  When it is thrown, the weak
    handle is attached to a block whose strong counter is 0, and the state is
    the one before the call. *)
Theorem only_promotion_throws (o : op) (s s' : State) :
  step o s = Throw s' →
  s' = s ∧
  ∃ d w h b blk,
    (o = ShPromote d w ∨ ∃ b', o = ObjSharedFromThis d b' ∧ w = WeakThis b') ∧
    weak s !! w = Some h ∧ block_ h = Some b ∧
    heap s !! b = Some blk ∧ strong_counter blk = 0.
Proof.
  intros Hthrow. pose proof (nothrow_step o) as Hn.
  destruct o; try (by destruct (Hn s s')); simpl in Hthrow.
  - destruct (promote_throw _ _ _ _ Hthrow) as (-> & h & b & blk & H).
    split; [done|]. exists d, w, h, b, blk. split; [by left|done].
  - by destruct (Lock_nothrow d w s s').
  - unfold SharedFromThis in Hthrow.
    destruct (promote_throw _ _ _ _ Hthrow) as (-> & h & b' & blk & H).
    split; [done|]. exists d, (WeakThis b), h, b', blk.
    split; [right; by exists b|done].
Qed.

Lemma only_promotion_throws_witness :
  ∃ h b blk, weak widget_expired_state !! User 0 = Some h ∧ block_ h = Some b ∧
    heap widget_expired_state !! b = Some blk ∧ strong_counter blk = 0.
Proof.
  destruct (only_promotion_throws (ShPromote 6 (User 0)) widget_expired_state
              widget_expired_state) as (_ & d & w & h & b & blk & Ho & H);
    [by vm_compute|].
  destruct Ho as [[= <- <-]|(b' & [=] & _)].
  by exists h, b, blk.
Defined.


